(** * fuzzy-search: a shallow embedding of [src/index.ts]

    The first half embeds the source file: the values the library handles
    (UTF-16 strings, numbers, arrays with holes, items), the two
    edit-distance engines, the heuristic scorers, and the two entry points
    [smartFuzzySearch] and [smartFuzzySearchAll].  The second half proves
    the properties of the specification, or evaluates the code where it
    departs from them.  A last part proves further properties of the code:
    the edit distance as the length of a shortest edit script, the scorers
    on equal, empty and nested strings, the tokenizer, and what the two
    entry points return (ranking, thresholds, bounds of the scores, the
    cache, case-sensitive calls).

    Conventions.
    - A JavaScript string is the list of its UTF-16 code units; [length],
      [charAt], [s[i]], [split('')], [includes], [startsWith] and [indexOf]
      all work on code units, while iterating a string (as [new Set(str)]
      does) walks code points.
    - Scores are JavaScript numbers; they are idealised as exact rationals
      ([Q]).  Lengths, counters and edit distances are integers.
    - An array cell is [option]: [None] is a hole (a cell never written).
      Reading a hole or an index out of range yields [undefined] in
      JavaScript; the embedding turns that into [None] for the whole
      computation, so a result [Some v] certifies that no such read
      happened.
    - [String.prototype.toLowerCase] is a built-in of the language; it is a
      parameter of the entry points. *)

From stdpp Require Import gmap strings list fin_maps fin_sets.
From Stdlib Require Import ZArith QArith Qminmax Lia Lqa Sorted.

Close Scope Q_scope.
Open Scope Z_scope.

(** ** Strings *)

(** UTF-16 code units. *)
Abbreviation jsstring := (list N).

(** [str.charAt(k)]; [None] stands for the empty string returned out of
    range.  [str[k]] is read the same way ([undefined] out of range). *)
Definition charAt (str : jsstring) (k : nat) : option N := str !! k.

(** ** Arrays with holes *)

(** [arr[i]]: [None] for a hole or an index out of range. *)
Definition array_get {A} (arr : list (option A)) (i : nat) : option A :=
  mjoin (arr !! i).

(** [arr[i] = v]: overwrites in range, and extends the array (padding with
    holes) out of range. *)
Definition array_set {A} (arr : list (option A)) (i : nat) (v : A)
  : list (option A) :=
  if decide (i < length arr)%nat then <[i := Some v]> arr
  else arr ++ replicate (i - length arr) None ++ [Some v].

(** [new Array(n)]: [n] holes. *)
Definition new_Array {A} (n : nat) : list (option A) := replicate n None.

(** [Math.min(...arr)] on a non-empty array of numbers; a hole makes the
    result [NaN] ([None]).  ([Math.min()] of nothing is [Infinity]; the
    arrays here always have at least one cell.) *)
Fixpoint math_min (arr : list (option Z)) : option Z :=
  match arr with
  | [] => None
  | [c] => c
  | c :: rest => x ← c; m ← math_min rest; Some (Z.min x m)
  end.

(** A loop body that may read a hole, run over the indices [js]. *)
Fixpoint for_each {S} (body : S → nat → option S) (s : S) (js : list nat)
  : option S :=
  match js with
  | [] => Some s
  | j :: js' => s' ← body s j; for_each body s' js'
  end.

(** ** Edit distance *)

Module EditDistance.

(** *** [calculateEditDistanceOptimized] *)

(** First row: [for (j = 0; j <= len2; j++) prev[j] = j]. *)
Definition init_prev (len2 : nat) : list (option Z) :=
  foldl (λ prev j, array_set prev j (Z.of_nat j))
        (new_Array (S len2)) (seq 0 (S len2)).

(** Body of the inner loop, for row [i] and column [j]. *)
Definition fill_cell (str1 str2 : jsstring) (i : nat)
    (prev curr : list (option Z)) (j : nat) : option (list (option Z)) :=
  if decide (charAt str1 (i - 1) = charAt str2 (j - 1)) then
    d ← array_get prev (j - 1);
    Some (array_set curr j d)
  else
    a ← array_get prev (j - 1);
    b ← array_get curr (j - 1);
    c ← array_get prev j;
    Some (array_set curr j (Z.min (a + 1) (Z.min (b + 1) (c + 1)))).

(** One iteration of the outer loop up to the early-exit test: the filled
    row and its minimum. *)
Definition fill_row (str1 str2 : jsstring) (i : nat)
    (prev curr : list (option Z)) : option (list (option Z) * Z) :=
  curr' ← for_each (fill_cell str1 str2 i prev)
                   (array_set curr 0 (Z.of_nat i)) (seq 1 (length str2));
  minInRow ← math_min curr';
  Some (curr', minInRow).

(** The outer loop over the rows [ixs], with its early return and the swap
    of the two rolling arrays. *)
Fixpoint rows (str1 str2 : jsstring) (maxDistance : Z)
    (prev curr : list (option Z)) (ixs : list nat) : option Z :=
  match ixs with
  | [] => array_get prev (length str2)
  | i :: ixs' =>
      '(curr', minInRow) ← fill_row str1 str2 i prev curr;
      if decide (minInRow > maxDistance) then Some (maxDistance + 1)
      else rows str1 str2 maxDistance curr' prev ixs'
  end.

Definition calculateEditDistanceOptimized (str1 str2 : jsstring)
    (maxDistance : Z) : option Z :=
  let len1 := length str1 in
  let len2 := length str2 in
  if decide (Z.abs (Z.of_nat len1 - Z.of_nat len2) > maxDistance)
  then Some (maxDistance + 1)
  else rows str1 str2 maxDistance
            (init_prev len2) (new_Array (S len2)) (seq 1 len1).

(** *** [calculateEditDistance] *)

(** [matrix[i][j] = v]: the row object is updated in place. *)
Definition matrix_set (matrix : list (option (list (option Z))))
    (i j : nat) (v : Z) : option (list (option (list (option Z)))) :=
  row ← array_get matrix i;
  Some (array_set matrix i (array_set row j v)).

Definition matrix_get (matrix : list (option (list (option Z))))
    (i j : nat) : option Z :=
  row ← array_get matrix i; array_get row j.

Definition matrix_cell (str1 str2 : jsstring) (i : nat)
    (matrix : list (option (list (option Z)))) (j : nat)
  : option (list (option (list (option Z)))) :=
  if decide (charAt str2 (i - 1) = charAt str1 (j - 1)) then
    d ← matrix_get matrix (i - 1) (j - 1);
    matrix_set matrix i j d
  else
    a ← matrix_get matrix (i - 1) (j - 1);
    b ← matrix_get matrix i (j - 1);
    c ← matrix_get matrix (i - 1) j;
    matrix_set matrix i j (Z.min (a + 1) (Z.min (b + 1) (c + 1))).

Definition matrix_row (str1 str2 : jsstring)
    (matrix : list (option (list (option Z)))) (i : nat)
  : option (list (option (list (option Z)))) :=
  for_each (matrix_cell str1 str2 i) matrix (seq 1 (length str1)).

Definition calculateEditDistance (str1 str2 : jsstring) : option Z :=
  let matrix0 :=
    foldl (λ m i, array_set m i [Some (Z.of_nat i)])
          [] (seq 0 (S (length str2))) in
  matrix1 ← for_each (λ m j, matrix_set m 0 j (Z.of_nat j))
                     matrix0 (seq 0 (S (length str1)));
  matrix2 ← for_each (matrix_row str1 str2) matrix1 (seq 1 (length str2));
  matrix_get matrix2 (length str2) (length str1).

End EditDistance.

Import EditDistance.

(** ** Numbers *)

(** The number of code units of a string, as a score operand. *)
Definition Qlength (str : jsstring) : Q := inject_Z (Z.of_nat (length str)).

(** A counter as a score operand. *)
Definition Qnat (n : nat) : Q := inject_Z (Z.of_nat n).

(** ** String built-ins on code units *)

(** [str.startsWith(search)]. *)
Fixpoint startsWith (str search : jsstring) : bool :=
  match search, str with
  | [], _ => true
  | _ :: _, [] => false
  | c :: search', d :: str' => bool_decide (c = d) && startsWith str' search'
  end.

(** [str.includes(search)]. *)
Fixpoint includes (str search : jsstring) : bool :=
  startsWith str search ||
  match str with
  | [] => false
  | _ :: str' => includes str' search
  end.

(** [arr.indexOf(x)] on an array of single code units; [-1] when absent.
    [x] is [None] when the caller passes [undefined]. *)
Fixpoint indexOf_from (arr : jsstring) (x : N) (k : Z) : Z :=
  match arr with
  | [] => -1
  | c :: arr' => if decide (c = x) then k else indexOf_from arr' x (k + 1)
  end.

Definition indexOf (arr : jsstring) (x : option N) : Z :=
  match x with
  | Some c => indexOf_from arr c 0
  | None => -1
  end.

(** [arr.includes(x)] on an array of single code units. *)
Definition array_includes (arr : jsstring) (x : N) : bool :=
  bool_decide (x ∈ arr).

(** The first code unit of a surrogate pair. *)
Definition is_high_surrogate (c : N) : bool :=
  ((0xD800 <=? c) && (c <=? 0xDBFF))%N.

(** The second code unit of a surrogate pair. *)
Definition is_low_surrogate (c : N) : bool :=
  ((0xDC00 <=? c) && (c <=? 0xDFFF))%N.

(** The elements produced by iterating a string: one per code point, a
    surrogate pair giving one element of two code units. *)
Fixpoint codePoints (str : jsstring) : list jsstring :=
  match str with
  | [] => []
  | c :: rest =>
      match rest with
      | d :: rest' =>
          if is_high_surrogate c && is_low_surrogate d
          then [c; d] :: codePoints rest'
          else [c] :: codePoints rest
      | [] => [[c]]
      end
  end.

(** Whether a string holds a surrogate pair, that is, whether iterating it
    yields anything but its code units one by one. *)
Fixpoint has_surrogate_pair (str : jsstring) : bool :=
  match str with
  | [] => false
  | c :: rest =>
      match rest with
      | d :: _ =>
          (is_high_surrogate c && is_low_surrogate d) || has_surrogate_pair rest
      | [] => false
      end
  end.

(** [/[\s,，。.]/]: the white space class of regular expressions, the two
    commas and the two full stops. *)
Definition isDelimiter (c : N) : bool :=
  bool_decide (c ∈ [0x20; 0x2C; 0x2E; 0xFF0C; 0x3002; 0xA0; 0x1680; 0x2028;
                    0x2029; 0x202F; 0x205F; 0x3000; 0xFEFF]%N)
  || ((0x09 <=? c) && (c <=? 0x0D))%N
  || ((0x2000 <=? c) && (c <=? 0x200A))%N.

(** [str.split(/[\s,，。.]+/).filter((word) => word.length > 0)]: the
    maximal runs of code units that are not delimiters.  [cur] is the run
    being read. *)
Fixpoint splitWords_from (str cur : jsstring) : list jsstring :=
  match str with
  | [] => if cur is [] then [] else [cur]
  | c :: str' =>
      if isDelimiter c
      then (if cur is [] then [] else [cur]) ++ splitWords_from str' []
      else splitWords_from str' (cur ++ [c])
  end.

Definition splitWords (str : jsstring) : list jsstring :=
  splitWords_from str [].

(** A counting loop with [break]: the number of leading indices of [ixs]
    at which [same] holds. *)
Fixpoint run_length (same : nat → bool) (ixs : list nat) : nat :=
  match ixs with
  | [] => 0
  | i :: ixs' => if same i then S (run_length same ixs') else 0
  end.

(** ** Heuristic scorers *)

(** The Jaccard similarity of the sets of characters obtained by iterating
    the two strings ([new Set(str)]). *)
Definition calculateCharSimilarityOptimized (str1 str2 : jsstring) : Q :=
  if bool_decide (str1 = []) || bool_decide (str2 = []) then 0%Q
  else if bool_decide (str1 = str2) then 1%Q
  else
    let chars1 : gset jsstring := list_to_set (codePoints str1) in
    let chars2 : gset jsstring := list_to_set (codePoints str2) in
    let intersection :=
      foldl (λ n char, if bool_decide (char ∈ chars2) then n + 1 else n)
            0 (elements chars1) in
    let union := Z.of_nat (size chars1) + Z.of_nat (size chars2) - intersection in
    if decide (union > 0) then (inject_Z intersection / inject_Z union)%Q
    else 0%Q.

(** The ratio of the lengths when one string contains the other. *)
Definition calculateSubstringMatch (target search : jsstring) : Q :=
  if bool_decide (target = []) || bool_decide (search = []) then 0%Q
  else if includes target search then (Qlength search / Qlength target)%Q
  else if includes search target then (Qlength target / Qlength search)%Q
  else 0%Q.

(** The length of the common prefix over the larger length. *)
Definition calculateCommonPrefix (str1 str2 : jsstring) : Q :=
  if bool_decide (str1 = []) || bool_decide (str2 = []) then 0%Q
  else
    let minLength := (length str1 `min` length str2)%nat in
    let commonLength :=
      run_length (λ i, bool_decide (str1 !! i = str2 !! i)) (seq 0 minLength) in
    if decide (commonLength = 0%nat) then 0%Q
    else
      let maxLength := (length str1 `max` length str2)%nat in
      (Qnat commonLength / Qnat maxLength)%Q.

(** The longest run of [search] matched from its start at some offset of
    [target]. *)
Definition calculateContinuousMatch (target search : jsstring) : Q :=
  if bool_decide (target = []) || bool_decide (search = []) then 0%Q
  else
    let offsets :=
      seq 0 (Z.to_nat (Z.of_nat (length target) - Z.of_nat (length search) + 1)) in
    let maxContinuousLength :=
      foldl (λ maxContinuousLength i,
               let currentContinuousLength :=
                 run_length (λ j, bool_decide (target !! (i + j)%nat = search !! j))
                            (seq 0 (length search)) in
               (maxContinuousLength `max` currentContinuousLength)%nat)
            0%nat offsets in
    if decide (maxContinuousLength = 0%nat) then 0%Q
    else
      let continuousRatio := (Qnat maxContinuousLength / Qlength search)%Q in
      let lengthRatio :=
        (Qnat maxContinuousLength
         / Qnat (length target `max` length search))%Q in
      (continuousRatio * (7 # 10) + lengthRatio * (3 # 10))%Q.

(** The share of the characters of [search] found in [target], with a bonus
    for those found after the first position of their predecessor. *)
Definition calculateChineseWordMatch (target search : jsstring) : Q :=
  if bool_decide (target = []) || bool_decide (search = []) then 0%Q
  else
    let targetChars := target in
    let searchChars := search in
    let totalSearchChars := length searchChars in
    let matchCount :=
      foldl (λ n searchChar,
               if array_includes targetChars searchChar then S n else n)
            0%nat searchChars in
    if decide (matchCount = 0%nat) then 0%Q
    else
      let matchRatio := (Qnat matchCount / Qnat totalSearchChars)%Q in
      let consecutiveMatches :=
        foldl (λ n i,
                 let searchChar := searchChars !! i in
                 let targetIndex := indexOf targetChars searchChar in
                 if decide (targetIndex ≠ -1) then
                   if bool_decide (i = 0%nat)
                      || bool_decide (targetIndex >
                                      indexOf targetChars (searchChars !! (i - 1)%nat))
                   then S n else n
                 else n)
              0%nat (seq 0 (length searchChars)) in
      let orderBonus := (Qnat consecutiveMatches / Qnat totalSearchChars)%Q in
      (matchRatio * (8 # 10) + orderBonus * (2 # 10))%Q.

(** The Jaccard similarity of the sets of code units of the two strings
    ([new Set(str.split(''))]). *)
Definition calculateCharSimilarity (str1 str2 : jsstring) : Q :=
  if bool_decide (str1 = []) || bool_decide (str2 = []) then 0%Q
  else
    let chars1 : gset N := list_to_set str1 in
    let chars2 : gset N := list_to_set str2 in
    let intersection : gset N :=
      list_to_set (base.filter (λ x, x ∈ chars2) (elements chars1)) in
    let union : gset N := list_to_set (elements chars1 ++ elements chars2) in
    if decide (0 < size union)%nat
    then (Qnat (size intersection) / Qnat (size union))%Q
    else 0%Q.

(** The smaller length over the larger one. *)
Definition calculateLengthSimilarity (str1 str2 : jsstring) : Q :=
  if bool_decide (str1 = []) || bool_decide (str2 = []) then 0%Q
  else
    let len1 := length str1 in
    let len2 := length str2 in
    if bool_decide (len1 = 0%nat) && bool_decide (len2 = 0%nat) then 1%Q
    else if bool_decide (len1 = 0%nat) || bool_decide (len2 = 0%nat) then 0%Q
    else
      let maxLen := (len1 `max` len2)%nat in
      let minLen := (len1 `min` len2)%nat in
      (Qnat minLen / Qnat maxLen)%Q.

(** ** Type definitions *)

Module WeightConfig.
Record t : Type := mk {
  exactMatch : Q;
  prefixMatch : Q;
  containsMatch : Q;
  charSimilarity : Q;
  lengthSimilarity : Q;
  wordBoundary : Q;
  substringMatch : Q;
  commonPrefix : Q
}.
End WeightConfig.

(** [Partial<WeightConfig>]: [None] for a key that is absent. *)
Module PartialWeightConfig.
Record t : Type := mk {
  exactMatch : option Q;
  prefixMatch : option Q;
  containsMatch : option Q;
  charSimilarity : option Q;
  lengthSimilarity : option Q;
  wordBoundary : option Q;
  substringMatch : option Q;
  commonPrefix : option Q
}.
(** [{}] *)
Definition empty : t := mk None None None None None None None None.
End PartialWeightConfig.

Module SearchOptions.
Record t : Type := mk {
  minScore : option Q;
  caseSensitive : option bool;
  weightConfig : option PartialWeightConfig.t;
  enableCache : option bool;
  maxEditDistance : option Z
}.
(** [{}] *)
Definition empty : t := mk None None None None None.
End SearchOptions.

Module MatchDetails.
Record t : Type := mk {
  exactMatch : bool;
  prefixMatch : bool;
  containsMatch : bool;
  charSimilarity : Q;
  lengthSimilarity : Q;
  editSimilarity : Q;
  wordMatches : option nat
}.
End MatchDetails.

(** The values a field of an item can hold: the primitive values, a number
    being an integer. *)
Inductive jsvalue : Type :=
  | VUndefined
  | VNull
  | VBoolean (b : bool)
  | VNumber (n : Z)
  | VString (s : jsstring).

(** [SearchableItem = Record<string, any>]. *)
Abbreviation Item := (gmap string jsvalue).

Module SearchResult.
Record t : Type := mk {
  item : Item;
  score : Q;
  details : MatchDetails.t
}.
End SearchResult.

Definition DEFAULT_WEIGHT_CONFIG : WeightConfig.t :=
  {| WeightConfig.exactMatch := 1;
     WeightConfig.prefixMatch := 8 # 10;
     WeightConfig.containsMatch := 6 # 10;
     WeightConfig.charSimilarity := 4 # 10;
     WeightConfig.lengthSimilarity := 2 # 10;
     WeightConfig.wordBoundary := 7 # 10;
     WeightConfig.substringMatch := 9 # 10;
     WeightConfig.commonPrefix := 85 # 100 |}%Q.

(** [{ ...DEFAULT_WEIGHT_CONFIG, ...userWeightConfig }] *)
Definition mergeWeightConfig (user : PartialWeightConfig.t) : WeightConfig.t :=
  let d := DEFAULT_WEIGHT_CONFIG in
  {| WeightConfig.exactMatch :=
       default (WeightConfig.exactMatch d) (PartialWeightConfig.exactMatch user);
     WeightConfig.prefixMatch :=
       default (WeightConfig.prefixMatch d) (PartialWeightConfig.prefixMatch user);
     WeightConfig.containsMatch :=
       default (WeightConfig.containsMatch d) (PartialWeightConfig.containsMatch user);
     WeightConfig.charSimilarity :=
       default (WeightConfig.charSimilarity d) (PartialWeightConfig.charSimilarity user);
     WeightConfig.lengthSimilarity :=
       default (WeightConfig.lengthSimilarity d) (PartialWeightConfig.lengthSimilarity user);
     WeightConfig.wordBoundary :=
       default (WeightConfig.wordBoundary d) (PartialWeightConfig.wordBoundary user);
     WeightConfig.substringMatch :=
       default (WeightConfig.substringMatch d) (PartialWeightConfig.substringMatch user);
     WeightConfig.commonPrefix :=
       default (WeightConfig.commonPrefix d) (PartialWeightConfig.commonPrefix user) |}.

(** ** Values *)

(** Truthiness, as tested by [!fieldValue]. *)
Definition toBoolean (v : jsvalue) : bool :=
  match v with
  | VUndefined | VNull => false
  | VBoolean b => b
  | VNumber n => negb (n =? 0)
  | VString s => negb (bool_decide (s = []))
  end.

Definition digit (d : N) : N := (48 + d)%N.

Fixpoint digits (u : Decimal.uint) : jsstring :=
  match u with
  | Decimal.Nil => []
  | Decimal.D0 u' => digit 0 :: digits u'
  | Decimal.D1 u' => digit 1 :: digits u'
  | Decimal.D2 u' => digit 2 :: digits u'
  | Decimal.D3 u' => digit 3 :: digits u'
  | Decimal.D4 u' => digit 4 :: digits u'
  | Decimal.D5 u' => digit 5 :: digits u'
  | Decimal.D6 u' => digit 6 :: digits u'
  | Decimal.D7 u' => digit 7 :: digits u'
  | Decimal.D8 u' => digit 8 :: digits u'
  | Decimal.D9 u' => digit 9 :: digits u'
  end.

(** [String(v)]. *)
Definition ToString (v : jsvalue) : jsstring :=
  match v with
  | VUndefined => [117; 110; 100; 101; 102; 105; 110; 101; 100]%N
  | VNull => [110; 117; 108; 108]%N
  | VBoolean true => [116; 114; 117; 101]%N
  | VBoolean false => [102; 97; 108; 115; 101]%N
  | VNumber n =>
      match Z.to_int n with
      | Decimal.Pos u => digits u
      | Decimal.Neg u => 45%N :: digits u
      end
  | VString s => s
  end.

(** [item[field]]. *)
Definition getField (item : Item) (field : string) : jsvalue :=
  default VUndefined (item !! field).

(** ** Pieces shared by the two entry points *)

(** The result given to a candidate that is not scored. *)
Definition unscored (item : Item) (wordMatches : option nat) : SearchResult.t :=
  {| SearchResult.item := item;
     SearchResult.score := 0;
     SearchResult.details :=
       {| MatchDetails.exactMatch := false;
          MatchDetails.prefixMatch := false;
          MatchDetails.containsMatch := false;
          MatchDetails.charSimilarity := 0;
          MatchDetails.lengthSimilarity := 0;
          MatchDetails.editSimilarity := 0;
          MatchDetails.wordMatches := wordMatches |} |}.

(** [a.startsWith(b) || b.startsWith(a)] *)
Definition isPrefixMatch (a b : jsstring) : bool :=
  startsWith a b || startsWith b a.

(** [a.includes(b) || b.includes(a)] *)
Definition isContainsMatch (a b : jsstring) : bool :=
  includes a b || includes b a.

(** [searchWords.filter((searchWord) => fieldWords.some(...)).length] *)
Definition searchWordMatches (searchWords fieldWords : list jsstring) : nat :=
  length (List.filter
            (λ searchWord,
               existsb (λ fieldWord,
                          includes fieldWord searchWord
                          || includes searchWord fieldWord)
                       fieldWords)
            searchWords).

(** [filteredItems.sort((a, b) => b.score - a.score)]: the sort is stable,
    so a result goes after the earlier results of the same score. *)
Fixpoint insertByScore (r : SearchResult.t) (sorted : list SearchResult.t)
  : list SearchResult.t :=
  match sorted with
  | [] => [r]
  | r' :: sorted' =>
      if Qlt_le_dec (SearchResult.score r') (SearchResult.score r)
      then r :: sorted
      else r' :: insertByScore r sorted'
  end.

Definition sortByScore (results : list SearchResult.t) : list SearchResult.t :=
  foldl (λ sorted r, insertByScore r sorted) [] results.

(** [scoredItems.filter((item) => item.score >= minScore)] *)
Definition filterByScore (minScore : Q) (results : list SearchResult.t)
  : list SearchResult.t :=
  List.filter (λ r, Qle_bool minScore (SearchResult.score r)) results.

(** ** The entry points *)

Section EntryPoints.

(** [String.prototype.toLowerCase]. *)
Variable toLowerCase : jsstring → jsstring.

(** [caseSensitive ? str : str.toLowerCase()] *)
Definition normalize (caseSensitive : bool) (str : jsstring) : jsstring :=
  if caseSensitive then str else toLowerCase str.

(** [!list || !Array.isArray(list) || !field || !searchTerm]; the argument
    [list] is [lst], [None] when it is not an array, and a field that is
    not given is [None]. *)
Definition guardsFail (lst : option (list Item)) (field : option string)
    (searchTerm : jsstring) : bool :=
  match lst, field with
  | Some _, Some f => bool_decide (f = EmptyString) || bool_decide (searchTerm = [])
  | _, _ => true
  end.

(** The destructuring of [options] with its defaults. *)
Definition minScoreOf (options : SearchOptions.t) : Q :=
  default (3 # 10)%Q (SearchOptions.minScore options).

Definition caseSensitiveOf (options : SearchOptions.t) : bool :=
  default false (SearchOptions.caseSensitive options).

Definition weightConfigOf (options : SearchOptions.t) : WeightConfig.t :=
  mergeWeightConfig
    (default PartialWeightConfig.empty (SearchOptions.weightConfig options)).

Definition enableCacheOf (options : SearchOptions.t) : bool :=
  default true (SearchOptions.enableCache options).

Definition maxEditDistanceOf (options : SearchOptions.t) : Z :=
  default 10 (SearchOptions.maxEditDistance options).

(** *** [smartFuzzySearch] *)

(** [`char_${normalizedFieldValue}_${normalizedSearchTerm}`] *)
Definition cacheKey (normalizedFieldValue normalizedSearchTerm : jsstring)
  : jsstring :=
  [99; 104; 97; 114; 95]%N ++ normalizedFieldValue ++ [95]%N
    ++ normalizedSearchTerm.

(** Step 5: the character similarity, read from the cache or computed and
    stored. *)
Definition cachedCharSimilarity (enableCache : bool) (cache : gmap jsstring Q)
    (normalizedFieldValue normalizedSearchTerm : jsstring)
  : Q * gmap jsstring Q :=
  let key := cacheKey normalizedFieldValue normalizedSearchTerm in
  if enableCache && bool_decide (is_Some (cache !! key))
  then (default 0%Q (cache !! key), cache)
  else
    let charSimilarity :=
      calculateCharSimilarityOptimized normalizedFieldValue normalizedSearchTerm in
    (charSimilarity, if enableCache then <[key := charSimilarity]> cache else cache).

(** Steps 2 to 8 of the per-item function, in the order of the source, for
    a given value of [charSimilarity] (step 5, which does not read
    [maxScore], is [cachedCharSimilarity]). *)
Definition heuristicScore (weightConfig : WeightConfig.t)
    (normalizedFieldValue normalizedSearchTerm : jsstring)
    (searchWords fieldWords : list jsstring)
    (charSimilarity lengthSimilarity : Q) : Q :=
  let maxScore := 0%Q in
  let maxScore :=
    if isPrefixMatch normalizedFieldValue normalizedSearchTerm
    then Qmax maxScore (WeightConfig.prefixMatch weightConfig) else maxScore in
  let maxScore :=
    if isContainsMatch normalizedFieldValue normalizedSearchTerm
    then Qmax maxScore (WeightConfig.containsMatch weightConfig) else maxScore in
  let substringScore :=
    calculateSubstringMatch normalizedFieldValue normalizedSearchTerm in
  let maxScore :=
    if Qlt_le_dec 0 substringScore
    then Qmax maxScore (substringScore * WeightConfig.substringMatch weightConfig)
    else maxScore in
  let commonPrefixScore :=
    calculateCommonPrefix normalizedFieldValue normalizedSearchTerm in
  let maxScore :=
    if Qlt_le_dec 0 commonPrefixScore
    then Qmax maxScore (commonPrefixScore * WeightConfig.commonPrefix weightConfig)
    else maxScore in
  let maxScore :=
    if decide (0 < length searchWords)%nat then
      let matches := searchWordMatches searchWords fieldWords in
      if decide (0 < matches)%nat then
        let wordMatchScore :=
          (Qnat matches / Qnat (length searchWords)
           * WeightConfig.wordBoundary weightConfig)%Q in
        Qmax maxScore wordMatchScore
      else maxScore
    else maxScore in
  let charScore := (charSimilarity * WeightConfig.charSimilarity weightConfig)%Q in
  let maxScore := Qmax maxScore charScore in
  let continuousMatchScore :=
    calculateContinuousMatch normalizedFieldValue normalizedSearchTerm in
  let maxScore :=
    if Qlt_le_dec 0 continuousMatchScore
    then Qmax maxScore
           (continuousMatchScore * WeightConfig.charSimilarity weightConfig
            * (12 # 10))
    else maxScore in
  let chineseWordMatchScore :=
    calculateChineseWordMatch normalizedFieldValue normalizedSearchTerm in
  let maxScore :=
    if Qlt_le_dec 0 chineseWordMatchScore
    then Qmax maxScore
           (chineseWordMatchScore * WeightConfig.charSimilarity weightConfig
            * (15 # 10))
    else maxScore in
  let lengthScore :=
    (lengthSimilarity * WeightConfig.lengthSimilarity weightConfig)%Q in
  Qmax maxScore lengthScore.

(** Step 7 (the second one): the edit distance, computed only for a score
    still below [minScore].  Returns [maxScore], [editScore],
    [editDistance] and [maxLength]. *)
Definition editStage (weightConfig : WeightConfig.t) (minScore : Q)
    (maxEditDistance : Z)
    (normalizedFieldValue normalizedSearchTerm : jsstring) (maxScore : Q)
  : option (Q * Q * Z * Z) :=
  if Qlt_le_dec maxScore minScore then
    editDistance ← calculateEditDistanceOptimized
                     normalizedFieldValue normalizedSearchTerm maxEditDistance;
    if decide (editDistance ≤ maxEditDistance) then
      let maxLength :=
        Z.of_nat (length normalizedFieldValue `max` length normalizedSearchTerm) in
      let editSimilarity :=
        if decide (maxLength > 0)
        then (inject_Z (maxLength - editDistance) / inject_Z maxLength)%Q
        else 0%Q in
      let editScore :=
        (editSimilarity * WeightConfig.charSimilarity weightConfig * (5 # 10))%Q in
      Some (Qmax maxScore editScore, editScore, editDistance, maxLength)
    else Some (maxScore, 0%Q, editDistance, 0)
  else Some (maxScore, 0%Q, 0, 0).

(** The function mapped over the list: one item, with the cache before and
    after. *)
Definition scoreItem (weightConfig : WeightConfig.t) (minScore : Q)
    (caseSensitive enableCache : bool) (maxEditDistance : Z)
    (field : string) (normalizedSearchTerm : jsstring)
    (searchWords : list jsstring)
    (cache : gmap jsstring Q) (item : Item)
  : option (SearchResult.t * gmap jsstring Q) :=
  let fieldValue := getField item field in
  if negb (toBoolean fieldValue) then Some (unscored item None, cache)
  else
    let fieldValueStr := ToString fieldValue in
    let normalizedFieldValue := normalize caseSensitive fieldValueStr in
    let lengthDiff :=
      Z.abs (Z.of_nat (length normalizedFieldValue)
             - Z.of_nat (length normalizedSearchTerm)) in
    if decide (lengthDiff > maxEditDistance * 2)
    then Some (unscored item None, cache)
    else
      let fieldWords := splitWords normalizedFieldValue in
      if bool_decide (normalizedFieldValue = normalizedSearchTerm) then
        Some ({| SearchResult.item := item;
                 SearchResult.score := WeightConfig.exactMatch weightConfig;
                 SearchResult.details :=
                   {| MatchDetails.exactMatch := true;
                      MatchDetails.prefixMatch := true;
                      MatchDetails.containsMatch := true;
                      MatchDetails.charSimilarity := 1;
                      MatchDetails.lengthSimilarity := 1;
                      MatchDetails.editSimilarity := 1;
                      MatchDetails.wordMatches := None |} |}, cache)
      else
        let '(charSimilarity, cache) :=
          cachedCharSimilarity enableCache cache
            normalizedFieldValue normalizedSearchTerm in
        let lengthSimilarity :=
          calculateLengthSimilarity normalizedFieldValue normalizedSearchTerm in
        let maxScore :=
          heuristicScore weightConfig normalizedFieldValue normalizedSearchTerm
            searchWords fieldWords charSimilarity lengthSimilarity in
        '(maxScore, editScore, editDistance, maxLength) ←
          editStage weightConfig minScore maxEditDistance
            normalizedFieldValue normalizedSearchTerm maxScore;
        Some ({| SearchResult.item := item;
                 SearchResult.score := maxScore;
                 SearchResult.details :=
                   {| MatchDetails.exactMatch :=
                        bool_decide (normalizedFieldValue = normalizedSearchTerm);
                      MatchDetails.prefixMatch :=
                        isPrefixMatch normalizedFieldValue normalizedSearchTerm;
                      MatchDetails.containsMatch :=
                        isContainsMatch normalizedFieldValue normalizedSearchTerm;
                      MatchDetails.charSimilarity := charSimilarity;
                      MatchDetails.lengthSimilarity := lengthSimilarity;
                      MatchDetails.editSimilarity :=
                        if Qlt_le_dec 0 editScore
                        then (inject_Z (maxLength - editDistance)
                              / inject_Z maxLength)%Q
                        else 0%Q;
                      MatchDetails.wordMatches := None |} |}, cache).

(** [list.map(...)], the cache being shared by the calls. *)
Fixpoint scoreItems (weightConfig : WeightConfig.t) (minScore : Q)
    (caseSensitive enableCache : bool) (maxEditDistance : Z)
    (field : string) (normalizedSearchTerm : jsstring)
    (searchWords : list jsstring)
    (cache : gmap jsstring Q) (items : list Item)
  : option (list SearchResult.t) :=
  match items with
  | [] => Some []
  | item :: items' =>
      '(r, cache') ← scoreItem weightConfig minScore caseSensitive enableCache
                       maxEditDistance field normalizedSearchTerm searchWords
                       cache item;
      rs ← scoreItems weightConfig minScore caseSensitive enableCache
             maxEditDistance field normalizedSearchTerm searchWords
             cache' items';
      Some (r :: rs)
  end.

(** The array [scoredItems] of a call; [Some None] when the call returns
    [null] before building it. *)
Definition scoredItems (lst : option (list Item)) (field : option string)
    (searchTerm : jsstring) (options : SearchOptions.t)
  : option (option (list SearchResult.t)) :=
  match lst, field with
  | Some items, Some f =>
      if guardsFail lst field searchTerm then Some None
      else
        let minScore := minScoreOf options in
        let caseSensitive := caseSensitiveOf options in
        let enableCache := enableCacheOf options in
        let maxEditDistance := maxEditDistanceOf options in
        let weightConfig := weightConfigOf options in
        let cache : gmap jsstring Q := ∅ in
        let normalizedSearchTerm := normalize caseSensitive searchTerm in
        let searchWords := splitWords normalizedSearchTerm in
        if decide (length normalizedSearchTerm < 2)%nat then Some None
        else
          Some <$> scoreItems weightConfig minScore caseSensitive enableCache
                     maxEditDistance f normalizedSearchTerm searchWords
                     cache items
  | _, _ => Some None
  end.

(** The result is [Some None] for [null]. *)
Definition smartFuzzySearch (lst : option (list Item)) (field : option string)
    (searchTerm : jsstring) (options : SearchOptions.t)
  : option (option Item) :=
  scored ← scoredItems lst field searchTerm options;
  match scored with
  | None => Some None
  | Some scoredItems =>
      let minScore := minScoreOf options in
      let filteredItems := sortByScore (filterByScore minScore scoredItems) in
      Some (SearchResult.item <$> head filteredItems)
  end.

(** *** [smartFuzzySearchAll] *)

(** The two accumulators of the per-item function after all heuristics:
    [(totalScore, maxScore)]. *)
Definition accumulateAll (weightConfig : WeightConfig.t)
    (normalizedFieldValue normalizedSearchTerm : jsstring)
    (searchWords fieldWords : list jsstring)
    (charSimilarity lengthSimilarity editSimilarity : Q) : Q * Q :=
  let totalScore := 0%Q in
  let maxScore := 0%Q in
  let '(totalScore, maxScore) :=
    if bool_decide (normalizedFieldValue = normalizedSearchTerm)
    then ((totalScore + WeightConfig.exactMatch weightConfig)%Q,
          Qmax maxScore (WeightConfig.exactMatch weightConfig))
    else (totalScore, maxScore) in
  let '(totalScore, maxScore) :=
    if isPrefixMatch normalizedFieldValue normalizedSearchTerm
    then ((totalScore + WeightConfig.prefixMatch weightConfig)%Q,
          Qmax maxScore (WeightConfig.prefixMatch weightConfig))
    else (totalScore, maxScore) in
  let '(totalScore, maxScore) :=
    if isContainsMatch normalizedFieldValue normalizedSearchTerm
    then ((totalScore + WeightConfig.containsMatch weightConfig)%Q,
          Qmax maxScore (WeightConfig.containsMatch weightConfig))
    else (totalScore, maxScore) in
  let matches := searchWordMatches searchWords fieldWords in
  let '(totalScore, maxScore) :=
    if decide (0 < matches)%nat then
      let wordMatchScore :=
        (Qnat matches / Qnat (length searchWords)
         * WeightConfig.wordBoundary weightConfig)%Q in
      ((totalScore + wordMatchScore)%Q, Qmax maxScore wordMatchScore)
    else (totalScore, maxScore) in
  let charScore := (charSimilarity * WeightConfig.charSimilarity weightConfig)%Q in
  let '(totalScore, maxScore) :=
    ((totalScore + charScore)%Q, Qmax maxScore charScore) in
  let lengthScore :=
    (lengthSimilarity * WeightConfig.lengthSimilarity weightConfig)%Q in
  let '(totalScore, maxScore) :=
    ((totalScore + lengthScore)%Q, Qmax maxScore lengthScore) in
  let editScore :=
    (editSimilarity * WeightConfig.charSimilarity weightConfig * (5 # 10))%Q in
  ((totalScore + editScore)%Q, Qmax maxScore editScore).

Definition scoreItemAll (weightConfig : WeightConfig.t) (caseSensitive : bool)
    (field : string) (normalizedSearchTerm : jsstring)
    (searchWords : list jsstring) (item : Item) : option SearchResult.t :=
  let fieldValue := getField item field in
  if negb (toBoolean fieldValue) then Some (unscored item (Some 0%nat))
  else
    let fieldValueStr := ToString fieldValue in
    let normalizedFieldValue := normalize caseSensitive fieldValueStr in
    let fieldWords := splitWords normalizedFieldValue in
    let charSimilarity :=
      calculateCharSimilarity normalizedFieldValue normalizedSearchTerm in
    let lengthSimilarity :=
      calculateLengthSimilarity normalizedFieldValue normalizedSearchTerm in
    editDistance ← calculateEditDistance normalizedFieldValue normalizedSearchTerm;
    let maxLength :=
      Z.of_nat (length normalizedFieldValue `max` length normalizedSearchTerm) in
    let editSimilarity :=
      if decide (maxLength > 0)
      then (inject_Z (maxLength - editDistance) / inject_Z maxLength)%Q
      else 0%Q in
    let '(totalScore, maxScore) :=
      accumulateAll weightConfig normalizedFieldValue normalizedSearchTerm
        searchWords fieldWords charSimilarity lengthSimilarity editSimilarity in
    Some {| SearchResult.item := item;
            SearchResult.score := maxScore;
            SearchResult.details :=
              {| MatchDetails.exactMatch :=
                   bool_decide (normalizedFieldValue = normalizedSearchTerm);
                 MatchDetails.prefixMatch :=
                   isPrefixMatch normalizedFieldValue normalizedSearchTerm;
                 MatchDetails.containsMatch :=
                   isContainsMatch normalizedFieldValue normalizedSearchTerm;
                 MatchDetails.charSimilarity := charSimilarity;
                 MatchDetails.lengthSimilarity := lengthSimilarity;
                 MatchDetails.editSimilarity := editSimilarity;
                 MatchDetails.wordMatches :=
                   Some (searchWordMatches searchWords fieldWords) |} |}.

(** The array [scoredItems] of a call of [smartFuzzySearchAll]; [Some None]
    when the call returns [[]] before building it. *)
Definition scoredItemsAll (lst : option (list Item)) (field : option string)
    (searchTerm : jsstring) (options : SearchOptions.t)
  : option (option (list SearchResult.t)) :=
  match lst, field with
  | Some items, Some f =>
      if guardsFail lst field searchTerm then Some None
      else
        let caseSensitive := caseSensitiveOf options in
        let weightConfig := weightConfigOf options in
        let normalizedSearchTerm := normalize caseSensitive searchTerm in
        let searchWords := splitWords normalizedSearchTerm in
        Some <$> mapM (scoreItemAll weightConfig caseSensitive f
                         normalizedSearchTerm searchWords) items
  | _, _ => Some None
  end.

Definition smartFuzzySearchAll (lst : option (list Item)) (field : option string)
    (searchTerm : jsstring) (options : SearchOptions.t)
  : option (list Item) :=
  scored ← scoredItemsAll lst field searchTerm options;
  match scored with
  | None => Some []
  | Some scoredItems =>
      let minScore := minScoreOf options in
      Some (SearchResult.item
              <$> sortByScore (filterByScore minScore scoredItems))
  end.

End EntryPoints.

(** ** Notions used in the statements and invariants *)

(** The table both engines fill, as a function of the two prefix lengths:
    [lev s t i j] is the entry for the first [i] code units of [s] and the
    first [j] code units of [t]. *)
Fixpoint lev (s t : jsstring) (i : nat) : nat → Z :=
  match i with
  | O => λ j, Z.of_nat j
  | S i' =>
      fix row (j : nat) : Z :=
        match j with
        | O => Z.of_nat (S i')
        | S j' =>
            if decide (s !! i' = t !! j') then lev s t i' j'
            else Z.min (lev s t i' j' + 1)
                       (Z.min (row j' + 1) (lev s t i' j + 1))
        end
  end.

Arguments lev : simpl never.

(** The table entry for the two whole strings. *)
Definition distance (s t : jsstring) : Z := lev s t (length s) (length t).

(** A row of the table held in an array: [n] cells, cell [j] holding [f j]. *)
Definition row_is (f : nat → Z) (n : nat) (row : list (option Z)) : Prop :=
  length row = n ∧ ∀ j, (j < n)%nat → array_get row j = Some (f j).

(** Row [k] of the matrix holds the first [n] entries of [f]. *)
Definition mat_row (matrix : list (option (list (option Z)))) (k : nat)
    (f : nat → Z) (n : nat) : Prop :=
  ∃ row, array_get matrix k = Some row ∧ row_is f n row.

(** The rows from [i] to [n2] are still the one-cell rows of the first
    loop of [calculateEditDistance]. *)
Definition rows_below (n2 i : nat) (m : list (option (list (option Z))))
  : Prop :=
  ∀ k, (i ≤ k ≤ n2)%nat → array_get m k = Some [Some (Z.of_nat k)].

(** The rows before [i] are complete. *)
Definition rows_above (str1 str2 : jsstring) (i : nat)
    (m : list (option (list (option Z)))) : Prop :=
  ∀ k, (k < i)%nat → mat_row m k (lev str2 str1 k) (S (length str1)).

(** A value in the closed unit interval. *)
Definition unit_interval (x : Q) : Prop := (0 <= x)%Q ∧ (x <= 1)%Q.

(** The set of one-unit strings over a set of code units. *)
Definition unit_set (X : gset N) : gset jsstring := set_map (λ c : N, [c]) X.

(** Every entry of the cache that a key of this call can reach holds the
    value the scorer computes. *)
Definition cache_ok (normalizedSearchTerm : jsstring) (cache : gmap jsstring Q)
  : Prop :=
  ∀ normalizedFieldValue v,
    cache !! cacheKey normalizedFieldValue normalizedSearchTerm = Some v →
    v = calculateCharSimilarityOptimized normalizedFieldValue normalizedSearchTerm.

(** The result a candidate gets when it is scored with a fresh cache. *)
Definition scoreOf (toLowerCase : jsstring → jsstring)
    (weightConfig : WeightConfig.t) (minScore : Q)
    (caseSensitive enableCache : bool) (maxEditDistance : Z)
    (field : string) (normalizedSearchTerm : jsstring)
    (searchWords : list jsstring) (item : Item) : option SearchResult.t :=
  fst <$> scoreItem toLowerCase weightConfig minScore caseSensitive
            enableCache maxEditDistance field normalizedSearchTerm
            searchWords ∅ item.

(** The per-candidate result of a call of [smartFuzzySearch]. *)
Definition candidateResult (toLowerCase : jsstring → jsstring) (f : string)
    (searchTerm : jsstring) (options : SearchOptions.t) (item : Item)
  : option SearchResult.t :=
  let caseSensitive := caseSensitiveOf options in
  let normalizedSearchTerm := normalize toLowerCase caseSensitive searchTerm in
  scoreOf toLowerCase (weightConfigOf options) (minScoreOf options)
    caseSensitive (enableCacheOf options) (maxEditDistanceOf options)
    f normalizedSearchTerm (splitWords normalizedSearchTerm) item.

(** ** Combining sub-scores *)

(** The largest element of a non-empty list of numbers. *)
Definition Qmaximum (xs : list Q) : Q :=
  match xs with
  | [] => 0%Q
  | x :: xs' => foldl Qmax x xs'
  end.

(** The sum of a list of numbers. *)
Definition Qsum (xs : list Q) : Q := foldl Qplus 0%Q xs.

(** A boolean heuristic as a number: [1] when it holds. *)
Definition indicator (b : bool) : Q := if b then 1%Q else 0%Q.

(** The weighted sub-scores of a candidate of [smartFuzzySearchAll], in the
    order exact, prefix, contains, word boundary, character similarity,
    length similarity, edit similarity. *)
Definition subScoresAll (weightConfig : WeightConfig.t)
    (normalizedFieldValue normalizedSearchTerm : jsstring)
    (searchWords fieldWords : list jsstring)
    (charSimilarity lengthSimilarity editSimilarity : Q) : list Q :=
  let matches := searchWordMatches searchWords fieldWords in
  let wordFraction :=
    if decide (0 < matches)%nat
    then (Qnat matches / Qnat (length searchWords))%Q else 0%Q in
  [ indicator (bool_decide (normalizedFieldValue = normalizedSearchTerm))
      * WeightConfig.exactMatch weightConfig;
    indicator (isPrefixMatch normalizedFieldValue normalizedSearchTerm)
      * WeightConfig.prefixMatch weightConfig;
    indicator (isContainsMatch normalizedFieldValue normalizedSearchTerm)
      * WeightConfig.containsMatch weightConfig;
    wordFraction * WeightConfig.wordBoundary weightConfig;
    charSimilarity * WeightConfig.charSimilarity weightConfig;
    lengthSimilarity * WeightConfig.lengthSimilarity weightConfig;
    editSimilarity * WeightConfig.charSimilarity weightConfig * (5 # 10) ]%Q.

(** ** Case variants *)

(** The scores of the array [scoredItems], in order. *)
Definition scoresOf (scored : option (option (list SearchResult.t)))
  : option (option (list Q)) :=
  (λ result : option (list SearchResult.t),
     (λ rs : list SearchResult.t, SearchResult.score <$> rs) <$> result)
    <$> scored.

(** [b] is [a], or differs from it in the value of [field], the two values
    being strings with the same lowercasing. *)
Definition caseVariant (toLowerCase : jsstring → jsstring) (field : string)
    (a b : Item) : Prop :=
  a = b ∨
  ∃ s1 s2, getField a field = VString s1 ∧ getField b field = VString s2 ∧
           toLowerCase s1 = toLowerCase s2.

(** ** Concrete inputs *)

(** A string of Basic Latin characters as code units. *)
Definition of_ascii (s : string) : jsstring :=
  (λ c, N.of_nat (Ascii.nat_of_ascii c))
    <$> Stdlib.Strings.String.list_ascii_of_string s.

(** [toLowerCase] on strings made of Basic Latin characters, U+0130 (whose
    lowercase form is the two code units U+0069 U+0307) and code units
    without a lowercase mapping; the examples below stay in that range. *)
Definition lowerCodeUnit (c : N) : jsstring :=
  if ((65 <=? c) && (c <=? 90))%N then [(c + 32)%N]
  else if (c =? 0x130)%N then [0x69; 0x307]%N
  else [c].

Definition toLowerCaseLatin (str : jsstring) : jsstring :=
  str ≫= lowerCodeUnit.

(** The item [{ name: str }]. *)
Definition named (str : jsstring) : Item := {[ "name"%string := VString str ]}.

(** A small collection, and the same collection with two field values in
    another case. *)
Definition example_items : list Item :=
  [named (of_ascii "Hello World"); named (of_ascii "help");
   named (of_ascii "HELLO")].

Definition example_variants : list Item :=
  [named (of_ascii "hello world"); named (of_ascii "HELP");
   named (of_ascii "HELLO")].

(** ** Notions used in the further properties *)

(** [edits n s t]: [s] is turned into [t] by a script of [n] insertions,
    deletions and substitutions of one code unit, read from the left. *)
Inductive edits : Z → jsstring → jsstring → Prop :=
  | edits_nil : edits 0 [] []
  | edits_keep a s t n : edits n s t → edits n (a :: s) (a :: t)
  | edits_substitute a b s t n : edits n s t → edits (n + 1) (a :: s) (b :: t)
  | edits_delete a s t n : edits n s t → edits (n + 1) (a :: s) t
  | edits_insert b s t n : edits n s t → edits (n + 1) s (b :: t).

(** [a] is ranked no later than [b]: its score is not the smaller one. *)
Definition byScore (a b : SearchResult.t) : Prop :=
  (SearchResult.score b <= SearchResult.score a)%Q.

(** The results whose score is the number [q]. *)
Definition scoreIs (q : Q) (r : SearchResult.t) : bool :=
  Qeq_bool (SearchResult.score r) q.

(** The three booleans of the details of a result are nested: an exact
    match is a prefix match, and a prefix match is a contains match. *)
Definition detailsNested (details : MatchDetails.t) : Prop :=
  (MatchDetails.exactMatch details = true →
   MatchDetails.prefixMatch details = true) ∧
  (MatchDetails.prefixMatch details = true →
   MatchDetails.containsMatch details = true).

(** Every weight lies between 0 and 1. *)
Definition weightsInUnitInterval (w : WeightConfig.t) : Prop :=
  unit_interval (WeightConfig.exactMatch w) ∧
  unit_interval (WeightConfig.prefixMatch w) ∧
  unit_interval (WeightConfig.containsMatch w) ∧
  unit_interval (WeightConfig.charSimilarity w) ∧
  unit_interval (WeightConfig.lengthSimilarity w) ∧
  unit_interval (WeightConfig.wordBoundary w) ∧
  unit_interval (WeightConfig.substringMatch w) ∧
  unit_interval (WeightConfig.commonPrefix w).


(** * Proofs *)

(** ** Arrays and loops *)

Section Arrays.
Context {A : Type}.
Implicit Types (arr : list (option A)) (v : A) (i j : nat).

Lemma array_set_length arr i v :
  (i < length arr)%nat → length (array_set arr i v) = length arr.
Proof. intros H. unfold array_set. rewrite decide_True by done. apply length_insert. Qed.

Lemma array_get_set_eq arr i v :
  (i < length arr)%nat → array_get (array_set arr i v) i = Some v.
Proof.
  intros H. unfold array_set, array_get. rewrite decide_True by done.
  by rewrite list_lookup_insert_eq.
Qed.

Lemma array_get_set_ne arr i j v :
  (i < length arr)%nat → i ≠ j → array_get (array_set arr i v) j = array_get arr j.
Proof.
  intros H Hne. unfold array_set, array_get. rewrite decide_True by done.
  by rewrite list_lookup_insert_ne.
Qed.

Lemma array_set_push arr v : array_set arr (length arr) v = arr ++ [Some v].
Proof.
  unfold array_set. rewrite decide_False by lia.
  by rewrite Nat.sub_diag.
Qed.

Lemma array_get_app_l arr arr' j :
  (j < length arr)%nat → array_get (arr ++ arr') j = array_get arr j.
Proof. intros H. unfold array_get. by rewrite lookup_app_l. Qed.

Lemma array_get_push arr v : array_get (arr ++ [Some v]) (length arr) = Some v.
Proof. unfold array_get. by rewrite list_lookup_middle. Qed.

End Arrays.

Lemma for_each_seq {S} (P : nat → S → Prop) (body : S → nat → option S) n :
  ∀ a s,
  P a s →
  (∀ j s, (a ≤ j < a + n)%nat → P j s → ∃ s', body s j = Some s' ∧ P (Datatypes.S j) s') →
  ∃ s', for_each body s (seq a n) = Some s' ∧ P (a + n)%nat s'.
Proof.
  induction n as [|n IH]; intros a s HP Hstep; simpl.
  - exists s. by rewrite Nat.add_0_r.
  - destruct (Hstep a s) as (s' & -> & HP'); [lia | done |]. simpl.
    destruct (IH (Datatypes.S a) s') as (s'' & -> & HP''); [done | |].
    + intros j s0 Hj. apply Hstep. lia.
    + exists s''. split; [done |]. by rewrite <- Nat.add_succ_comm.
Qed.

Lemma foldl_seq {S} (P : nat → S → Prop) (body : S → nat → S) n :
  ∀ a s,
  P a s →
  (∀ j s, (a ≤ j < a + n)%nat → P j s → P (Datatypes.S j) (body s j)) →
  P (a + n)%nat (foldl body s (seq a n)).
Proof.
  induction n as [|n IH]; intros a s HP Hstep; simpl.
  - by rewrite Nat.add_0_r.
  - rewrite <- Nat.add_succ_comm. apply IH.
    + apply Hstep; [lia | done].
    + intros j s0 Hj. apply Hstep. lia.
Qed.

(** ** The edit-distance table *)

Section Lev.
Variables s t : jsstring.

Lemma lev_0_l j : lev s t 0 j = Z.of_nat j.
Proof. reflexivity. Qed.

Lemma lev_0_r i : lev s t i 0 = Z.of_nat i.
Proof. by destruct i. Qed.

Lemma lev_S_S i j :
  lev s t (S i) (S j) =
  if decide (s !! i = t !! j) then lev s t i j
  else Z.min (lev s t i j + 1)
             (Z.min (lev s t (S i) j + 1) (lev s t i (S j) + 1)).
Proof. reflexivity. Qed.

Lemma lev_lower i : ∀ j, Z.abs (Z.of_nat i - Z.of_nat j) ≤ lev s t i j.
Proof.
  induction i as [|i IHi]; intros j.
  - change (lev s t 0 j) with (Z.of_nat j). lia.
  - induction j as [|j IHj].
    + rewrite lev_0_r. lia.
    + rewrite lev_S_S. pose proof (IHi j). pose proof (IHi (S j)).
      case_decide; lia.
Qed.

Lemma lev_upper i : ∀ j, lev s t i j ≤ Z.of_nat (i `max` j).
Proof.
  induction i as [|i IHi]; intros j.
  - change (lev s t 0 j) with (Z.of_nat j). lia.
  - induction j as [|j IHj].
    + rewrite lev_0_r. lia.
    + rewrite lev_S_S. pose proof (IHi j). pose proof (IHi (S j)).
      case_decide; lia.
Qed.

(** Once a whole row lies above a bound, so does the next one. *)
Lemma lev_row_step (M : Z) (n i : nat) :
  (∀ j, (j ≤ n)%nat → M < lev s t i j) →
  ∀ j, (j ≤ n)%nat → M < lev s t (S i) j.
Proof.
  intros Hrow. induction j as [|j IHj]; intros Hj.
  - rewrite lev_0_r. specialize (Hrow 0%nat). rewrite lev_0_r in Hrow. lia.
  - rewrite lev_S_S.
    pose proof (Hrow j). pose proof (Hrow (S j)). specialize (IHj ltac:(lia)).
    case_decide; lia.
Qed.

Lemma lev_row_above (M : Z) (n i : nat) :
  (∀ j, (j ≤ n)%nat → M < lev s t i j) →
  ∀ k j, (j ≤ n)%nat → M < lev s t (k + i) j.
Proof.
  intros Hrow. induction k as [|k IHk]; [done |].
  simpl. by apply lev_row_step.
Qed.

End Lev.

Lemma lev_sym s t i : ∀ j, lev s t i j = lev t s j i.
Proof.
  induction i as [|i IHi]; intros j.
  - change (lev s t 0 j) with (Z.of_nat j). by rewrite lev_0_r.
  - induction j as [|j IHj].
    + change (lev t s 0 (S i)) with (Z.of_nat (S i)). by rewrite lev_0_r.
    + rewrite !lev_S_S, IHj, (IHi j), (IHi (S j)).
      destruct (decide (s !! i = t !! j)), (decide (t !! j = s !! i));
        try congruence; lia.
Qed.

Lemma math_min_some (arr : list (option Z)) :
  arr ≠ [] → (∀ j, (j < length arr)%nat → is_Some (array_get arr j)) →
  ∃ m, math_min arr = Some m.
Proof.
  induction arr as [|c rest IH]; [done |]. intros _ Hall.
  destruct (Hall 0%nat) as [x Hx]; [simpl; lia |]. unfold array_get in Hx. simpl in Hx. subst c.
  destruct rest as [|c' rest']; [by exists x |].
  destruct IH as [m Hm]; [done | |].
  - intros j Hj. apply (Hall (S j)). simpl in *. lia.
  - exists (Z.min x m). change (math_min (Some x :: c' :: rest')) with
      (x0 ← Some x; m0 ← math_min (c' :: rest'); Some (Z.min x0 m0)).
    by rewrite Hm.
Qed.

Lemma math_min_le (arr : list (option Z)) m :
  math_min arr = Some m →
  ∀ j v, array_get arr j = Some v → m ≤ v.
Proof.
  revert m. induction arr as [|c rest IH]; intros m Hm j v Hj; [done |].
  destruct rest as [|c' rest'].
  - simpl in Hm. subst c. destruct j as [|j]; unfold array_get in Hj; simpl in Hj.
    + injection Hj as ->. lia.
    + done.
  - change (math_min (c :: c' :: rest')) with
      (x0 ← c; m0 ← math_min (c' :: rest'); Some (Z.min x0 m0)) in Hm.
    destruct c as [x|], (math_min (c' :: rest')) as [m0|] eqn:Hm0;
      try discriminate Hm.
    injection Hm as <-. destruct j as [|j].
    + unfold array_get in Hj. simpl in Hj. injection Hj as ->. lia.
    + specialize (IH m0 eq_refl j v Hj). lia.
Qed.

(** ** The bounded engine fills the table *)

Lemma init_prev_spec s t : row_is (lev s t 0) (S (length t)) (init_prev (length t)).
Proof.
  unfold init_prev.
  pose (P := λ (k : nat) (arr : list (option Z)),
    length arr = S (length t) ∧ ∀ j, (j < k)%nat → array_get arr j = Some (Z.of_nat j)).
  assert (P (0 + S (length t))%nat
            (foldl (λ prev j, array_set prev j (Z.of_nat j))
               (new_Array (S (length t))) (seq 0 (S (length t))))) as [Hlen Hget].
  { apply (foldl_seq P).
    - split; [apply length_replicate | lia].
    - intros j arr Hj [Hlen Hget]. split.
      + rewrite array_set_length; lia.
      + intros j' Hj'. destruct (decide (j' = j)) as [->|Hne].
        * apply array_get_set_eq. lia.
        * rewrite array_get_set_ne by lia. apply Hget. lia. }
  split; [done |]. intros j Hj. by apply Hget.
Qed.

Section Row.
Variables (s t : jsstring) (i : nat) (prev : list (option Z)).
Hypothesis Hprev : row_is (lev s t i) (S (length t)) prev.

Lemma fill_cell_spec curr j :
  (1 ≤ j ≤ length t)%nat →
  length curr = S (length t) →
  (∀ j', (j' < j)%nat → array_get curr j' = Some (lev s t (S i) j')) →
  ∃ curr', fill_cell s t (S i) prev curr j = Some curr' ∧
    length curr' = S (length t) ∧
    ∀ j', (j' < S j)%nat → array_get curr' j' = Some (lev s t (S i) j').
Proof.
  intros Hj Hlen Hcurr. destruct Hprev as [Hplen Hpget].
  destruct j as [|j]; [lia |].
  unfold fill_cell, charAt. replace (S i - 1)%nat with i by lia.
  replace (S j - 1)%nat with j by lia.
  rewrite (Hpget j), (Hpget (S j)), (Hcurr j) by lia.
  assert (∀ v, v = lev s t (S i) (S j) →
    length (array_set curr (S j) v) = S (length t) ∧
    ∀ j', (j' < S (S j))%nat →
      array_get (array_set curr (S j) v) j' = Some (lev s t (S i) j')) as Hset.
  { intros v ->. split; [rewrite array_set_length; lia |].
    intros j' Hj'. destruct (decide (j' = S j)) as [->|Hne].
    - apply array_get_set_eq. lia.
    - rewrite array_get_set_ne by lia. apply Hcurr. lia. }
  rewrite lev_S_S in Hset.
  case_decide; simpl; eexists; (split; [reflexivity |]); by apply Hset.
Qed.

Lemma fill_row_spec curr :
  length curr = S (length t) →
  ∃ curr' m, fill_row s t (S i) prev curr = Some (curr', m) ∧
    row_is (lev s t (S i)) (S (length t)) curr' ∧
    ∀ j, (j ≤ length t)%nat → m ≤ lev s t (S i) j.
Proof.
  intros Hlen. unfold fill_row.
  pose (P := λ (j : nat) (c : list (option Z)),
    length c = S (length t) ∧
    ∀ j', (j' < j)%nat → array_get c j' = Some (lev s t (S i) j')).
  destruct (for_each_seq P (fill_cell s t (S i) prev) (length t) 1
              (array_set curr 0 (Z.of_nat (S i)))) as (curr' & -> & Hc' & Hget).
  - split.
    + rewrite array_set_length; lia.
    + intros j' Hj'. replace j' with 0%nat by lia.
      rewrite array_get_set_eq by lia. by rewrite lev_0_r.
  - intros j c Hj [Hc Hcget].
    destruct (fill_cell_spec c j) as (c' & -> & ? & ?); [lia | done | done |].
    by exists c'.
  - simpl. assert (row_is (lev s t (S i)) (S (length t)) curr') as Hrow.
    { split; [done |]. intros j Hj. apply Hget. lia. }
    destruct (math_min_some curr') as [m Hm].
    + intros ->. simpl in Hc'. lia.
    + intros j Hj. rewrite Hget by lia. eauto.
    + rewrite Hm. simpl. exists curr', m. split; [done |]. split; [done |].
      intros j Hj. apply (math_min_le curr' m Hm j). apply Hget. lia.
Qed.

End Row.

Lemma rows_spec s t M k : ∀ i prev curr,
  row_is (lev s t i) (S (length t)) prev →
  length curr = S (length t) →
  ∃ r, rows s t M prev curr (seq (S i) k) = Some r ∧
    (r = lev s t (k + i) (length t) ∨
     (r = M + 1 ∧ M < lev s t (k + i) (length t))).
Proof.
  induction k as [|k IH]; intros i prev curr Hprev Hcurr; simpl.
  - destruct Hprev as [_ Hget]. rewrite Hget by lia. eauto.
  - destruct (fill_row_spec s t i prev Hprev curr Hcurr)
      as (curr' & m & -> & Hrow & Hmin). simpl.
    case_decide as Hexit.
    + exists (M + 1). split; [done |]. right. split; [done |].
      replace (S (k + i)) with (k + S i)%nat by lia.
      apply (lev_row_above s t M (length t) (S i)); [|lia].
      intros j Hj. specialize (Hmin j Hj). lia.
    + destruct (IH (S i) curr' prev Hrow) as (r & -> & Hr); [apply Hprev |].
      exists r. split; [done |].
      by replace (S (k + i)) with (k + S i)%nat by lia.
Qed.

Lemma optimized_spec s t M :
  ∃ r, calculateEditDistanceOptimized s t M = Some r ∧
    (r = distance s t ∨ (r = M + 1 ∧ M < distance s t)).
Proof.
  unfold calculateEditDistanceOptimized, distance. case_decide as Hlen.
  - exists (M + 1). split; [done |]. right. split; [done |].
    pose proof (lev_lower s t (length s) (length t)). lia.
  - destruct (rows_spec s t M (length s) 0 (init_prev (length t))
                (new_Array (S (length t)))) as (r & Hr & Hcases).
    + apply init_prev_spec.
    + apply length_replicate.
    + exists r. by rewrite Nat.add_0_r in Hcases.
Qed.

(** ** The unbounded engine fills the transposed table *)

Lemma row_is_set f n row j :
  row_is f n row → (j ≤ n)%nat →
  row_is f (n `max` S j) (array_set row j (f j)).
Proof.
  intros [Hlen Hget] Hj. destruct (decide (j = n)) as [->|Hne].
  - subst n. rewrite array_set_push. split.
    + rewrite length_app. simpl. lia.
    + intros j' Hj'. destruct (decide (j' = length row)) as [->|Hne].
      * apply array_get_push.
      * rewrite array_get_app_l by lia. apply Hget. lia.
  - split.
    + rewrite array_set_length; lia.
    + intros j' Hj'. destruct (decide (j' = j)) as [->|Hne'].
      * apply array_get_set_eq. lia.
      * rewrite array_get_set_ne by lia. apply Hget. lia.
Qed.

Lemma row_is_singleton f : row_is f 1 [Some (f 0%nat)].
Proof. split; [done |]. intros j Hj. by replace j with 0%nat by lia. Qed.

Lemma mat_row_get matrix k f n j :
  mat_row matrix k f n → (j < n)%nat → matrix_get matrix k j = Some (f j).
Proof.
  intros (row & Hrow & _ & Hget) Hj. unfold matrix_get. rewrite Hrow. simpl.
  by apply Hget.
Qed.

Section Matrix.
Variables str1 str2 : jsstring.
Local Abbreviation E := (lev str2 str1).
Local Abbreviation n1 := (length str1).
Local Abbreviation n2 := (length str2).

Lemma matrix0_spec :
  let matrix0 := foldl (λ m i, array_set m i [Some (Z.of_nat i)]) []
                       (seq 0 (S n2)) in
  length matrix0 = S n2 ∧ rows_below n2 0 matrix0.
Proof.
  pose (P := λ (k : nat) (m : list (option (list (option Z)))),
    length m = k ∧ ∀ i, (i < k)%nat → array_get m i = Some [Some (Z.of_nat i)]).
  assert (P (0 + S n2)%nat
    (foldl (λ m i, array_set m i [Some (Z.of_nat i)]) [] (seq 0 (S n2))))
    as [Hlen Hget].
  { apply (foldl_seq P).
    - split; [done | lia].
    - intros j m Hj [Hlen Hget]. subst j. rewrite array_set_push. split.
      + rewrite length_app. simpl. lia.
      + intros i Hi. destruct (decide (i = length m)) as [->|Hne].
        * apply array_get_push.
        * rewrite array_get_app_l by lia. apply Hget. lia. }
  split; [done |]. intros k Hk. apply Hget. lia.
Qed.

Lemma matrix_set_spec m i j f n :
  (i < length m)%nat → mat_row m i f n → (j ≤ n)%nat →
  ∃ m', matrix_set m i j (f j) = Some m' ∧ length m' = length m ∧
    mat_row m' i f (n `max` S j) ∧
    ∀ k, k ≠ i → array_get m' k = array_get m k.
Proof.
  intros Hi (row & Hrow & His) Hj. unfold matrix_set. rewrite Hrow. simpl.
  eexists. split; [done |]. split; [by apply array_set_length |]. split.
  - eexists. split; [by apply array_get_set_eq |]. by apply row_is_set.
  - intros k Hk. by apply array_get_set_ne.
Qed.

Lemma matrix1_spec m0 :
  length m0 = S n2 → rows_below n2 0 m0 →
  ∃ m1, for_each (λ m j, matrix_set m 0 j (Z.of_nat j)) m0 (seq 0 (S n1))
          = Some m1 ∧
    length m1 = S n2 ∧ rows_above str1 str2 1 m1 ∧ rows_below n2 1 m1.
Proof.
  intros Hlen Hbelow.
  pose (P := λ (j : nat) (m : list (option (list (option Z)))),
    length m = S n2 ∧ mat_row m 0 (E 0) (j `max` 1) ∧ rows_below n2 1 m).
  destruct (for_each_seq P (λ m j, matrix_set m 0 j (Z.of_nat j)) (S n1) 0 m0)
    as (m1 & Hm1 & Hl1 & Hrow & Hb1).
  - split; [done |]. split.
    + exists [Some 0]. split; [apply (Hbelow 0%nat); lia |].
      apply (row_is_singleton (E 0)).
    + intros k Hk. apply Hbelow. lia.
  - intros j m Hj (Hl & Hrow & Hb).
    destruct (matrix_set_spec m 0 j (E 0) (j `max` 1)) as (m' & Hm' & Hl' & Hrow' & Hoth);
      [lia | done | lia |].
    exists m'. split; [exact Hm' |]. split; [lia |]. split.
    + by replace (S j `max` 1)%nat with ((j `max` 1) `max` S j)%nat by lia.
    + intros k Hk. rewrite Hoth by lia. by apply Hb.
  - exists m1. split; [done |]. split; [done |]. split; [|done].
    intros k Hk. replace k with 0%nat by lia.
    by replace (S n1) with ((0 + S n1) `max` 1)%nat by lia.
Qed.

Lemma matrix_cell_spec m i j :
  (1 ≤ S i ≤ n2)%nat → (1 ≤ j ≤ n1)%nat →
  length m = S n2 → rows_above str1 str2 (S i) m → mat_row m (S i) (E (S i)) j →
  ∃ m', matrix_cell str1 str2 (S i) m j = Some m' ∧
    length m' = S n2 ∧ mat_row m' (S i) (E (S i)) (S j) ∧
    ∀ k, k ≠ S i → array_get m' k = array_get m k.
Proof.
  intros Hi Hj Hlen Habove Hrow. destruct j as [|j]; [lia |].
  unfold matrix_cell, charAt.
  replace (S i - 1)%nat with i by lia. replace (S j - 1)%nat with j by lia.
  rewrite (mat_row_get m i (E i) (S n1) j) by (try apply Habove; lia).
  rewrite (mat_row_get m i (E i) (S n1) (S j)) by (try apply Habove; lia).
  rewrite (mat_row_get m (S i) (E (S i)) (S j) j) by (done || lia).
  destruct (matrix_set_spec m (S i) (S j) (E (S i)) (S j))
    as (m' & Hm' & Hl' & Hrow' & Hoth); [lia | done | lia |].
  replace (S j `max` S (S j))%nat with (S (S j)) in Hrow' by lia.
  exists m'. split; [|split; [lia | done]].
  rewrite <- Hm'. rewrite lev_S_S. by case_decide.
Qed.

Lemma matrix_row_spec m i :
  (1 ≤ S i ≤ n2)%nat →
  length m = S n2 → rows_above str1 str2 (S i) m → rows_below n2 (S i) m →
  ∃ m', matrix_row str1 str2 m (S i) = Some m' ∧
    length m' = S n2 ∧ rows_above str1 str2 (S (S i)) m' ∧ rows_below n2 (S (S i)) m'.
Proof.
  intros Hi Hlen Habove Hbelow. unfold matrix_row.
  pose (P := λ (j : nat) (m : list (option (list (option Z)))),
    length m = S n2 ∧ rows_above str1 str2 (S i) m ∧ mat_row m (S i) (E (S i)) j ∧
    rows_below n2 (S (S i)) m).
  destruct (for_each_seq P (matrix_cell str1 str2 (S i)) n1 1 m)
    as (m' & Hm' & Hl' & Ha' & Hrow' & Hb').
  - split; [done |]. split; [done |]. split.
    + exists [Some (Z.of_nat (S i))]. split; [apply Hbelow; lia |].
      pose proof (row_is_singleton (E (S i))) as Hs.
      by rewrite lev_0_r in Hs.
    + intros k Hk. apply Hbelow. lia.
  - intros j m0 Hj (Hl0 & Ha0 & Hr0 & Hb0).
    destruct (matrix_cell_spec m0 i j) as (m1 & Hm1 & Hl1 & Hr1 & Hoth);
      [lia | lia | done | done | done |].
    exists m1. split; [done |]. split; [done |]. split; [|split; [done |]].
    + intros k Hk. destruct (Ha0 k Hk) as (row & Hrow & His).
      exists row. split; [|done]. rewrite Hoth by lia. done.
    + intros k Hk. rewrite Hoth by lia. by apply Hb0.
  - exists m'. split; [done |]. split; [done |]. split; [|done].
    intros k Hk. destruct (decide (k = S i)) as [->|Hne].
    + done.
    + apply Ha'. lia.
Qed.

Lemma matrix2_spec m1 :
  length m1 = S n2 → rows_above str1 str2 1 m1 → rows_below n2 1 m1 →
  ∃ m2, for_each (matrix_row str1 str2) m1 (seq 1 n2) = Some m2 ∧
    rows_above str1 str2 (S n2) m2.
Proof.
  intros Hlen Ha Hb.
  pose (P := λ (i : nat) (m : list (option (list (option Z)))),
    length m = S n2 ∧ rows_above str1 str2 i m ∧ rows_below n2 i m).
  destruct (for_each_seq P (matrix_row str1 str2) n2 1 m1)
    as (m2 & Hm2 & _ & Ha2 & _); [done | | by exists m2].
  intros i m Hi (Hl & Ha' & Hb'). destruct i as [|i]; [lia |].
  destruct (matrix_row_spec m i) as (m' & ? & ? & ? & ?); [lia | done..|].
  by exists m'.
Qed.

Lemma unbounded_spec :
  calculateEditDistance str1 str2 = Some (distance str1 str2).
Proof.
  unfold calculateEditDistance. cbv zeta.
  destruct matrix0_spec as [Hl0 Hb0].
  destruct (matrix1_spec _ Hl0 Hb0) as (m1 & Hm1 & Hl1 & Ha1 & Hb1).
  destruct (matrix2_spec m1 Hl1 Ha1 Hb1) as (m2 & Hm2 & Ha2).
  pose proof (mat_row_get m2 n2 (E n2) (S n1) n1) as Hget.
  rewrite Hm1. simpl. rewrite Hm2. simpl.
  rewrite Hget by (try apply Ha2; lia).
  unfold distance. by rewrite lev_sym.
Qed.

End Matrix.

(** ** The scorers stay in the unit interval *)

Lemma unit_interval_0 : unit_interval 0.
Proof. split; lra. Qed.

Lemma unit_interval_1 : unit_interval 1.
Proof. split; lra. Qed.

Lemma unit_interval_Z_ratio (a b : Z) :
  0 ≤ a ≤ b → unit_interval (inject_Z a / inject_Z b).
Proof.
  intros Hab. destruct (decide (b = 0)) as [->|Hb].
  - replace a with 0 by lia. split; vm_compute; discriminate.
  - assert (0 < inject_Z b)%Q as Hpos.
    { change (inject_Z 0 < inject_Z b)%Q. rewrite <- Zlt_Qlt. lia. }
    assert (0 <= inject_Z a)%Q as Ha.
    { change (inject_Z 0 <= inject_Z a)%Q. rewrite <- Zle_Qle. lia. }
    assert (inject_Z a <= inject_Z b)%Q as Hle by (rewrite <- Zle_Qle; lia).
    split.
    + apply Qle_shift_div_l; [done | lra].
    + apply Qle_shift_div_r; [done | lra].
Qed.

Lemma unit_interval_ratio (a b : nat) :
  (a ≤ b)%nat → unit_interval (Qnat a / Qnat b).
Proof. intros Hab. apply unit_interval_Z_ratio. lia. Qed.

Lemma unit_interval_mix (x y p q : Q) :
  unit_interval x → unit_interval y →
  (0 <= p)%Q → (0 <= q)%Q → (p + q == 1)%Q →
  unit_interval (x * p + y * q).
Proof.
  intros [Hx0 Hx1] [Hy0 Hy1] Hp Hq Hpq. split.
  - assert (0 <= x * p)%Q by (apply Qmult_le_0_compat; done).
    assert (0 <= y * q)%Q by (apply Qmult_le_0_compat; done). lra.
  - assert (x * p <= 1 * p)%Q by (apply Qmult_le_compat_r; done).
    assert (y * q <= 1 * q)%Q by (apply Qmult_le_compat_r; done). lra.
Qed.

(** *** Lengths of prefixes and substrings *)

Lemma startsWith_length str : ∀ search,
  startsWith str search = true → (length search ≤ length str)%nat.
Proof.
  induction str as [|d str IH]; intros [|c search] H; simpl in *; try lia.
  apply andb_true_iff in H as [_ H]. apply IH in H. lia.
Qed.

Lemma includes_length str search :
  includes str search = true → (length search ≤ length str)%nat.
Proof.
  induction str as [|d str IH]; intros H.
  - destruct search; [simpl; lia | discriminate H].
  - change (startsWith (d :: str) search || includes str search = true) in H.
    apply orb_true_iff in H as [H|H].
    + by apply startsWith_length in H.
    + apply IH in H. simpl. lia.
Qed.

Lemma run_length_le same ixs : (run_length same ixs ≤ length ixs)%nat.
Proof. induction ixs as [|i ixs IH]; simpl; [lia |]. destruct (same i); simpl; lia. Qed.

Lemma foldl_max_le {A} (f : A → nat) (bound : nat) (l : list A) : ∀ acc,
  (acc ≤ bound)%nat → (∀ x, f x ≤ bound)%nat →
  (foldl (λ m x, m `max` f x)%nat acc l ≤ bound)%nat.
Proof.
  induction l as [|x l IH]; intros acc Hacc Hf; simpl; [done |].
  apply IH; [|done]. specialize (Hf x). lia.
Qed.

Lemma foldl_step_le {A} (f : nat → A → nat) (l : list A) :
  (∀ n x, f n x ≤ S n)%nat →
  ∀ acc, (foldl f acc l ≤ acc + length l)%nat.
Proof.
  intros Hf. induction l as [|x l IH]; intros acc; simpl; [lia |].
  specialize (IH (f acc x)). specialize (Hf acc x). lia.
Qed.

(** *** The scorers *)

Lemma calculateSubstringMatch_bounds target search :
  unit_interval (calculateSubstringMatch target search).
Proof.
  unfold calculateSubstringMatch.
  destruct (_ || _); [apply unit_interval_0 |].
  destruct (includes target search) eqn:H1.
  { apply unit_interval_ratio. by apply includes_length. }
  destruct (includes search target) eqn:H2.
  { apply unit_interval_ratio. by apply includes_length. }
  apply unit_interval_0.
Qed.

Lemma calculateCommonPrefix_bounds str1 str2 :
  unit_interval (calculateCommonPrefix str1 str2).
Proof.
  unfold calculateCommonPrefix.
  destruct (_ || _); [apply unit_interval_0 |]. cbv zeta.
  case_decide; [apply unit_interval_0 |].
  apply unit_interval_ratio.
  etrans; [apply run_length_le |]. rewrite length_seq. lia.
Qed.

Lemma calculateContinuousMatch_bounds target search :
  unit_interval (calculateContinuousMatch target search).
Proof.
  unfold calculateContinuousMatch.
  destruct (_ || _); [apply unit_interval_0 |]. cbv zeta.
  match goal with |- context [foldl ?f 0%nat ?l] =>
    assert (foldl f 0%nat l ≤ length search)%nat as Hmax; [|set (m := foldl f 0%nat l) in *]
  end.
  { apply (foldl_max_le
      (λ i, run_length (λ j, bool_decide (target !! (i + j)%nat = search !! j))
                       (seq 0 (length search)))); [lia |].
    intros i. etrans; [apply run_length_le |]. by rewrite length_seq. }
  case_decide; [apply unit_interval_0 |].
  apply unit_interval_mix; try (vm_compute; done || discriminate).
  - by apply unit_interval_ratio.
  - apply unit_interval_ratio. lia.
Qed.

Lemma calculateChineseWordMatch_bounds target search :
  unit_interval (calculateChineseWordMatch target search).
Proof.
  unfold calculateChineseWordMatch.
  destruct (_ || _); [apply unit_interval_0 |]. cbv zeta.
  case_decide; [apply unit_interval_0 |].
  apply unit_interval_mix; try (vm_compute; done || discriminate).
  - apply unit_interval_ratio.
    etrans; [apply foldl_step_le |]; [|simpl; lia].
    intros n x. destruct (array_includes target x); lia.
  - apply unit_interval_ratio.
    etrans; [apply foldl_step_le |]; [|rewrite length_seq; simpl; lia].
    intros n i. simpl. case_decide; [|lia]. destruct (_ || _); lia.
Qed.

Lemma calculateLengthSimilarity_bounds str1 str2 :
  unit_interval (calculateLengthSimilarity str1 str2).
Proof.
  unfold calculateLengthSimilarity.
  destruct (_ || _); [apply unit_interval_0 |]. cbv zeta.
  destruct (_ && _); [apply unit_interval_1 |].
  destruct (_ || _); [apply unit_interval_0 |].
  apply unit_interval_ratio. lia.
Qed.

(** ** Character sets *)

Section Jaccard.
Context {A : Type} {EqA : EqDecision A} {CountA : Countable A}.
Implicit Types X Y : gset A.

Lemma count_members X (l : list A) : ∀ acc : Z,
  foldl (λ n c, if bool_decide (c ∈ X) then n + 1 else n) acc l
  = acc + Z.of_nat (length (base.filter (λ c, c ∈ X) l)).
Proof.
  induction l as [|c l IH]; intros acc; simpl; [lia |].
  rewrite IH. rewrite filter_cons. case_bool_decide.
  - rewrite decide_True by done. simpl. lia.
  - rewrite decide_False by done. lia.
Qed.

Lemma filter_elements_inter X Y :
  list_to_set (base.filter (λ c, c ∈ Y) (elements X)) = X ∩ Y.
Proof.
  apply set_eq. intros c.
  rewrite elem_of_list_to_set, list_elem_of_filter, elem_of_elements.
  rewrite elem_of_intersection. tauto.
Qed.

Lemma length_filter_elements X Y :
  length (base.filter (λ c, c ∈ Y) (elements X)) = size (X ∩ Y).
Proof.
  rewrite <- filter_elements_inter, size_list_to_set; [done |].
  apply NoDup_filter, NoDup_elements.
Qed.

Lemma list_to_set_elements_union X Y :
  list_to_set (elements X ++ elements Y) = X ∪ Y.
Proof.
  apply set_eq. intros c.
  rewrite elem_of_list_to_set, elem_of_app, !elem_of_elements. set_solver.
Qed.

Lemma size_union_inter X Y :
  (size (X ∪ Y) + size (X ∩ Y) = size X + size Y)%nat.
Proof.
  rewrite size_union_alt.
  assert (size Y = size (Y ∖ X) + size (X ∩ Y))%nat as ->; [|lia].
  rewrite <- size_union.
  - f_equal. apply set_eq. intros c.
    rewrite elem_of_union, elem_of_difference, elem_of_intersection.
    destruct (decide (c ∈ X)); tauto.
  - apply elem_of_disjoint. intros c.
    rewrite elem_of_difference, elem_of_intersection. tauto.
Qed.

Lemma size_inter_le_union X Y : (size (X ∩ Y) ≤ size (X ∪ Y))%nat.
Proof.
  apply subseteq_size.
  etrans; [apply intersection_subseteq_l | apply union_subseteq_l].
Qed.

End Jaccard.

Lemma calculateCharSimilarity_bounds str1 str2 :
  unit_interval (calculateCharSimilarity str1 str2).
Proof.
  unfold calculateCharSimilarity.
  destruct (_ || _); [apply unit_interval_0 |]. cbv zeta.
  case_decide; [|apply unit_interval_0].
  apply unit_interval_ratio.
  rewrite filter_elements_inter, list_to_set_elements_union.
  apply size_inter_le_union.
Qed.

Lemma calculateCharSimilarityOptimized_bounds str1 str2 :
  unit_interval (calculateCharSimilarityOptimized str1 str2).
Proof.
  unfold calculateCharSimilarityOptimized.
  destruct (_ || _); [apply unit_interval_0 |].
  case_bool_decide; [apply unit_interval_1 |]. cbv zeta.
  rewrite count_members, length_filter_elements.
  case_decide; [|apply unit_interval_0].
  apply unit_interval_Z_ratio.
  match goal with |- context [size (?X ∩ ?Y)] =>
    pose proof (size_union_inter X Y); pose proof (size_inter_le_union X Y) end.
  lia.
Qed.

(** ** The two character similarities *)

Lemma codePoints_units str :
  has_surrogate_pair str = false → codePoints str = (λ c, [c]) <$> str.
Proof.
  induction str as [|c rest IH]; [done |].
  destruct rest as [|d rest']; [done |].
  intros Hpair.
  change (has_surrogate_pair (c :: d :: rest'))
    with ((is_high_surrogate c && is_low_surrogate d)
          || has_surrogate_pair (d :: rest')) in Hpair.
  apply orb_false_iff in Hpair as [Hcd Hrest].
  change (codePoints (c :: d :: rest'))
    with (if is_high_surrogate c && is_low_surrogate d
          then [c; d] :: codePoints rest'
          else [c] :: codePoints (d :: rest')).
  rewrite Hcd, (IH Hrest). done.
Qed.

Section Units.
Implicit Types X Y : gset N.

Lemma elem_of_unit_set X (s : jsstring) : s ∈ unit_set X ↔ ∃ c, s = [c] ∧ c ∈ X.
Proof. unfold unit_set. by rewrite elem_of_map. Qed.

Lemma size_unit_set X : size (unit_set X) = size X.
Proof.
  unfold unit_set, set_map. rewrite size_list_to_set.
  - by rewrite length_fmap.
  - apply NoDup_fmap_2; [|apply NoDup_elements]. by intros c d [= ->].
Qed.

Lemma unit_set_inter X Y : unit_set X ∩ unit_set Y = unit_set (X ∩ Y).
Proof.
  apply set_eq. intros s.
  rewrite elem_of_intersection, !elem_of_unit_set. split.
  - intros [(c & -> & Hc) (d & [= <-] & Hd)]. exists c.
    split; [done |]. by apply elem_of_intersection.
  - intros (c & -> & Hc). apply elem_of_intersection in Hc as [Hx Hy].
    split; exists c; done.
Qed.

Lemma list_to_set_units (str : jsstring) :
  (list_to_set ((λ c : N, [c]) <$> str) : gset jsstring)
  = unit_set (list_to_set str).
Proof.
  unfold unit_set.
  apply (list_to_set_fmap_L (C := gset N) (D := gset jsstring)).
Qed.

End Units.

(** X10.  On strings without surrogate pairs the two implementations of the
    character similarity agree. *)
Lemma charSimilarity_agree_without_surrogate_pairs str1 str2 :
  has_surrogate_pair str1 = false → has_surrogate_pair str2 = false →
  (calculateCharSimilarityOptimized str1 str2
   == calculateCharSimilarity str1 str2)%Q.
Proof.
  intros H1 H2. unfold calculateCharSimilarityOptimized, calculateCharSimilarity.
  destruct (bool_decide (str1 = [])) eqn:He1; [done |].
  destruct (bool_decide (str2 = [])) eqn:He2; [done |]. simpl. cbv zeta.
  apply bool_decide_eq_false in He1, He2.
  rewrite filter_elements_inter, list_to_set_elements_union.
  set (A := list_to_set str1 : gset N). set (B := list_to_set str2 : gset N).
  assert (0 < size A)%nat as HA.
  { destruct str1 as [|c ?]; [done |]. unfold A.
    assert (size (list_to_set (c :: str1) : gset N) ≠ 0%nat); [|lia].
    apply size_non_empty_iff. set_solver. }
  pose proof (size_union_inter A B) as Hui.
  pose proof (size_inter_le_union A B) as Hle.
  assert (size A ≤ size (A ∪ B))%nat as HAU by (apply subseteq_size; set_solver).
  rewrite (decide_True (P := (0 < size (A ∪ B))%nat)) by lia.
  case_bool_decide as Heq.
  - subst str2. subst B.
    rewrite (idemp_L (∩) A), (idemp_L (∪) A).
    unfold Qnat. symmetry. apply Qmult_inv_r.
    intros Hz. change (inject_Z (Z.of_nat (size A)) == inject_Z 0)%Q in Hz.
    assert (Z.of_nat (size A) = 0) by (by apply inject_Z_injective). lia.
  - rewrite !codePoints_units by done. rewrite !list_to_set_units.
    rewrite count_members, length_filter_elements, unit_set_inter.
    rewrite !size_unit_set. fold A B.
    rewrite decide_True by lia. unfold Qnat.
    replace (0 + Z.of_nat (size (A ∩ B))) with (Z.of_nat (size (A ∩ B))) by lia.
    replace (Z.of_nat (size A) + Z.of_nat (size B) - Z.of_nat (size (A ∩ B)))
      with (Z.of_nat (size (A ∪ B))) by lia.
    reflexivity.
Qed.

(** ** The cache does not change the scores *)

Lemma cacheKey_inj a b nst : cacheKey a nst = cacheKey b nst → a = b.
Proof.
  unfold cacheKey. intros Heq.
  apply app_inv_head in Heq. rewrite !app_assoc in Heq.
  apply app_inv_tail in Heq. by apply app_inv_tail in Heq.
Qed.

Lemma cache_ok_empty nst : cache_ok nst ∅.
Proof. intros nfv v Hv. by rewrite lookup_empty in Hv. Qed.

Lemma cachedCharSimilarity_ok enableCache cache nfv nst :
  cache_ok nst cache →
  ∃ cache', cachedCharSimilarity enableCache cache nfv nst
            = (calculateCharSimilarityOptimized nfv nst, cache')
            ∧ cache_ok nst cache'.
Proof.
  intros Hok. unfold cachedCharSimilarity. cbv zeta.
  destruct enableCache; simpl.
  - case_bool_decide as Hhit.
    + destruct Hhit as [v Hv]. rewrite Hv. simpl.
      exists cache. split; [|done]. f_equal. by apply Hok.
    + eexists. split; [done |]. intros nfv' v.
      destruct (decide (cacheKey nfv nst = cacheKey nfv' nst)) as [Heq|Hne].
      * rewrite <- Heq, lookup_insert_eq. apply cacheKey_inj in Heq as ->.
        by intros [= <-].
      * rewrite lookup_insert_ne by done. apply Hok.
  - by exists cache.
Qed.

Lemma calculateEditDistanceOptimized_total s t M :
  ∃ d, calculateEditDistanceOptimized s t M = Some d.
Proof. destruct (optimized_spec s t M) as (r & Hr & _). by exists r. Qed.

Section Scoring.
Variable toLowerCase : jsstring → jsstring.
Variables (weightConfig : WeightConfig.t) (minScore : Q)
  (caseSensitive enableCache : bool) (maxEditDistance : Z)
  (field : string) (normalizedSearchTerm : jsstring)
  (searchWords : list jsstring).

Lemma editStage_total nfv maxScore :
  ∃ res, editStage weightConfig minScore maxEditDistance nfv
           normalizedSearchTerm maxScore = Some res.
Proof.
  unfold editStage. destruct (Qlt_le_dec _ _); [|by eexists].
  destruct (calculateEditDistanceOptimized_total nfv normalizedSearchTerm
              maxEditDistance) as [d ->]. simpl.
  case_decide; by eexists.
Qed.

Local Abbreviation scoreOf :=
  (scoreOf toLowerCase weightConfig minScore caseSensitive enableCache
     maxEditDistance field normalizedSearchTerm searchWords).

Lemma scoreItem_cache_ok cache item :
  cache_ok normalizedSearchTerm cache →
  ∃ r cache',
    scoreItem toLowerCase weightConfig minScore caseSensitive enableCache
      maxEditDistance field normalizedSearchTerm searchWords cache item
    = Some (r, cache') ∧
    cache_ok normalizedSearchTerm cache' ∧
    scoreOf item = Some r.
Proof.
  intros Hok. unfold scoreOf, scoreItem. cbv zeta.
  destruct (negb _); [by eexists _, _ |].
  case_decide; [by eexists _, _ |].
  case_bool_decide; [by eexists _, _ |].
  set (nfv := normalize toLowerCase caseSensitive _).
  destruct (cachedCharSimilarity_ok enableCache cache nfv normalizedSearchTerm Hok)
    as (cache' & -> & Hok').
  destruct (cachedCharSimilarity_ok enableCache ∅ nfv normalizedSearchTerm
              (cache_ok_empty _)) as (cache0 & -> & _).
  destruct (editStage_total nfv
    (heuristicScore weightConfig nfv normalizedSearchTerm searchWords
       (splitWords nfv) (calculateCharSimilarityOptimized nfv normalizedSearchTerm)
       (calculateLengthSimilarity nfv normalizedSearchTerm)))
    as ([[[m es] ed] ml] & ->).
  simpl. by eexists _, _.
Qed.

Lemma scoreItems_spec items : ∀ cache,
  cache_ok normalizedSearchTerm cache →
  ∃ rs,
    scoreItems toLowerCase weightConfig minScore caseSensitive enableCache
      maxEditDistance field normalizedSearchTerm searchWords cache items
    = Some rs ∧
    Forall2 (λ item r, scoreOf item = Some r) items rs.
Proof.
  induction items as [|item items IH]; intros cache Hok; simpl.
  - exists []. split; [done | constructor].
  - destruct (scoreItem_cache_ok cache item Hok) as (r & cache' & -> & Hok' & Hr).
    simpl. destruct (IH cache' Hok') as (rs & -> & Hrs). simpl.
    exists (r :: rs). split; [done |]. by constructor.
Qed.

End Scoring.

(** ** The array of scored items *)

Section Calls.
Variable toLowerCase : jsstring → jsstring.

Local Abbreviation candidateResult := (candidateResult toLowerCase).

Lemma scoredItems_pass items f searchTerm options :
  f ≠ EmptyString → searchTerm ≠ [] →
  (2 ≤ length (normalize toLowerCase (caseSensitiveOf options) searchTerm))%nat →
  ∃ scored,
    scoredItems toLowerCase (Some items) (Some f) searchTerm options
    = Some (Some scored) ∧
    Forall2 (λ item r, candidateResult f searchTerm options item = Some r)
            items scored.
Proof.
  intros Hf Hterm Hlen. unfold scoredItems, guardsFail.
  rewrite !bool_decide_false by done. simpl. cbv zeta.
  rewrite decide_False by lia.
  destruct (scoreItems_spec toLowerCase (weightConfigOf options)
    (minScoreOf options) (caseSensitiveOf options) (enableCacheOf options)
    (maxEditDistanceOf options) f
    (normalize toLowerCase (caseSensitiveOf options) searchTerm)
    (splitWords (normalize toLowerCase (caseSensitiveOf options) searchTerm))
    items ∅ (cache_ok_empty _)) as (rs & -> & Hrs).
  exists rs. split; [done |]. exact Hrs.
Qed.

Lemma scoredItems_fail lst field searchTerm options :
  lst = None ∨ field = None ∨ field = Some EmptyString ∨ searchTerm = [] ∨
  (length (normalize toLowerCase (caseSensitiveOf options) searchTerm) < 2)%nat →
  scoredItems toLowerCase lst field searchTerm options = Some None.
Proof.
  intros Hcases. unfold scoredItems, guardsFail.
  destruct lst as [items|]; [|done]. destruct field as [f|]; [|done].
  destruct Hcases as [?|[?|[Hf|[->|Hlen]]]]; try done.
  - injection Hf as ->. done.
  - rewrite (bool_decide_true ([] = [])) by done. by rewrite orb_true_r.
  - destruct (_ || _); [done |]. cbv zeta. by rewrite decide_True by done.
Qed.

End Calls.

(** ** Candidates of [smartFuzzySearch] *)

Section Candidates.
Variable toLowerCase : jsstring → jsstring.

(** C2, amended.  In a call of [smartFuzzySearch] that passes the outer
    guards and whose [maxEditDistance] is not negative, every candidate
    with a truthy field value whose normalized field value equals the
    normalized search term gets the score [weightConfig.exactMatch], and
    the three booleans of its details are true. *)
Theorem exact_match_dominates items f searchTerm options k item :
  f ≠ EmptyString → searchTerm ≠ [] →
  (2 ≤ length (normalize toLowerCase (caseSensitiveOf options) searchTerm))%nat →
  0 ≤ maxEditDistanceOf options →
  items !! k = Some item →
  toBoolean (getField item f) = true →
  normalize toLowerCase (caseSensitiveOf options) (ToString (getField item f))
  = normalize toLowerCase (caseSensitiveOf options) searchTerm →
  ∃ scored r,
    scoredItems toLowerCase (Some items) (Some f) searchTerm options
    = Some (Some scored) ∧
    scored !! k = Some r ∧
    SearchResult.item r = item ∧
    SearchResult.score r = WeightConfig.exactMatch (weightConfigOf options) ∧
    MatchDetails.exactMatch (SearchResult.details r) = true ∧
    MatchDetails.prefixMatch (SearchResult.details r) = true ∧
    MatchDetails.containsMatch (SearchResult.details r) = true.
Proof.
  intros Hf Hterm Hlen Hmax Hk Htruthy Hexact.
  destruct (scoredItems_pass toLowerCase items f searchTerm options Hf Hterm Hlen)
    as (scored & Hscored & Hall).
  destruct (Forall2_lookup_l _ _ _ _ _ Hall Hk) as (r & Hr & Hres).
  exists scored, r. split; [done |]. split; [done |].
  unfold candidateResult, scoreOf, scoreItem in Hres. cbv zeta in Hres.
  rewrite Htruthy, Hexact in Hres. simpl in Hres.
  rewrite decide_False in Hres by lia.
  rewrite bool_decide_true in Hres by done. simpl in Hres.
  by injection Hres as <-.
Qed.

(** C5.  In a call of [smartFuzzySearch] that passes the outer guards,
    take a candidate that reaches the heuristics (truthy field value, length
    difference within [2 * maxEditDistance], no exact match) and let
    [running] be the running maximum of the heuristics other than the edit
    distance.  If [running] is at least [minScore], the score is [running]
    and the edit similarity of the details is 0: the result does not
    depend on the edit distance.  If [running] is below [minScore] and the
    bounded distance [d] is at most [maxEditDistance], the score is the
    maximum of [running] and
    [(maxLen - d) / maxLen * weightConfig.charSimilarity * 0.5]; if [d] is
    above [maxEditDistance], the score is [running]. *)
Theorem edit_distance_fallback items f searchTerm options k item :
  let weightConfig := weightConfigOf options in
  let minScore := minScoreOf options in
  let maxEditDistance := maxEditDistanceOf options in
  let nst := normalize toLowerCase (caseSensitiveOf options) searchTerm in
  let nfv := normalize toLowerCase (caseSensitiveOf options)
               (ToString (getField item f)) in
  f ≠ EmptyString → searchTerm ≠ [] → (2 ≤ length nst)%nat →
  items !! k = Some item →
  toBoolean (getField item f) = true →
  Z.abs (Z.of_nat (length nfv) - Z.of_nat (length nst)) ≤ maxEditDistance * 2 →
  nfv ≠ nst →
  ∃ scored r d,
    scoredItems toLowerCase (Some items) (Some f) searchTerm options
    = Some (Some scored) ∧
    scored !! k = Some r ∧
    calculateEditDistanceOptimized nfv nst maxEditDistance = Some d ∧
    let running :=
      heuristicScore weightConfig nfv nst (splitWords nst) (splitWords nfv)
        (calculateCharSimilarityOptimized nfv nst)
        (calculateLengthSimilarity nfv nst) in
    let maxLen := Z.of_nat (length nfv `max` length nst) in
    ((minScore <= running)%Q →
       SearchResult.score r = running ∧
       MatchDetails.editSimilarity (SearchResult.details r) = 0%Q) ∧
    ((running < minScore)%Q → d ≤ maxEditDistance →
       SearchResult.score r
       = Qmax running
           (inject_Z (maxLen - d) / inject_Z maxLen
            * WeightConfig.charSimilarity weightConfig * (5 # 10))%Q) ∧
    ((running < minScore)%Q → maxEditDistance < d →
       SearchResult.score r = running).
Proof.
  intros weightConfig minScore maxEditDistance nst nfv.
  intros Hf Hterm Hlen Hk Htruthy Hdiff Hne.
  destruct (scoredItems_pass toLowerCase items f searchTerm options Hf Hterm Hlen)
    as (scored & Hscored & Hall).
  destruct (Forall2_lookup_l _ _ _ _ _ Hall Hk) as (r & Hr & Hres).
  destruct (calculateEditDistanceOptimized_total nfv nst maxEditDistance)
    as [d Hd].
  exists scored, r, d. split; [done |]. split; [done |]. split; [done |].
  unfold candidateResult, scoreOf, scoreItem in Hres. cbv zeta in Hres.
  rewrite Htruthy in Hres. simpl in Hres.
  fold nst nfv weightConfig minScore maxEditDistance in Hres.
  rewrite decide_False in Hres by lia.
  rewrite bool_decide_false in Hres by done.
  destruct (cachedCharSimilarity_ok (enableCacheOf options) ∅ nfv nst
              (cache_ok_empty _)) as (cache0 & Hc & _).
  rewrite Hc in Hres. clear Hc.
  unfold editStage in Hres. rewrite Hd in Hres.
  set (running := heuristicScore weightConfig nfv nst (splitWords nst)
         (splitWords nfv) (calculateCharSimilarityOptimized nfv nst)
         (calculateLengthSimilarity nfv nst)) in *.
  cbv zeta. destruct (Qlt_le_dec running minScore) as [Hlt|Hge].
  - simpl in Hres. destruct (decide (d ≤ maxEditDistance)) as [Hle|Hgt].
    + rewrite decide_True in Hres by (subst nst; lia).
      simpl in Hres. injection Hres as <-. simpl.
      split; [intros; lra |]. split; [done | intros; lia].
    + simpl in Hres. injection Hres as <-. simpl.
      split; [intros; lra |]. split; [intros; lia | done].
  - simpl in Hres. injection Hres as <-. simpl.
    split; [|split; intros; lra].
    intros _. split; [done |]. by destruct (Qlt_le_dec 0 0).
Qed.

End Candidates.

(** ** Maximum and sum of the sub-scores *)

Ltac Qdisj := first [lra | left; Qdisj | right; Qdisj].

Ltac Qmax_le :=
  repeat rewrite Q.max_lub_iff; repeat split;
  repeat rewrite Q.max_le_iff; Qdisj.

Lemma accumulateAll_spec w nfv nst sw fw (cs ls es : Q) :
  (0 <= cs * WeightConfig.charSimilarity w)%Q →
  (snd (accumulateAll w nfv nst sw fw cs ls es)
   == Qmaximum (subScoresAll w nfv nst sw fw cs ls es))%Q ∧
  (fst (accumulateAll w nfv nst sw fw cs ls es)
   == Qsum (subScoresAll w nfv nst sw fw cs ls es))%Q.
Proof.
  intros Hchar. unfold accumulateAll, subScoresAll, Qmaximum, Qsum, indicator.
  cbv zeta.
  set (c := (cs * WeightConfig.charSimilarity w)%Q) in *.
  set (l := (ls * WeightConfig.lengthSimilarity w)%Q).
  set (e := (es * WeightConfig.charSimilarity w * (5 # 10))%Q).
  generalize (WeightConfig.exactMatch w) (WeightConfig.prefixMatch w)
    (WeightConfig.containsMatch w). intros we wp wc.
  destruct (bool_decide (nfv = nst)), (isPrefixMatch nfv nst),
    (isContainsMatch nfv nst), (decide (0 < searchWordMatches sw fw)%nat);
    simpl;
    match goal with
    | |- context [(?a / ?b * WeightConfig.wordBoundary w)%Q] =>
        generalize (a / b * WeightConfig.wordBoundary w)%Q; intros ww
    | _ => idtac
    end;
    (split; [apply Qle_antisym; Qmax_le | ring]).
Qed.

(** ** Ranking and [smartFuzzySearchAll] *)

Lemma insertByScore_perm r sorted : insertByScore r sorted ≡ₚ r :: sorted.
Proof.
  induction sorted as [|r' sorted IH]; simpl; [done |].
  destruct (Qlt_le_dec _ _); [done |].
  rewrite IH. apply Permutation_swap.
Qed.

Lemma sortByScore_perm results : sortByScore results ≡ₚ results.
Proof.
  unfold sortByScore.
  assert (∀ acc, foldl (λ sorted r, insertByScore r sorted) acc results
                 ≡ₚ results ++ acc) as Hgen.
  { induction results as [|r results IH]; intros acc; simpl; [done |].
    rewrite IH, insertByScore_perm. by rewrite Permutation_middle. }
  by rewrite Hgen, app_nil_r.
Qed.

Lemma elem_of_filterByScore minScore results r :
  r ∈ filterByScore minScore results ↔
  r ∈ results ∧ (minScore <= SearchResult.score r)%Q.
Proof.
  unfold filterByScore.
  rewrite !list_elem_of_In, filter_In, Qle_bool_iff. done.
Qed.

Section All.
Variable toLowerCase : jsstring → jsstring.

Lemma scoreItemAll_total w cs f nst sw item :
  ∃ r, scoreItemAll toLowerCase w cs f nst sw item = Some r ∧
       SearchResult.item r = item.
Proof.
  unfold scoreItemAll. cbv zeta. destruct (negb _); [by eexists |].
  rewrite unbounded_spec. simpl.
  destruct (accumulateAll _ _ _ _ _ _ _ _). by eexists.
Qed.

Lemma mapM_scoreItemAll w cs f nst sw items :
  ∃ scored, mapM (scoreItemAll toLowerCase w cs f nst sw) items = Some scored ∧
    Forall2 (λ item r, scoreItemAll toLowerCase w cs f nst sw item = Some r)
            items scored.
Proof.
  destruct (mapM (scoreItemAll toLowerCase w cs f nst sw) items)
    as [scored|] eqn:Hm.
  - exists scored. split; [done |]. by apply mapM_Some.
  - apply mapM_None in Hm. apply Exists_exists in Hm as (item & _ & Hnone).
    destruct (scoreItemAll_total w cs f nst sw item) as (r & Hr & _).
    by rewrite Hr in Hnone.
Qed.

Lemma scoredItemsAll_pass items f searchTerm options :
  f ≠ EmptyString → searchTerm ≠ [] →
  ∃ scored,
    scoredItemsAll toLowerCase (Some items) (Some f) searchTerm options
    = Some (Some scored) ∧
    Forall2 (λ item r,
      scoreItemAll toLowerCase (weightConfigOf options) (caseSensitiveOf options)
        f (normalize toLowerCase (caseSensitiveOf options) searchTerm)
        (splitWords (normalize toLowerCase (caseSensitiveOf options) searchTerm))
        item = Some r) items scored.
Proof.
  intros Hf Hterm. unfold scoredItemsAll, guardsFail.
  rewrite !bool_decide_false by done. simpl. cbv zeta.
  destruct (mapM_scoreItemAll (weightConfigOf options) (caseSensitiveOf options)
    f (normalize toLowerCase (caseSensitiveOf options) searchTerm)
    (splitWords (normalize toLowerCase (caseSensitiveOf options) searchTerm))
    items) as (scored & -> & Hall).
  by exists scored.
Qed.

Lemma scoredItemsAll_fail lst field searchTerm options :
  lst = None ∨ field = None ∨ field = Some EmptyString ∨ searchTerm = [] →
  scoredItemsAll toLowerCase lst field searchTerm options = Some None.
Proof.
  intros Hcases. unfold scoredItemsAll, guardsFail.
  destruct lst as [items|]; [|done]. destruct field as [f|]; [|done].
  destruct Hcases as [? | [? | [Hf | ->]]]; try done.
  - injection Hf as ->. done.
  - rewrite (bool_decide_true ([] = [])) by done. by rewrite orb_true_r.
Qed.

Lemma scoreItemAll_truthy w cs f nst sw item :
  toBoolean (getField item f) = true →
  let nfv := normalize toLowerCase cs (ToString (getField item f)) in
  let maxLength := Z.of_nat (length nfv `max` length nst) in
  let editSimilarity :=
    if decide (maxLength > 0)
    then (inject_Z (maxLength - distance nfv nst) / inject_Z maxLength)%Q
    else 0%Q in
  ∃ details,
    scoreItemAll toLowerCase w cs f nst sw item
    = Some {| SearchResult.item := item;
              SearchResult.score :=
                snd (accumulateAll w nfv nst sw (splitWords nfv)
                       (calculateCharSimilarity nfv nst)
                       (calculateLengthSimilarity nfv nst) editSimilarity);
              SearchResult.details := details |}.
Proof.
  intros Htruthy nfv maxLength editSimilarity.
  unfold scoreItemAll. rewrite Htruthy. cbv zeta. cbn [negb]. cbv iota.
  fold nfv. rewrite unbounded_spec. cbn [mbind option_bind].
  fold maxLength. fold editSimilarity.
  destruct (accumulateAll _ _ _ _ _ _ _ _) as [total maxScore].
  eexists. reflexivity.
Qed.

(** C4.  For a candidate of [smartFuzzySearchAll] with a truthy field
    value, and a character-similarity weight that is not negative (the
    weights of the data model lie between 0 and 1), the emitted score is
    the maximum of the seven weighted sub-scores, while the accumulator
    [totalScore], which is not returned, is their sum. *)
Theorem all_matches_score_is_maximum w cs f nst sw item :
  toBoolean (getField item f) = true →
  (0 <= WeightConfig.charSimilarity w)%Q →
  let nfv := normalize toLowerCase cs (ToString (getField item f)) in
  ∃ r d,
    scoreItemAll toLowerCase w cs f nst sw item = Some r ∧
    calculateEditDistance nfv nst = Some d ∧
    let maxLength := Z.of_nat (length nfv `max` length nst) in
    let editSimilarity :=
      if decide (maxLength > 0)
      then (inject_Z (maxLength - d) / inject_Z maxLength)%Q else 0%Q in
    let charSimilarity := calculateCharSimilarity nfv nst in
    let lengthSimilarity := calculateLengthSimilarity nfv nst in
    let subScores :=
      subScoresAll w nfv nst sw (splitWords nfv)
        charSimilarity lengthSimilarity editSimilarity in
    let totalScore :=
      fst (accumulateAll w nfv nst sw (splitWords nfv)
             charSimilarity lengthSimilarity editSimilarity) in
    (SearchResult.score r == Qmaximum subScores)%Q ∧
    (totalScore == Qsum subScores)%Q.
Proof.
  intros Htruthy Hw nfv.
  destruct (scoreItemAll_truthy w cs f nst sw item Htruthy) as [details Hr].
  fold nfv in Hr. rewrite Hr.
  eexists _, (distance nfv nst). split; [reflexivity |].
  split; [apply unbounded_spec |]. cbv zeta. cbn [SearchResult.score].
  apply accumulateAll_spec.
  apply Qmult_le_0_compat; [|done]. apply calculateCharSimilarity_bounds.
Qed.

(** C8.  [smartFuzzySearchAll] always returns a sequence, and every item
    in it has a computed score of at least [minScore] (0.3 when the option
    is omitted). *)
Theorem threshold_filtering lst field searchTerm options :
  ∃ out,
    smartFuzzySearchAll toLowerCase lst field searchTerm options = Some out ∧
    ∀ item, item ∈ out →
      ∃ f r,
        field = Some f ∧
        scoreItemAll toLowerCase (weightConfigOf options)
          (caseSensitiveOf options) f
          (normalize toLowerCase (caseSensitiveOf options) searchTerm)
          (splitWords (normalize toLowerCase (caseSensitiveOf options) searchTerm))
          item = Some r ∧
        (minScoreOf options <= SearchResult.score r)%Q.
Proof.
  unfold smartFuzzySearchAll.
  destruct (decide (lst = None ∨ field = None ∨ field = Some EmptyString
                    ∨ searchTerm = [])) as [Hfail|Hpass].
  - rewrite scoredItemsAll_fail by done. simpl.
    exists []. split; [done |]. intros item Hin. by apply elem_of_nil in Hin.
  - destruct lst as [items|]; [|tauto]. destruct field as [f|]; [|tauto].
    destruct (scoredItemsAll_pass items f searchTerm options)
      as (scored & -> & Hall); [naive_solver | tauto |].
    simpl. eexists. split; [done |]. intros item Hin.
    apply list_elem_of_fmap in Hin as (r & -> & Hr).
    rewrite sortByScore_perm in Hr.
    apply elem_of_filterByScore in Hr as [Hr Hscore].
    apply list_elem_of_lookup in Hr as [k Hk].
    destruct (Forall2_lookup_r _ _ _ _ _ Hall Hk) as (item & _ & Hitem).
    destruct (scoreItemAll_total (weightConfigOf options)
      (caseSensitiveOf options) f
      (normalize toLowerCase (caseSensitiveOf options) searchTerm)
      (splitWords (normalize toLowerCase (caseSensitiveOf options) searchTerm))
      item) as (r' & Hr' & Hsame).
    rewrite Hitem in Hr'. injection Hr' as <-. rewrite Hsame.
    by exists f, r.
Qed.

End All.

(** ** Case handling *)

Section Case.
Variable toLowerCase : jsstring → jsstring.
Hypothesis toLowerCase_nil : ∀ s, toLowerCase s = [] ↔ s = [].

Lemma guardsFail_term lst field term1 term2 :
  toLowerCase term1 = toLowerCase term2 →
  guardsFail lst field term1 = guardsFail lst field term2.
Proof.
  intros Heq. unfold guardsFail. destruct lst, field; try done. f_equal.
  apply bool_decide_ext.
  rewrite <- (toLowerCase_nil term1), <- (toLowerCase_nil term2).
  by rewrite Heq.
Qed.

Lemma scoredItems_term lst field term1 term2 options :
  caseSensitiveOf options = false →
  toLowerCase term1 = toLowerCase term2 →
  scoredItems toLowerCase lst field term1 options
  = scoredItems toLowerCase lst field term2 options.
Proof.
  intros Hcs Heq. unfold scoredItems.
  rewrite (guardsFail_term lst field term1 term2 Heq).
  rewrite Hcs. unfold normalize. by rewrite Heq.
Qed.

Lemma scoredItemsAll_term lst field term1 term2 options :
  caseSensitiveOf options = false →
  toLowerCase term1 = toLowerCase term2 →
  scoredItemsAll toLowerCase lst field term1 options
  = scoredItemsAll toLowerCase lst field term2 options.
Proof.
  intros Hcs Heq. unfold scoredItemsAll.
  rewrite (guardsFail_term lst field term1 term2 Heq).
  rewrite Hcs. unfold normalize. by rewrite Heq.
Qed.

Lemma caseVariant_field f a b :
  caseVariant toLowerCase f a b →
  toBoolean (getField a f) = toBoolean (getField b f) ∧
  normalize toLowerCase false (ToString (getField a f))
  = normalize toLowerCase false (ToString (getField b f)).
Proof.
  intros [->|(s1 & s2 & -> & -> & Heq)]; [done |]. simpl. split; [|done].
  f_equal. apply bool_decide_ext.
  rewrite <- (toLowerCase_nil s1), <- (toLowerCase_nil s2). by rewrite Heq.
Qed.

Lemma scoreItem_variant w minScore ec maxED f nst sw cache a b :
  caseVariant toLowerCase f a b →
  (λ rc, (SearchResult.score rc.1, rc.2))
    <$> scoreItem toLowerCase w minScore false ec maxED f nst sw cache a
  = (λ rc, (SearchResult.score rc.1, rc.2))
    <$> scoreItem toLowerCase w minScore false ec maxED f nst sw cache b.
Proof.
  intros Hvar. apply caseVariant_field in Hvar as [Htruthy Hnorm].
  unfold scoreItem. cbv zeta. rewrite Htruthy, Hnorm.
  destruct (negb _); [done |]. case_decide; [done |].
  case_bool_decide; [done |].
  destruct (cachedCharSimilarity _ _ _ _) as [cs cache'].
  destruct (editStage _ _ _ _ _ _) as [[[[m es] ed] ml]|]; done.
Qed.

Lemma scoreItems_variant w minScore ec maxED f nst sw items1 items2 :
  Forall2 (caseVariant toLowerCase f) items1 items2 →
  ∀ cache,
  fmap (M := list) SearchResult.score
    <$> scoreItems toLowerCase w minScore false ec maxED f nst sw cache items1
  = fmap (M := list) SearchResult.score
    <$> scoreItems toLowerCase w minScore false ec maxED f nst sw cache items2.
Proof.
  induction 1 as [|a b items1 items2 Hvar _ IH]; intros cache; [done |].
  simpl.
  pose proof (scoreItem_variant w minScore ec maxED f nst sw cache a b Hvar)
    as Hhead.
  destruct (scoreItem _ _ _ _ _ _ _ _ _ cache a) as [[ra ca]|],
    (scoreItem _ _ _ _ _ _ _ _ _ cache b) as [[rb cb]|];
    simpl in *; try done.
  injection Hhead as Hscore <-. specialize (IH ca).
  destruct (scoreItems _ _ _ _ _ _ _ _ _ ca items1),
    (scoreItems _ _ _ _ _ _ _ _ _ ca items2); simpl in *; try done.
  injection IH as IH. f_equal. by f_equal.
Qed.

Lemma scoreItemAll_variant w f nst sw a b :
  caseVariant toLowerCase f a b →
  SearchResult.score <$> scoreItemAll toLowerCase w false f nst sw a
  = SearchResult.score <$> scoreItemAll toLowerCase w false f nst sw b.
Proof.
  intros Hvar. apply caseVariant_field in Hvar as [Htruthy Hnorm].
  unfold scoreItemAll. cbv zeta. rewrite Htruthy, Hnorm.
  destruct (negb _); [done |].
  destruct (EditDistance.calculateEditDistance _ _); [|done]. simpl.
  by destruct (accumulateAll _ _ _ _ _ _ _ _).
Qed.

Lemma mapM_scoreItemAll_variant w f nst sw items1 items2 :
  Forall2 (caseVariant toLowerCase f) items1 items2 →
  fmap (M := list) SearchResult.score
    <$> mapM (scoreItemAll toLowerCase w false f nst sw) items1
  = fmap (M := list) SearchResult.score
    <$> mapM (scoreItemAll toLowerCase w false f nst sw) items2.
Proof.
  induction 1 as [|a b items1 items2 Hvar _ IH]; [done |].
  simpl. pose proof (scoreItemAll_variant w f nst sw a b Hvar) as Hhead.
  destruct (scoreItemAll _ _ _ _ _ _ a), (scoreItemAll _ _ _ _ _ _ b);
    simpl in *; try done.
  injection Hhead as Hscore.
  destruct (mapM _ items1), (mapM _ items2); simpl in *; try done.
  injection IH as IH. f_equal. by f_equal.
Qed.

(** C9.  With [caseSensitive] false or omitted, two search terms with the
    same lowercasing give the same result of [smartFuzzySearch] and the
    same sequence of [smartFuzzySearchAll]; and replacing field values by
    strings with the same lowercasing leaves every candidate's score
    unchanged, in both entry points.  [toLowerCase] is only required to map
    the empty string, and no other, to the empty string. *)
Theorem case_insensitive lst field f term1 term2 items1 items2 options :
  caseSensitiveOf options = false →
  toLowerCase term1 = toLowerCase term2 →
  Forall2 (caseVariant toLowerCase f) items1 items2 →
  smartFuzzySearch toLowerCase lst field term1 options
  = smartFuzzySearch toLowerCase lst field term2 options ∧
  smartFuzzySearchAll toLowerCase lst field term1 options
  = smartFuzzySearchAll toLowerCase lst field term2 options ∧
  scoresOf (scoredItems toLowerCase (Some items1) (Some f) term1 options)
  = scoresOf (scoredItems toLowerCase (Some items2) (Some f) term2 options) ∧
  scoresOf (scoredItemsAll toLowerCase (Some items1) (Some f) term1 options)
  = scoresOf (scoredItemsAll toLowerCase (Some items2) (Some f) term2 options).
Proof.
  intros Hcs Heq Hvar. split; [|split; [|split]].
  - unfold smartFuzzySearch. by rewrite (scoredItems_term _ _ term1 term2).
  - unfold smartFuzzySearchAll. by rewrite (scoredItemsAll_term _ _ term1 term2).
  - rewrite (scoredItems_term _ _ term1 term2) by done.
    unfold scoredItems, scoresOf, guardsFail.
    destruct (_ || _); [done |]. cbv zeta. case_decide; [done |].
    rewrite Hcs.
    pose proof (scoreItems_variant (weightConfigOf options) (minScoreOf options)
      (enableCacheOf options) (maxEditDistanceOf options) f
      (normalize toLowerCase false term2)
      (splitWords (normalize toLowerCase false term2)) items1 items2 Hvar ∅)
      as Hscores.
    destruct (scoreItems _ _ _ _ _ _ _ _ _ ∅ items1),
      (scoreItems _ _ _ _ _ _ _ _ _ ∅ items2); simpl in *; try done.
    by injection Hscores as ->.
  - rewrite (scoredItemsAll_term _ _ term1 term2) by done.
    unfold scoredItemsAll, scoresOf, guardsFail.
    destruct (_ || _); [done |]. cbv zeta. rewrite Hcs.
    pose proof (mapM_scoreItemAll_variant (weightConfigOf options) f
      (normalize toLowerCase false term2)
      (splitWords (normalize toLowerCase false term2)) items1 items2 Hvar)
      as Hscores.
    destruct (mapM _ items1), (mapM _ items2); simpl in *; try done.
    by injection Hscores as ->.
Qed.

End Case.

(** ** Edit-distance contract, bounds, guards *)

(** C1, counterexample.  With [maxDistance = 1] the bounded engine returns
    [3] on ["abcd"] and ["bcdXY"]: every row of the table has an entry at
    most [1], so the early exit never fires, and the final entry [3] is
    returned as it is.  It is greater than [maxDistance + 1 = 2], and it is
    not the sentinel although the true distance exceeds [maxDistance]. *)
Lemma bounded_overshoots_sentinel :
  calculateEditDistanceOptimized (of_ascii "abcd") (of_ascii "bcdXY") 1 = Some 3
  ∧ calculateEditDistance (of_ascii "abcd") (of_ascii "bcdXY") = Some 3
  ∧ ¬ (3 ≤ 1 + 1) ∧ 1 < 3 ∧ 3 ≠ 1 + 1.
Proof. repeat split; try (vm_compute; reflexivity); lia. Qed.

(** C1, amended.  The bounded engine always returns a number, never one
    greater than the larger of [maxDistance + 1] and the true distance (the
    value of [calculateEditDistance]); whenever the true distance exceeds
    [maxDistance] it returns [maxDistance + 1] or the true distance itself,
    hence at least [maxDistance + 1]. *)
Theorem bounded_distance_range str1 str2 maxDistance :
  ∃ d r,
    calculateEditDistance str1 str2 = Some d ∧
    calculateEditDistanceOptimized str1 str2 maxDistance = Some r ∧
    r ≤ (maxDistance + 1) `max` d ∧
    (maxDistance < d → r = maxDistance + 1 ∨ r = d) ∧
    (maxDistance < d → maxDistance + 1 ≤ r).
Proof.
  destruct (optimized_spec str1 str2 maxDistance) as (r & Hr & Hcases).
  exists (distance str1 str2), r. split; [apply unbounded_spec |].
  split; [done |]. destruct Hcases as [->|[-> Hlt]]; repeat split; lia.
Qed.

(** C3.  For every pair of strings and every [maxDistance], both engines
    return a number, and the result of [calculateEditDistanceOptimized] is
    either the value of [calculateEditDistance] or strictly greater than
    [maxDistance]; when the true distance is at most [maxDistance] the two
    results are equal. *)
Theorem bounded_exact_or_above str1 str2 maxDistance :
  ∃ d r,
    calculateEditDistance str1 str2 = Some d ∧
    calculateEditDistanceOptimized str1 str2 maxDistance = Some r ∧
    (r = d ∨ maxDistance < r) ∧
    (d ≤ maxDistance → r = d).
Proof.
  destruct (optimized_spec str1 str2 maxDistance) as (r & Hr & Hcases).
  exists (distance str1 str2), r. split; [apply unbounded_spec |].
  split; [done |]. destruct Hcases as [->|[-> Hlt]]; split; auto; lia.
Qed.

(** C7.  The substring ratio, the common-prefix ratio, the continuous-run
    score, the ideographic word overlap, the character-set Jaccard
    similarity (in both implementations) and the length ratio all lie in
    the closed interval from 0 to 1, for every pair of strings. *)
Theorem scorers_in_unit_interval target search :
  unit_interval (calculateSubstringMatch target search) ∧
  unit_interval (calculateCommonPrefix target search) ∧
  unit_interval (calculateContinuousMatch target search) ∧
  unit_interval (calculateChineseWordMatch target search) ∧
  unit_interval (calculateCharSimilarityOptimized target search) ∧
  unit_interval (calculateCharSimilarity target search) ∧
  unit_interval (calculateLengthSimilarity target search).
Proof.
  repeat split;
    first [ apply calculateSubstringMatch_bounds
          | apply calculateCommonPrefix_bounds
          | apply calculateContinuousMatch_bounds
          | apply calculateChineseWordMatch_bounds
          | apply calculateCharSimilarityOptimized_bounds
          | apply calculateCharSimilarity_bounds
          | apply calculateLengthSimilarity_bounds ].
Qed.

(** C10, the two implementations evaluated on two strings of one surrogate
    pair each, U+1F600 and U+1F601.  [new Set(str)] iterates code points, so
    the optimized version sees two distinct one-element sets and returns 0;
    [str.split('')] yields code units, so the other version finds the
    shared high surrogate and returns 1/3. *)
Theorem charSimilarity_differs_on_surrogate_pairs :
  let str1 := [0xD83D; 0xDE00]%N in
  let str2 := [0xD83D; 0xDE01]%N in
  calculateCharSimilarityOptimized str1 str2 = (0 # 2)%Q ∧
  calculateCharSimilarity str1 str2 = (1 # 3)%Q ∧
  ¬ (calculateCharSimilarityOptimized str1 str2
     == calculateCharSimilarity str1 str2)%Q.
Proof.
  split; [vm_compute; reflexivity |]. split; [vm_compute; reflexivity |].
  vm_compute. discriminate.
Qed.

(** [toLowerCaseLatin] maps the empty string, and no other, to the empty
    string. *)
Lemma toLowerCaseLatin_nil s : toLowerCaseLatin s = [] ↔ s = [].
Proof.
  split; [|by intros ->]. destruct s as [|c s]; [done |].
  unfold toLowerCaseLatin. simpl. unfold lowerCodeUnit.
  destruct (_ && _); [discriminate |]. destruct (_ =? _)%N; discriminate.
Qed.

(** C6, counterexample.  The search term U+0130 is one code unit long, but
    its lowercase form is the two code units U+0069 U+0307; it passes the
    length gate and is an exact match for an item holding that form, which
    [smartFuzzySearch] returns under the default options. *)
Lemma one_unit_term_matches :
  length [0x130%N] = 1%nat ∧
  smartFuzzySearch toLowerCaseLatin
    (Some [named [0x69; 0x307]%N]) (Some "name"%string) [0x130%N]
    SearchOptions.empty
  = Some (Some (named [0x69; 0x307]%N)).
Proof. split; [reflexivity |]. vm_compute. reflexivity. Qed.

Section Guards.
Variable toLowerCase : jsstring → jsstring.

(** C6, amended.  [smartFuzzySearch] returns [null] whenever the
    collection is not an array, the field is not given or empty, the search
    term is empty, or the normalized search term has fewer than two code
    units; in particular it does so for every collection, field and
    [minScore] when the normalized search term is a single code unit. *)
Theorem guard_gates lst field searchTerm options :
  lst = None ∨ field = None ∨ field = Some EmptyString ∨ searchTerm = [] ∨
  (length (normalize toLowerCase (caseSensitiveOf options) searchTerm) < 2)%nat →
  smartFuzzySearch toLowerCase lst field searchTerm options = Some None.
Proof.
  intros Hcases. unfold smartFuzzySearch.
  by rewrite scoredItems_fail.
Qed.

End Guards.

(** C2, counterexample.  With [maxEditDistance = -1] the length pre-filter
    ([lengthDiff > maxEditDistance * 2], here [0 > -2]) rejects a candidate
    whose normalized field value equals the normalized search term before
    the exact-match test is reached: the candidate gets score 0 and
    all-false details. *)
Lemma exact_match_filtered_out :
  let options := SearchOptions.mk None None None None (Some (-1)) in
  let item := named (of_ascii "ab") in
  scoredItems toLowerCaseLatin (Some [item]) (Some "name"%string)
    (of_ascii "ab") options
  = Some (Some [unscored item None]) ∧
  toBoolean (getField item "name") = true ∧
  normalize toLowerCaseLatin (caseSensitiveOf options)
    (ToString (getField item "name"))
  = normalize toLowerCaseLatin (caseSensitiveOf options) (of_ascii "ab") ∧
  ¬ (SearchResult.score (unscored item None)
     == WeightConfig.exactMatch (weightConfigOf options))%Q ∧
  MatchDetails.exactMatch (SearchResult.details (unscored item None)) = false.
Proof.
  repeat split; try (vm_compute; reflexivity). vm_compute. discriminate.
Qed.

(** ** Instances on concrete inputs *)

(** C2 on the third item of the example collection, ["HELLO"], and the term
    ["hello"]. *)
Lemma exact_match_dominates_witness :
  let item := named (of_ascii "HELLO") in
  let options := SearchOptions.empty in
  "name"%string ≠ EmptyString ∧ of_ascii "hello" ≠ [] ∧
  (2 ≤ length (normalize toLowerCaseLatin (caseSensitiveOf options)
                 (of_ascii "hello")))%nat ∧
  0 ≤ maxEditDistanceOf options ∧
  example_items !! 2%nat = Some item ∧
  toBoolean (getField item "name") = true ∧
  normalize toLowerCaseLatin (caseSensitiveOf options)
    (ToString (getField item "name"))
  = normalize toLowerCaseLatin (caseSensitiveOf options) (of_ascii "hello") ∧
  ∃ scored r,
    scoredItems toLowerCaseLatin (Some example_items) (Some "name"%string)
      (of_ascii "hello") options
    = Some (Some scored) ∧
    scored !! 2%nat = Some r ∧
    SearchResult.item r = item ∧
    SearchResult.score r = WeightConfig.exactMatch (weightConfigOf options) ∧
    MatchDetails.exactMatch (SearchResult.details r) = true ∧
    MatchDetails.prefixMatch (SearchResult.details r) = true ∧
    MatchDetails.containsMatch (SearchResult.details r) = true.
Proof.
  intros item options.
  assert ("name"%string ≠ EmptyString) as H1 by discriminate.
  assert (of_ascii "hello" ≠ []) as H2 by discriminate.
  assert (2 ≤ length (normalize toLowerCaseLatin (caseSensitiveOf options)
                        (of_ascii "hello")))%nat
    as H3 by (vm_compute; lia).
  assert (0 ≤ maxEditDistanceOf options) as H4 by (vm_compute; discriminate).
  assert (example_items !! 2%nat = Some item) as H5 by reflexivity.
  assert (toBoolean (getField item "name") = true) as H6
    by (vm_compute; reflexivity).
  assert (normalize toLowerCaseLatin (caseSensitiveOf options)
            (ToString (getField item "name"))
          = normalize toLowerCaseLatin (caseSensitiveOf options)
              (of_ascii "hello")) as H7 by (vm_compute; reflexivity).
  split; [exact H1 |]. split; [exact H2 |]. split; [exact H3 |].
  split; [exact H4 |]. split; [exact H5 |]. split; [exact H6 |].
  split; [exact H7 |].
  exact (exact_match_dominates toLowerCaseLatin example_items "name"
           (of_ascii "hello") options 2%nat item H1 H2 H3 H4 H5 H6 H7).
Defined.

(** C6 on the one-unit term ["h"]. *)
Lemma guard_gates_witness :
  (Some example_items = None ∨ Some "name"%string = None ∨
   Some "name"%string = Some EmptyString ∨ of_ascii "h" = [] ∨
   (length (normalize toLowerCaseLatin (caseSensitiveOf SearchOptions.empty)
              (of_ascii "h")) < 2)%nat) ∧
  smartFuzzySearch toLowerCaseLatin (Some example_items) (Some "name"%string)
    (of_ascii "h") SearchOptions.empty = Some None.
Proof.
  assert (length (normalize toLowerCaseLatin
            (caseSensitiveOf SearchOptions.empty) (of_ascii "h")) < 2)%nat
    as H by (vm_compute; lia).
  split; [do 4 right; exact H |].
  apply (guard_gates toLowerCaseLatin). do 4 right. exact H.
Defined.

(** C4 on the item ["Hello World"] and the term ["helo"], with the default
    weights. *)
Lemma all_matches_score_is_maximum_witness :
  let w := DEFAULT_WEIGHT_CONFIG in
  let item := named (of_ascii "Hello World") in
  let nst := of_ascii "helo" in
  let sw := splitWords nst in
  toBoolean (getField item "name") = true ∧
  (0 <= WeightConfig.charSimilarity w)%Q ∧
  let nfv := normalize toLowerCaseLatin false (ToString (getField item "name")) in
  ∃ r d,
    scoreItemAll toLowerCaseLatin w false "name" nst sw item = Some r ∧
    calculateEditDistance nfv nst = Some d ∧
    let maxLength := Z.of_nat (length nfv `max` length nst) in
    let editSimilarity :=
      if decide (maxLength > 0)
      then (inject_Z (maxLength - d) / inject_Z maxLength)%Q else 0%Q in
    let charSimilarity := calculateCharSimilarity nfv nst in
    let lengthSimilarity := calculateLengthSimilarity nfv nst in
    let subScores :=
      subScoresAll w nfv nst sw (splitWords nfv)
        charSimilarity lengthSimilarity editSimilarity in
    let totalScore :=
      fst (accumulateAll w nfv nst sw (splitWords nfv)
             charSimilarity lengthSimilarity editSimilarity) in
    (SearchResult.score r == Qmaximum subScores)%Q ∧
    (totalScore == Qsum subScores)%Q.
Proof.
  intros w item nst sw.
  assert (toBoolean (getField item "name") = true) as H1 by (vm_compute; reflexivity).
  assert (0 <= WeightConfig.charSimilarity w)%Q as H2 by (vm_compute; discriminate).
  split; [exact H1 |]. split; [exact H2 |].
  exact (all_matches_score_is_maximum toLowerCaseLatin w false "name" nst sw
           item H1 H2).
Defined.

(** C5 on the first item of the example collection, ["Hello World"], and
    the term ["helo"]. *)
Lemma edit_distance_fallback_witness :
  let item := named (of_ascii "Hello World") in
  let options := SearchOptions.empty in
  let weightConfig := weightConfigOf options in
  let minScore := minScoreOf options in
  let maxEditDistance := maxEditDistanceOf options in
  let nst := normalize toLowerCaseLatin (caseSensitiveOf options)
               (of_ascii "helo") in
  let nfv := normalize toLowerCaseLatin (caseSensitiveOf options)
               (ToString (getField item "name")) in
  "name"%string ≠ EmptyString ∧ of_ascii "helo" ≠ [] ∧
  (2 ≤ length nst)%nat ∧
  example_items !! 0%nat = Some item ∧
  toBoolean (getField item "name") = true ∧
  Z.abs (Z.of_nat (length nfv) - Z.of_nat (length nst)) ≤ maxEditDistance * 2 ∧
  nfv ≠ nst ∧
  ∃ scored r d,
    scoredItems toLowerCaseLatin (Some example_items) (Some "name"%string)
      (of_ascii "helo") options
    = Some (Some scored) ∧
    scored !! 0%nat = Some r ∧
    calculateEditDistanceOptimized nfv nst maxEditDistance = Some d ∧
    let running :=
      heuristicScore weightConfig nfv nst (splitWords nst) (splitWords nfv)
        (calculateCharSimilarityOptimized nfv nst)
        (calculateLengthSimilarity nfv nst) in
    let maxLen := Z.of_nat (length nfv `max` length nst) in
    ((minScore <= running)%Q →
       SearchResult.score r = running ∧
       MatchDetails.editSimilarity (SearchResult.details r) = 0%Q) ∧
    ((running < minScore)%Q → d ≤ maxEditDistance →
       SearchResult.score r
       = Qmax running
           (inject_Z (maxLen - d) / inject_Z maxLen
            * WeightConfig.charSimilarity weightConfig * (5 # 10))%Q) ∧
    ((running < minScore)%Q → maxEditDistance < d →
       SearchResult.score r = running).
Proof.
  intros item options weightConfig minScore maxEditDistance nst nfv.
  assert ("name"%string ≠ EmptyString) as H1 by discriminate.
  assert (of_ascii "helo" ≠ []) as H2 by discriminate.
  assert (2 ≤ length nst)%nat as H3 by (vm_compute; lia).
  assert (example_items !! 0%nat = Some item) as H4 by reflexivity.
  assert (toBoolean (getField item "name") = true) as H5
    by (vm_compute; reflexivity).
  assert (Z.abs (Z.of_nat (length nfv) - Z.of_nat (length nst))
          ≤ maxEditDistance * 2) as H6 by (vm_compute; discriminate).
  assert (nfv ≠ nst) as H7 by (vm_compute; discriminate).
  split; [exact H1 |]. split; [exact H2 |]. split; [exact H3 |].
  split; [exact H4 |]. split; [exact H5 |]. split; [exact H6 |].
  split; [exact H7 |].
  exact (edit_distance_fallback toLowerCaseLatin example_items "name"
           (of_ascii "helo") options 0%nat item H1 H2 H3 H4 H5 H6 H7).
Defined.

(** C9 on the example collection, its case variants, and the terms
    ["HeLLo"] and ["hello"]. *)
Lemma case_insensitive_witness :
  (∀ s, toLowerCaseLatin s = [] ↔ s = []) ∧
  caseSensitiveOf SearchOptions.empty = false ∧
  toLowerCaseLatin (of_ascii "HeLLo") = toLowerCaseLatin (of_ascii "hello") ∧
  Forall2 (caseVariant toLowerCaseLatin "name") example_items example_variants ∧
  smartFuzzySearch toLowerCaseLatin (Some example_items) (Some "name"%string)
    (of_ascii "HeLLo") SearchOptions.empty
  = smartFuzzySearch toLowerCaseLatin (Some example_items) (Some "name"%string)
      (of_ascii "hello") SearchOptions.empty ∧
  smartFuzzySearchAll toLowerCaseLatin (Some example_items) (Some "name"%string)
    (of_ascii "HeLLo") SearchOptions.empty
  = smartFuzzySearchAll toLowerCaseLatin (Some example_items)
      (Some "name"%string) (of_ascii "hello") SearchOptions.empty ∧
  scoresOf (scoredItems toLowerCaseLatin (Some example_items)
              (Some "name"%string) (of_ascii "HeLLo") SearchOptions.empty)
  = scoresOf (scoredItems toLowerCaseLatin (Some example_variants)
                (Some "name"%string) (of_ascii "hello") SearchOptions.empty) ∧
  scoresOf (scoredItemsAll toLowerCaseLatin (Some example_items)
              (Some "name"%string) (of_ascii "HeLLo") SearchOptions.empty)
  = scoresOf (scoredItemsAll toLowerCaseLatin (Some example_variants)
                (Some "name"%string) (of_ascii "hello") SearchOptions.empty).
Proof.
  assert (caseSensitiveOf SearchOptions.empty = false) as H2 by reflexivity.
  assert (toLowerCaseLatin (of_ascii "HeLLo") = toLowerCaseLatin (of_ascii "hello"))
    as H3 by (vm_compute; reflexivity).
  assert (Forall2 (caseVariant toLowerCaseLatin "name")
            example_items example_variants) as H4.
  { constructor; [|constructor; [|constructor;
      [left; reflexivity | constructor]]].
    - right. eexists _, _. repeat split; vm_compute; reflexivity.
    - right. eexists _, _. repeat split; vm_compute; reflexivity. }
  split; [exact toLowerCaseLatin_nil |]. split; [exact H2 |].
  split; [exact H3 |]. split; [exact H4 |].
  exact (case_insensitive toLowerCaseLatin toLowerCaseLatin_nil
           (Some example_items) (Some "name"%string) "name"
           (of_ascii "HeLLo") (of_ascii "hello")
           example_items example_variants SearchOptions.empty H2 H3 H4).
Defined.

(** * Further properties of the code *)

(** ** Edit scripts *)

Lemma edits_nonneg n s t : edits n s t → 0 ≤ n.
Proof. induction 1; lia. Qed.

Lemma edits_refl s : edits 0 s s.
Proof. induction s; by constructor. Qed.

Lemma edits_insert_all t : edits (Z.of_nat (length t)) [] t.
Proof.
  induction t as [|b t IH]; [constructor |].
  replace (Z.of_nat (length (b :: t))) with (Z.of_nat (length t) + 1)
    by (simpl; lia).
  by constructor.
Qed.

Lemma edits_delete_all s : edits (Z.of_nat (length s)) s [].
Proof.
  induction s as [|a s IH]; [constructor |].
  replace (Z.of_nat (length (a :: s))) with (Z.of_nat (length s) + 1)
    by (simpl; lia).
  by constructor.
Qed.

Lemma edits_app n s t : edits n s t → ∀ m s' t',
  edits m s' t' → edits (n + m) (s ++ s') (t ++ t').
Proof.
  induction 1 as [|a s t n _ IH|a b s t n _ IH|a s t n _ IH|b s t n _ IH];
    intros m s' t' H'; simpl.
  - by replace (0 + m) with m by lia.
  - constructor. by apply IH.
  - replace (n + 1 + m) with (n + m + 1) by lia. constructor. by apply IH.
  - replace (n + 1 + m) with (n + m + 1) by lia. constructor. by apply IH.
  - replace (n + 1 + m) with (n + m + 1) by lia. constructor. by apply IH.
Qed.

Lemma edits_rev n s t : edits n s t → edits n (rev s) (rev t).
Proof.
  induction 1 as [|a s t n _ IH|a b s t n _ IH|a s t n _ IH|b s t n _ IH];
    simpl.
  - constructor.
  - replace n with (n + 0) by lia. apply edits_app; [done |].
    apply (edits_refl [a]).
  - apply edits_app; [done |]. apply (edits_substitute a b [] [] 0). constructor.
  - rewrite <- (app_nil_r (rev t)). apply edits_app; [done |].
    apply (edits_delete a [] [] 0). constructor.
  - rewrite <- (app_nil_r (rev s)). apply edits_app; [done |].
    apply (edits_insert b [] [] 0). constructor.
Qed.

Lemma edits_sym n s t : edits n s t → edits n t s.
Proof. induction 1; by constructor. Qed.

Lemma edits_zero n s t : edits n s t → n = 0 → s = t.
Proof.
  induction 1 as [|a s t n _ IH|a b s t n H _|a s t n H _|b s t n H _];
    intros Hn; try (apply edits_nonneg in H; lia).
  - done.
  - f_equal. by apply IH.
Qed.

(** Scripts compose, at no more than the sum of their costs. *)
Lemma edits_trans n s t : edits n s t → ∀ m u,
  edits m t u → ∃ k, k ≤ n + m ∧ edits k s u.
Proof.
  induction 1 as [|a s t n H IH|a b s t n H IH|a s t n H IH|b s t n H IH];
    intros m u H2.
  - exists m. split; [lia | done].
  - remember (a :: t) as t' eqn:Ht'. revert a s t n H IH Ht'.
    induction H2 as [|c t2 u m H2 _|c d t2 u m H2 _|c t2 u m H2 _|d t2 u m H2 IH2];
      intros a s t n H IH Ht'; try discriminate.
    + injection Ht' as -> ->. destruct (IH _ _ H2) as (k & Hk & He).
      exists k. split; [lia |]. by constructor.
    + injection Ht' as -> ->. destruct (IH _ _ H2) as (k & Hk & He).
      exists (k + 1). split; [lia |]. by constructor.
    + injection Ht' as -> ->. destruct (IH _ _ H2) as (k & Hk & He).
      exists (k + 1). split; [lia |]. by constructor.
    + destruct (IH2 a s t n H IH Ht') as (k & Hk & He).
      exists (k + 1). split; [lia |]. by constructor.
  - remember (b :: t) as t' eqn:Ht'. revert a b s t n H IH Ht'.
    induction H2 as [|c t2 u m H2 _|c d t2 u m H2 _|c t2 u m H2 _|d t2 u m H2 IH2];
      intros a b s t n H IH Ht'; try discriminate.
    + injection Ht' as -> ->. destruct (IH _ _ H2) as (k & Hk & He).
      exists (k + 1). split; [lia |]. by constructor.
    + injection Ht' as -> ->. destruct (IH _ _ H2) as (k & Hk & He).
      exists (k + 1). split; [lia |]. by constructor.
    + injection Ht' as -> ->. destruct (IH _ _ H2) as (k & Hk & He).
      exists (k + 1). split; [lia |]. by constructor.
    + destruct (IH2 a b s t n H IH Ht') as (k & Hk & He).
      exists (k + 1). split; [lia |]. by constructor.
  - destruct (IH _ _ H2) as (k & Hk & He).
    exists (k + 1). split; [lia |]. by constructor.
  - remember (b :: t) as t' eqn:Ht'. revert b s t n H IH Ht'.
    induction H2 as [|c t2 u m H2 _|c d t2 u m H2 _|c t2 u m H2 _|d t2 u m H2 IH2];
      intros b s t n H IH Ht'; try discriminate.
    + injection Ht' as -> ->. destruct (IH _ _ H2) as (k & Hk & He).
      exists (k + 1). split; [lia |]. by constructor.
    + injection Ht' as -> ->. destruct (IH _ _ H2) as (k & Hk & He).
      exists (k + 1). split; [lia |]. by constructor.
    + injection Ht' as -> ->. destruct (IH _ _ H2) as (k & Hk & He).
      exists k. split; [lia | done].
    + destruct (IH2 b s t n H IH Ht') as (k & Hk & He).
      exists (k + 1). split; [lia |]. by constructor.
Qed.

(** ** The table and the edit scripts *)

(** An entry depends on the two prefixes only. *)
Lemma lev_local s s' t t' i : ∀ j,
  (i ≤ length s)%nat → (j ≤ length t)%nat →
  lev (s ++ s') (t ++ t') i j = lev s t i j.
Proof.
  induction i as [|i IHi]; intros j Hi Hj; [done |].
  induction j as [|j IHj]; [by rewrite !lev_0_r |].
  rewrite !lev_S_S, IHj, (IHi j), (IHi (S j)) by lia.
  by rewrite !lookup_app_l by lia.
Qed.

(** Neighbouring entries differ by at most one. *)
Lemma lev_neighbours s t n : ∀ i j, (i + j = n)%nat →
  lev s t (S i) j ≤ lev s t i j + 1 ∧ lev s t i (S j) ≤ lev s t i j + 1 ∧
  lev s t i j ≤ lev s t (S i) j + 1 ∧ lev s t i j ≤ lev s t i (S j) + 1.
Proof.
  induction n as [|n IH]; intros i j Hn.
  - assert (i = 0 ∧ j = 0)%nat as [-> ->] by lia.
    change (lev s t 0 1) with 1. change (lev s t 0 0) with 0.
    rewrite lev_0_r. lia.
  - destruct i as [|i], j as [|j]; try lia.
    + destruct (IH 0%nat j ltac:(lia)) as (Ha & Hb & Hc & He).
      rewrite (lev_S_S s t 0 j).
      change (lev s t 0 (S (S j))) with (Z.of_nat (S (S j))).
      change (lev s t 0 (S j)) with (Z.of_nat (S j)) in *.
      change (lev s t 0 j) with (Z.of_nat j) in *.
      case_decide; lia.
    + destruct (IH i 0%nat ltac:(lia)) as (Ha & Hb & Hc & He).
      rewrite (lev_S_S s t i 0). rewrite !lev_0_r in *.
      case_decide; lia.
    + destruct (IH i (S j) ltac:(lia)) as (Ha1 & Hb1 & Hc1 & He1).
      destruct (IH (S i) j ltac:(lia)) as (Ha2 & Hb2 & Hc2 & He2).
      assert (i + j < n)%nat as Hlt by lia.
      rewrite (lev_S_S s t (S i) j), (lev_S_S s t i (S j)), (lev_S_S s t i j) in *.
      repeat case_decide; lia.
Qed.

Lemma lev_delete_step s t i j : lev s t (S i) j ≤ lev s t i j + 1.
Proof. by destruct (lev_neighbours s t (i + j) i j eq_refl) as (? & _). Qed.

Lemma lev_insert_step s t i j : lev s t i (S j) ≤ lev s t i j + 1.
Proof. by destruct (lev_neighbours s t (i + j) i j eq_refl) as (_ & ? & _). Qed.

(** No script is cheaper than the table entry. *)
Lemma edits_lev_le n s t :
  edits n s t → lev (rev s) (rev t) (length s) (length t) ≤ n.
Proof.
  induction 1 as [|a s t n _ IH|a b s t n _ IH|a s t n _ IH|b s t n _ IH].
  - done.
  - simpl. rewrite lev_S_S.
    rewrite (list_lookup_middle (rev s) [] a) by (by rewrite length_rev).
    rewrite (list_lookup_middle (rev t) [] a) by (by rewrite length_rev).
    rewrite decide_True by done.
    rewrite lev_local by (rewrite length_rev; lia). done.
  - simpl. rewrite lev_S_S.
    rewrite (lev_local (rev s) [a] (rev t) [b] (length s) (length t))
      by (rewrite length_rev; lia).
    case_decide; lia.
  - simpl. etrans; [apply lev_delete_step |].
    rewrite <- (app_nil_r (rev t)).
    rewrite lev_local by (rewrite length_rev; lia). lia.
  - simpl. etrans; [apply lev_insert_step |].
    rewrite <- (app_nil_r (rev s)).
    rewrite lev_local by (rewrite length_rev; lia). lia.
Qed.

(** Every table entry is the cost of a script between the two prefixes. *)
Lemma lev_edits s t i : ∀ j,
  (i ≤ length s)%nat → (j ≤ length t)%nat →
  edits (lev s t i j) (rev (take i s)) (rev (take j t)).
Proof.
  induction i as [|i IHi]; intros j Hi Hj.
  - change (lev s t 0 j) with (Z.of_nat j). rewrite take_0. simpl.
    replace j with (length (rev (take j t))) at 1
      by (rewrite length_rev, length_take; lia).
    apply edits_insert_all.
  - induction j as [|j IHj].
    + rewrite lev_0_r, take_0. simpl.
      replace (S i) with (length (rev (take (S i) s))) at 1
        by (rewrite length_rev, length_take; lia).
      apply edits_delete_all.
    + destruct (lookup_lt_is_Some_2 s i ltac:(lia)) as [a Ha].
      destruct (lookup_lt_is_Some_2 t j ltac:(lia)) as [b Hb].
      pose proof (IHi j ltac:(lia) ltac:(lia)) as Hdiag.
      pose proof (IHi (S j) ltac:(lia) ltac:(lia)) as Hup.
      specialize (IHj ltac:(lia)).
      rewrite (take_S_r s i a Ha), rev_unit in *.
      rewrite (take_S_r t j b Hb), rev_unit in Hup |- *.
      rewrite lev_S_S, Ha, Hb.
      case_decide as Heq.
      * injection Heq as ->. by constructor.
      * destruct (Z.min_spec (lev s t i j + 1)
                    (Z.min (lev s t (S i) j + 1) (lev s t i (S j) + 1)))
          as [[_ ->]|[_ ->]]; [by constructor |].
        destruct (Z.min_spec (lev s t (S i) j + 1) (lev s t i (S j) + 1))
          as [[_ ->]|[_ ->]]; by constructor.
Qed.

Lemma distance_edits s t : edits (distance s t) s t.
Proof.
  unfold distance.
  pose proof (lev_edits s t (length s) (length t) ltac:(lia) ltac:(lia)) as H.
  rewrite !firstn_all in H. apply edits_rev in H. by rewrite !rev_involutive in H.
Qed.

Lemma distance_least n s t : edits n s t → distance s t ≤ n.
Proof.
  intros H. apply edits_rev, edits_lev_le in H.
  by rewrite !rev_involutive, !length_rev in H.
Qed.

(** ** [calculateEditDistance] is the Levenshtein metric *)

(** X1.  [calculateEditDistance] returns the length of a shortest edit script:
    a script of that many insertions, deletions and substitutions of one code
    unit turns [str1] into [str2], and no script is shorter. *)
Theorem calculateEditDistance_least_script str1 str2 :
  ∃ d, calculateEditDistance str1 str2 = Some d ∧
       edits d str1 str2 ∧
       ∀ n, edits n str1 str2 → d ≤ n.
Proof.
  exists (distance str1 str2). split; [apply unbounded_spec |].
  split; [apply distance_edits |]. intros n. apply distance_least.
Qed.

(** X2.  [calculateEditDistance] is a metric: the distance is 0 exactly
    between equal strings, it does not depend on the order of the arguments,
    and it satisfies the triangle inequality. *)
Theorem calculateEditDistance_metric str1 str2 str3 :
  (calculateEditDistance str1 str2 = Some 0 ↔ str1 = str2) ∧
  calculateEditDistance str1 str2 = calculateEditDistance str2 str1 ∧
  ∃ d12 d23 d13,
    calculateEditDistance str1 str2 = Some d12 ∧
    calculateEditDistance str2 str3 = Some d23 ∧
    calculateEditDistance str1 str3 = Some d13 ∧
    d13 ≤ d12 + d23.
Proof.
  rewrite !unbounded_spec. split; [|split].
  - split.
    + intros [= Hd]. pose proof (distance_edits str1 str2) as He.
      by apply (edits_zero _ _ _ He).
    + intros ->. f_equal. apply Z.le_antisymm.
      * apply distance_least, edits_refl.
      * apply (edits_nonneg _ str2 str2), distance_edits.
  - f_equal. unfold distance. apply lev_sym.
  - exists (distance str1 str2), (distance str2 str3), (distance str1 str3).
    repeat split.
    destruct (edits_trans _ _ _ (distance_edits str1 str2) _ _
                (distance_edits str2 str3)) as (k & Hk & He).
    apply distance_least in He. lia.
Qed.

(** X3.  The result of [calculateEditDistance] is at least the difference of
    the two lengths and at most the larger length. *)
Theorem calculateEditDistance_bounds str1 str2 :
  ∃ d, calculateEditDistance str1 str2 = Some d ∧
       Z.abs (Z.of_nat (length str1) - Z.of_nat (length str2)) ≤ d ∧
       d ≤ Z.of_nat (length str1 `max` length str2).
Proof.
  exists (distance str1 str2). split; [apply unbounded_spec |].
  split; [apply lev_lower | apply lev_upper].
Qed.

(** X4.  With a bound of at least the larger of the two lengths,
    [calculateEditDistanceOptimized] returns what [calculateEditDistance]
    returns. *)
Theorem calculateEditDistanceOptimized_exact_for_large_bound
    str1 str2 maxDistance :
  Z.of_nat (length str1 `max` length str2) ≤ maxDistance →
  calculateEditDistanceOptimized str1 str2 maxDistance
  = calculateEditDistance str1 str2.
Proof.
  intros Hbig. rewrite unbounded_spec.
  destruct (optimized_spec str1 str2 maxDistance) as (r & -> & Hcases).
  f_equal. pose proof (lev_upper str1 str2 (length str1) (length str2)).
  unfold distance in *. lia.
Qed.

(** X4 on ["kitten"], ["sitting"] and the bound 7. *)
Lemma calculateEditDistanceOptimized_exact_for_large_bound_witness :
  Z.of_nat (length (of_ascii "kitten") `max` length (of_ascii "sitting")) ≤ 7 ∧
  calculateEditDistanceOptimized (of_ascii "kitten") (of_ascii "sitting") 7
  = calculateEditDistance (of_ascii "kitten") (of_ascii "sitting").
Proof.
  assert (Z.of_nat (length (of_ascii "kitten") `max` length (of_ascii "sitting"))
          ≤ 7) as H by (vm_compute; discriminate).
  split; [exact H |].
  exact (calculateEditDistanceOptimized_exact_for_large_bound _ _ _ H).
Defined.

(** ** Prefixes and substrings *)

Lemma startsWith_prefix str : ∀ search,
  startsWith str search = true ↔ ∃ rest, str = search ++ rest.
Proof.
  induction str as [|d str IH]; intros [|c search]; simpl.
  - split; [by exists [] | done].
  - split; [done | by intros (rest & ?)].
  - split; [by exists (d :: str) | done].
  - rewrite andb_true_iff, bool_decide_eq_true, IH. split.
    + intros (-> & rest & ->). by exists rest.
    + intros (rest & [= -> ->]). split; [done | by exists rest].
Qed.

Lemma includes_infix str search :
  includes str search = true ↔ ∃ before after, str = before ++ search ++ after.
Proof.
  induction str as [|d str IH].
  - change (includes [] search) with (startsWith [] search || false).
    rewrite orb_false_r, startsWith_prefix. split.
    + intros (rest & Hrest). by exists [], rest.
    + intros (before & after & Heq). symmetry in Heq.
      apply app_eq_nil in Heq as [-> Heq]. by exists after.
  - change (includes (d :: str) search)
      with (startsWith (d :: str) search || includes str search).
    rewrite orb_true_iff, startsWith_prefix, IH. split.
    + intros [(rest & ->)|(before & after & ->)].
      * by exists [], rest.
      * by exists (d :: before), after.
    + intros ([|c before] & after & Heq).
      * left. by exists after.
      * right. injection Heq as -> ->. by exists before, after.
Qed.

Lemma includes_refl str : includes str str = true.
Proof. apply includes_infix. exists [], []. by rewrite app_nil_r. Qed.

Lemma includes_antisym a b :
  includes a b = true → includes b a = true → a = b.
Proof.
  intros Hab Hba. pose proof (includes_length _ _ Hab).
  pose proof (includes_length _ _ Hba).
  apply includes_infix in Hab as (before & after & ->).
  rewrite !length_app in *.
  destruct before; [|simpl in *; lia]. destruct after; [|simpl in *; lia].
  by rewrite app_nil_r.
Qed.

Lemma run_length_ext same same' ixs :
  (∀ i, i ∈ ixs → same i = same' i) →
  run_length same ixs = run_length same' ixs.
Proof.
  induction ixs as [|i ixs IH]; intros Hext; [done |]. simpl.
  rewrite (Hext i) by left. destruct (same' i); [|done].
  f_equal. apply IH. intros j Hj. apply Hext. by right.
Qed.

Lemma run_length_all same ixs :
  (∀ i, i ∈ ixs → same i = true) → run_length same ixs = length ixs.
Proof.
  induction ixs as [|i ixs IH]; intros Hall; [done |]. simpl.
  rewrite (Hall i) by left. f_equal. apply IH. intros j Hj. apply Hall. by right.
Qed.

Lemma Qnat_ratio_same n : (0 < n)%nat → (Qnat n / Qnat n == 1)%Q.
Proof.
  intros Hn. apply Qmult_inv_r. intros Hz.
  change (inject_Z (Z.of_nat n) == inject_Z 0)%Q in Hz.
  assert (Z.of_nat n = 0) by (by apply inject_Z_injective). lia.
Qed.

(** ** Symmetric scorers *)

(** X5.  The substring, common-prefix, length and character-set scorers do not
    depend on the order of their two arguments. *)
Theorem ratio_scorers_symmetric str1 str2 :
  calculateSubstringMatch str1 str2 = calculateSubstringMatch str2 str1 ∧
  calculateCommonPrefix str1 str2 = calculateCommonPrefix str2 str1 ∧
  calculateLengthSimilarity str1 str2 = calculateLengthSimilarity str2 str1 ∧
  calculateCharSimilarity str1 str2 = calculateCharSimilarity str2 str1 ∧
  calculateCharSimilarityOptimized str1 str2
  = calculateCharSimilarityOptimized str2 str1.
Proof.
  split; [|split; [|split; [|split]]].
  - unfold calculateSubstringMatch.
    rewrite (orb_comm (bool_decide (str2 = []))).
    destruct (_ || _); [done |].
    destruct (includes str1 str2) eqn:H12, (includes str2 str1) eqn:H21; try done.
    by rewrite (includes_antisym _ _ H12 H21).
  - unfold calculateCommonPrefix.
    rewrite (orb_comm (bool_decide (str2 = []))).
    destruct (_ || _); [done |]. cbv zeta.
    rewrite (Nat.min_comm (length str2)), (Nat.max_comm (length str2)).
    rewrite (run_length_ext (λ i, bool_decide (str2 !! i = str1 !! i))
               (λ i, bool_decide (str1 !! i = str2 !! i))); [done |].
    intros i _. apply bool_decide_ext. split; congruence.
  - unfold calculateLengthSimilarity.
    rewrite (orb_comm (bool_decide (str2 = []))).
    destruct (_ || _); [done |]. cbv zeta.
    rewrite (andb_comm (bool_decide (length str2 = 0%nat))).
    rewrite (orb_comm (bool_decide (length str2 = 0%nat))).
    by rewrite (Nat.min_comm (length str2)), (Nat.max_comm (length str2)).
  - unfold calculateCharSimilarity.
    rewrite (orb_comm (bool_decide (str2 = []))).
    destruct (_ || _); [done |]. cbv zeta.
    rewrite !filter_elements_inter, !list_to_set_elements_union.
    generalize (list_to_set str1 : gset N) (list_to_set str2 : gset N).
    intros A B.
    assert (B ∩ A = A ∩ B) as -> by apply intersection_comm_L.
    by assert (B ∪ A = A ∪ B) as -> by apply union_comm_L.
  - unfold calculateCharSimilarityOptimized.
    rewrite (orb_comm (bool_decide (str2 = []))).
    destruct (_ || _); [done |].
    rewrite (bool_decide_ext (str2 = str1) (str1 = str2)) by (split; congruence).
    destruct (bool_decide (str1 = str2)); [done |]. cbv zeta.
    rewrite !count_members, !length_filter_elements.
    generalize (list_to_set (codePoints str1) : gset jsstring)
               (list_to_set (codePoints str2) : gset jsstring).
    intros A B. assert (B ∩ A = A ∩ B) as -> by apply intersection_comm_L.
    by rewrite (Z.add_comm (Z.of_nat (size B))).
Qed.

(** ** Empty and identical strings *)

(** X6.  Every scorer returns 0 when one of the two strings is empty. *)
Theorem scorers_zero_on_empty str1 str2 :
  str1 = [] ∨ str2 = [] →
  calculateSubstringMatch str1 str2 = 0%Q ∧
  calculateCommonPrefix str1 str2 = 0%Q ∧
  calculateContinuousMatch str1 str2 = 0%Q ∧
  calculateChineseWordMatch str1 str2 = 0%Q ∧
  calculateCharSimilarityOptimized str1 str2 = 0%Q ∧
  calculateCharSimilarity str1 str2 = 0%Q ∧
  calculateLengthSimilarity str1 str2 = 0%Q.
Proof.
  intros Hempty.
  assert (bool_decide (str1 = []) || bool_decide (str2 = []) = true) as Hguard.
  { destruct Hempty as [-> | ->]; [done |]. by rewrite orb_true_r. }
  unfold calculateSubstringMatch, calculateCommonPrefix, calculateContinuousMatch,
    calculateChineseWordMatch, calculateCharSimilarityOptimized,
    calculateCharSimilarity, calculateLengthSimilarity.
  by rewrite !Hguard.
Qed.

(** X6 on two empty strings. *)
Lemma scorers_zero_on_empty_witness :
  ([] = @nil N ∨ [] = @nil N) ∧
  calculateSubstringMatch [] [] = 0%Q ∧
  calculateCommonPrefix [] [] = 0%Q ∧
  calculateContinuousMatch [] [] = 0%Q ∧
  calculateChineseWordMatch [] [] = 0%Q ∧
  calculateCharSimilarityOptimized [] [] = 0%Q ∧
  calculateCharSimilarity [] [] = 0%Q ∧
  calculateLengthSimilarity [] [] = 0%Q.
Proof.
  assert ([] = @nil N ∨ [] = @nil N) as H by (left; reflexivity).
  split; [exact H |]. exact (scorers_zero_on_empty [] [] H).
Defined.

Lemma foldl_step_all {A} (f : nat → A → nat) (l : list A) :
  (∀ n x, x ∈ l → f n x = S n) →
  ∀ acc, foldl f acc l = (acc + length l)%nat.
Proof.
  induction l as [|x l IH]; intros Hf acc; simpl; [lia |].
  rewrite (Hf acc x) by left. rewrite IH; [lia |].
  intros n y Hy. apply Hf. by right.
Qed.

Lemma foldl_max_ge {A} (f : A → nat) (l : list A) x : x ∈ l → ∀ acc,
  (f x ≤ foldl (λ m y, m `max` f y)%nat acc l)%nat.
Proof.
  assert (∀ l acc, acc ≤ foldl (λ m y, m `max` f y)%nat acc l)%nat as Hmono.
  { clear. induction l as [|y l IH]; intros acc; simpl; [lia |].
    etrans; [|apply IH]. lia. }
  induction 1 as [x l|x y l _ IH]; intros acc; simpl.
  - etrans; [|apply Hmono]. lia.
  - apply IH.
Qed.

Lemma indexOf_from_NoDup (arr : jsstring) : ∀ i c k,
  NoDup arr → arr !! i = Some c → indexOf_from arr c k = k + Z.of_nat i.
Proof.
  induction arr as [|d arr IH]; intros i c k Hnd Hi; [done |].
  apply NoDup_cons in Hnd as [Hd Hnd]. simpl. destruct i as [|i].
  - injection Hi as ->. rewrite decide_True by done. lia.
  - simpl in Hi. rewrite decide_False.
    + rewrite (IH i c (k + 1) Hnd Hi). lia.
    + intros ->. apply Hd. by eapply list_elem_of_lookup_2.
Qed.

(** A search string found in the target is matched in full by the
    continuous scorer. *)
Lemma continuousMatch_substring target search :
  search ≠ [] → includes target search = true →
  (calculateContinuousMatch target search
   == (7 # 10) + Qlength search / Qlength target * (3 # 10))%Q.
Proof.
  intros Hs Hinc. pose proof (includes_length _ _ Hinc) as Hlen.
  assert (0 < length search)%nat as Hpos by (destruct search; [done | simpl; lia]).
  unfold calculateContinuousMatch.
  rewrite !bool_decide_false; [|done | intros ->; simpl in *; lia]. simpl orb.
  cbv iota zeta.
  match goal with |- context [foldl ?f 0%nat ?l] =>
    assert (foldl f 0%nat l = length search) as -> end.
  { apply includes_infix in Hinc as (before & after & ->).
    apply Nat.le_antisymm.
    - apply (foldl_max_le
        (λ i, run_length
                (λ j, bool_decide ((before ++ search ++ after) !! (i + j)%nat
                                   = search !! j))
                (seq 0 (length search)))); [lia |].
      intros i. etrans; [apply run_length_le |]. by rewrite length_seq.
    - etrans; [|apply (foldl_max_ge
        (λ i, run_length
                (λ j, bool_decide ((before ++ search ++ after) !! (i + j)%nat
                                   = search !! j))
                (seq 0 (length search))) _ (length before))].
      + rewrite run_length_all; [by rewrite length_seq |].
        intros j Hj. apply elem_of_seq in Hj. apply bool_decide_eq_true.
        rewrite lookup_app_r by lia.
        replace (length before + j - length before)%nat with j by lia.
        by rewrite lookup_app_l by lia.
      + apply elem_of_seq. rewrite !length_app. lia. }
  rewrite decide_False by lia.
  rewrite (Nat.max_l (length target) (length search)) by lia.
  change (Qnat (length search)) with (Qlength search).
  change (Qnat (length target)) with (Qlength target).
  rewrite (Qnat_ratio_same (length search) Hpos). ring.
Qed.

(** X8.  A search string that occurs in the target is matched in full by
    [calculateContinuousMatch]: the score is [0.7 + search.length /
    target.length * 0.3]. *)
Theorem calculateContinuousMatch_of_substring target search :
  search ≠ [] → includes target search = true →
  (calculateContinuousMatch target search
   == (7 # 10) + Qlength search / Qlength target * (3 # 10))%Q.
Proof. apply continuousMatch_substring. Qed.

(** X8 on ["hello world"] and ["lo w"]. *)
Lemma calculateContinuousMatch_of_substring_witness :
  of_ascii "lo w" ≠ [] ∧
  includes (of_ascii "hello world") (of_ascii "lo w") = true ∧
  (calculateContinuousMatch (of_ascii "hello world") (of_ascii "lo w")
   == (7 # 10)
      + Qlength (of_ascii "lo w") / Qlength (of_ascii "hello world") * (3 # 10))%Q.
Proof.
  assert (of_ascii "lo w" ≠ []) as H1 by discriminate.
  assert (includes (of_ascii "hello world") (of_ascii "lo w") = true) as H2
    by (vm_compute; reflexivity).
  split; [exact H1 |]. split; [exact H2 |].
  exact (calculateContinuousMatch_of_substring _ _ H1 H2).
Defined.

(** X9.  [calculateContinuousMatch] tries no offset, and returns 0, when the
    search string is longer than the target. *)
Theorem calculateContinuousMatch_longer_search target search :
  (length target < length search)%nat →
  calculateContinuousMatch target search = 0%Q.
Proof.
  intros Hlen. unfold calculateContinuousMatch.
  destruct (_ || _); [done |]. cbv zeta.
  replace (Z.to_nat (Z.of_nat (length target) - Z.of_nat (length search) + 1))
    with 0%nat by lia.
  done.
Qed.

(** X9 on ["hel"] and ["hello"]. *)
Lemma calculateContinuousMatch_longer_search_witness :
  (length (of_ascii "hel") < length (of_ascii "hello"))%nat ∧
  calculateContinuousMatch (of_ascii "hel") (of_ascii "hello") = 0%Q.
Proof.
  assert (length (of_ascii "hel") < length (of_ascii "hello"))%nat as H
    by (vm_compute; lia).
  split; [exact H |]. exact (calculateContinuousMatch_longer_search _ _ H).
Defined.

Lemma calculateChineseWordMatch_same str :
  str ≠ [] →
  ∃ orderBonus,
    unit_interval orderBonus ∧
    (NoDup str → (orderBonus == 1)%Q) ∧
    (calculateChineseWordMatch str str
     == (8 # 10) + orderBonus * (2 # 10))%Q.
Proof.
  intros Hs.
  assert (0 < length str)%nat as Hpos by (destruct str; [done | simpl; lia]).
  unfold calculateChineseWordMatch.
  rewrite !bool_decide_false by done. simpl orb. cbv iota zeta.
  rewrite (foldl_step_all
    (λ n searchChar, if array_includes str searchChar then S n else n) str).
  2:{ intros n x Hx. unfold array_includes. by rewrite bool_decide_true. }
  rewrite decide_False by lia. simpl Nat.add.
  match goal with |- context [Qdiv (Qnat (foldl ?f 0%nat ?l)) _] =>
    set (consecutiveMatches := foldl f 0%nat l) end.
  exists (Qnat consecutiveMatches / Qnat (length str))%Q.
  split; [|split; [|rewrite (Qnat_ratio_same _ Hpos); ring]].
  - apply unit_interval_ratio. unfold consecutiveMatches.
    etrans; [apply foldl_step_le |]; [|rewrite length_seq; simpl; lia].
    intros n i. simpl. case_decide; [|lia]. destruct (_ || _); lia.
  - intros Hnd. unfold consecutiveMatches. rewrite foldl_step_all.
    + rewrite length_seq. simpl. by apply Qnat_ratio_same.
    + intros n i Hi. apply elem_of_seq in Hi.
      destruct (lookup_lt_is_Some_2 str i ltac:(lia)) as [c Hc].
      rewrite Hc.
      assert (indexOf str (Some c) = Z.of_nat i) as Hidx.
      { unfold indexOf. rewrite (indexOf_from_NoDup str i c 0 Hnd Hc). lia. }
      rewrite decide_True by lia.
      destruct i as [|i]; [done |].
      destruct (lookup_lt_is_Some_2 str i ltac:(lia)) as [c' Hc'].
      assert (indexOf str (str !! (S i - 1)%nat) = Z.of_nat i) as Hidx'.
      { replace (S i - 1)%nat with i by lia. rewrite Hc'. unfold indexOf.
        rewrite (indexOf_from_NoDup str i c' 0 Hnd Hc'). lia. }
      rewrite (bool_decide_true (_ > _)) by lia. by rewrite orb_true_r.
Qed.

(** X7.  On two copies of a non-empty string the substring, common-prefix,
    continuous-run, character-set and length scorers return 1; the ideographic
    word overlap returns at least 0.8, and 1 when no code unit occurs twice in
    the string. *)
Theorem scorers_on_identical_strings str :
  str ≠ [] →
  (calculateSubstringMatch str str == 1)%Q ∧
  (calculateCommonPrefix str str == 1)%Q ∧
  (calculateContinuousMatch str str == 1)%Q ∧
  calculateCharSimilarityOptimized str str = 1%Q ∧
  (calculateCharSimilarity str str == 1)%Q ∧
  (calculateLengthSimilarity str str == 1)%Q ∧
  (8 # 10 <= calculateChineseWordMatch str str)%Q ∧
  (NoDup str → (calculateChineseWordMatch str str == 1)%Q).
Proof.
  intros Hs.
  assert (0 < length str)%nat as Hpos by (destruct str; [done | simpl; lia]).
  split; [|split; [|split; [|split; [|split; [|split; [|split]]]]]].
  - unfold calculateSubstringMatch.
    rewrite !bool_decide_false by done. simpl orb. cbv iota.
    rewrite includes_refl. by apply Qnat_ratio_same.
  - unfold calculateCommonPrefix.
    rewrite !bool_decide_false by done. simpl orb. cbv iota zeta.
    rewrite run_length_all by (intros; by apply bool_decide_eq_true).
    rewrite length_seq, Nat.min_id, Nat.max_id.
    rewrite decide_False by lia. by apply Qnat_ratio_same.
  - rewrite continuousMatch_substring by (done || apply includes_refl).
    unfold Qlength. rewrite (Qnat_ratio_same _ Hpos). ring.
  - unfold calculateCharSimilarityOptimized.
    rewrite !bool_decide_false by done. simpl orb. cbv iota.
    by rewrite bool_decide_true.
  - unfold calculateCharSimilarity.
    rewrite !bool_decide_false by done. simpl orb. cbv iota zeta.
    rewrite filter_elements_inter, list_to_set_elements_union.
    remember (list_to_set str : gset N) as A eqn:HA.
    assert (A ∩ A = A) as -> by apply (idemp_L (∩)).
    assert (A ∪ A = A) as -> by apply (idemp_L (∪)).
    assert (0 < size A)%nat as HAs.
    { assert (size A ≠ 0%nat); [|lia]. apply size_non_empty_iff.
      destruct str as [|c str']; [done |]. subst A.
      intros Hempty. apply (not_elem_of_empty (C := gset N) c).
      rewrite <- (leibniz_equiv _ _ Hempty). apply elem_of_list_to_set. by left. }
    rewrite decide_True by done. by apply Qnat_ratio_same.
  - unfold calculateLengthSimilarity.
    rewrite !bool_decide_false by done. simpl orb. cbv iota zeta.
    rewrite !bool_decide_false by lia. simpl. cbv iota.
    rewrite Nat.min_id, Nat.max_id. by apply Qnat_ratio_same.
  - destruct (calculateChineseWordMatch_same str Hs) as (ob & [Hob0 Hob1] & _ & ->).
    lra.
  - intros Hnd.
    destruct (calculateChineseWordMatch_same str Hs) as (ob & _ & Hone & ->).
    rewrite (Hone Hnd). ring.
Qed.

(** ** Tokenization *)

Lemma splitWords_from_words str : ∀ cur,
  Forall (λ c, isDelimiter c = false) cur →
  Forall (λ word, word ≠ [] ∧ Forall (λ c, isDelimiter c = false) word)
         (splitWords_from str cur) ∧
  concat (splitWords_from str cur)
  = cur ++ base.filter (λ c, isDelimiter c = false) str.
Proof.
  induction str as [|c str IH]; intros cur Hcur; simpl.
  - destruct cur as [|d cur]; simpl.
    + split; [constructor | done].
    + split; [| by rewrite !app_nil_r].
      constructor; [split; [discriminate | exact Hcur] | constructor].
  - rewrite filter_cons. destruct (isDelimiter c) eqn:Hc.
    + rewrite decide_False by done.
      destruct (IH [] ltac:(constructor)) as [Hwords Hconcat].
      destruct cur as [|d cur]; simpl.
      * done.
      * split; [| by rewrite Hconcat].
        constructor; [split; [discriminate | exact Hcur] | exact Hwords].
    + rewrite decide_True by done.
      destruct (IH (cur ++ [c])) as [Hwords Hconcat].
      { apply Forall_app. split; [done | by constructor]. }
      split; [done |]. by rewrite Hconcat, <- app_assoc.
Qed.

Lemma splitWords_from_delimiter a d b : ∀ cur,
  isDelimiter d = true →
  splitWords_from (a ++ d :: b) cur = splitWords_from a cur ++ splitWords b.
Proof.
  induction a as [|c a IH]; intros cur Hd; simpl.
  - by rewrite Hd.
  - destruct (isDelimiter c).
    + by rewrite <- app_assoc, IH.
    + by apply IH.
Qed.

Lemma splitWords_from_plain str : ∀ cur,
  Forall (λ c, isDelimiter c = false) str → cur ++ str ≠ [] →
  splitWords_from str cur = [cur ++ str].
Proof.
  induction str as [|c str IH]; intros cur Hstr Hne; simpl.
  - rewrite app_nil_r in *. by destruct cur.
  - apply Forall_cons in Hstr as [-> Hstr].
    rewrite IH; [|done |]; rewrite <- app_assoc; done.
Qed.

(** X11.  The words of a string ([split] on the delimiters, empty words
    dropped) are not empty and hold no delimiter; put end to end they are the
    string without its delimiters. *)
Theorem splitWords_words str :
  Forall (λ word, word ≠ [] ∧ Forall (λ c, isDelimiter c = false) word)
         (splitWords str) ∧
  concat (splitWords str) = base.filter (λ c, isDelimiter c = false) str.
Proof. apply (splitWords_from_words str []). constructor. Qed.

(** X12.  Splitting distributes over a delimiter: the words of [before + d +
    after] are the words of [before] followed by the words of [after]. *)
Theorem splitWords_delimiter before d after :
  isDelimiter d = true →
  splitWords (before ++ d :: after) = splitWords before ++ splitWords after.
Proof. apply splitWords_from_delimiter. Qed.

(** X12 on ["a b"], a comma and ["c"]. *)
Lemma splitWords_delimiter_witness :
  isDelimiter 44%N = true ∧
  splitWords (of_ascii "a b" ++ 44%N :: of_ascii "c")
  = splitWords (of_ascii "a b") ++ splitWords (of_ascii "c").
Proof.
  assert (isDelimiter 44%N = true) as H by (vm_compute; reflexivity).
  split; [exact H |]. exact (splitWords_delimiter _ _ _ H).
Defined.

(** X13.  A non-empty string without delimiters is its own single word. *)
Theorem splitWords_plain str :
  str ≠ [] → Forall (λ c, isDelimiter c = false) str →
  splitWords str = [str].
Proof. intros Hne Hplain. by apply (splitWords_from_plain str []). Qed.

(** X13 on ["hello"]. *)
Lemma splitWords_plain_witness :
  of_ascii "hello" ≠ [] ∧
  Forall (λ c, isDelimiter c = false) (of_ascii "hello") ∧
  splitWords (of_ascii "hello") = [of_ascii "hello"].
Proof.
  assert (of_ascii "hello" ≠ []) as H1 by discriminate.
  assert (Forall (λ c, isDelimiter c = false) (of_ascii "hello")) as H2
    by (repeat constructor).
  split; [exact H1 |]. split; [exact H2 |]. exact (splitWords_plain _ H1 H2).
Defined.

(** ** The ranking is a stable sort *)

Lemma insertByScore_sorted r sorted :
  StronglySorted byScore sorted → StronglySorted byScore (insertByScore r sorted).
Proof.
  induction 1 as [|r' sorted' Hsorted IH Hall]; simpl.
  - repeat constructor.
  - destruct (Qlt_le_dec _ _) as [Hlt|Hle].
    + constructor; [by constructor |]. constructor.
      * unfold byScore. lra.
      * eapply Forall_impl; [exact Hall |]. unfold byScore. intros x Hx. lra.
    + constructor; [done |]. rewrite insertByScore_perm.
      by constructor.
Qed.

Lemma sortByScore_sorted results : StronglySorted byScore (sortByScore results).
Proof.
  unfold sortByScore.
  assert (StronglySorted byScore []) as Hnil by constructor.
  revert Hnil. generalize (@nil SearchResult.t).
  induction results as [|r results IH]; intros acc Hacc; simpl; [done |].
  apply IH. by apply insertByScore_sorted.
Qed.

Lemma insertByScore_level q r sorted :
  StronglySorted byScore sorted →
  List.filter (scoreIs q) (insertByScore r sorted)
  = List.filter (scoreIs q) sorted ++ (if scoreIs q r then [r] else []).
Proof.
  induction 1 as [|r' sorted' Hsorted IH Hall]; simpl.
  - by destruct (scoreIs q r).
  - destruct (Qlt_le_dec _ _) as [Hlt|Hle]; simpl.
    + destruct (scoreIs q r) eqn:Hr; [|by rewrite app_nil_r].
      apply Qeq_bool_iff in Hr.
      assert (scoreIs q r' = false) as ->.
      { apply not_true_is_false. intros Hq. apply Qeq_bool_iff in Hq. lra. }
      assert (List.filter (scoreIs q) sorted' = []) as ->; [|done].
      clear IH Hsorted. induction Hall as [|x l Hx Hl IHl]; simpl; [done |].
      assert (scoreIs q x = false) as ->; [|done].
      apply not_true_is_false. intros Hq. apply Qeq_bool_iff in Hq.
      unfold byScore in Hx. lra.
    + rewrite IH. by destruct (scoreIs q r').
Qed.

Lemma sortByScore_level q results :
  List.filter (scoreIs q) (sortByScore results) = List.filter (scoreIs q) results.
Proof.
  unfold sortByScore.
  enough (∀ acc, StronglySorted byScore acc →
            List.filter (scoreIs q)
              (foldl (λ sorted r, insertByScore r sorted) acc results)
            = List.filter (scoreIs q) acc ++ List.filter (scoreIs q) results)
    as H by (apply (H []); constructor).
  induction results as [|r results IH]; intros acc Hacc; simpl.
  - by rewrite app_nil_r.
  - rewrite IH by (by apply insertByScore_sorted).
    rewrite insertByScore_level by done. rewrite <- app_assoc.
    by destruct (scoreIs q r).
Qed.

Lemma filter_head_split {A} (p : A → bool) l r :
  head (List.filter p l) = Some r →
  ∃ l1 l2, l = l1 ++ r :: l2 ∧ Forall (λ x, p x = false) l1 ∧ p r = true.
Proof.
  induction l as [|x l IH]; simpl; [done |].
  destruct (p x) eqn:Hx; simpl.
  - intros [= ->]. exists [], l. by repeat split.
  - intros (l1 & l2 & -> & Hl1 & Hr)%IH. exists (x :: l1), l2.
    split; [done |]. split; [by constructor | done].
Qed.

Lemma filter_split {A} (p : A → bool) l f1 r f2 :
  List.filter p l = f1 ++ r :: f2 →
  ∃ l1 l2, l = l1 ++ r :: l2 ∧ List.filter p l1 = f1 ∧ List.filter p l2 = f2.
Proof.
  revert f1. induction l as [|x l IH]; intros f1; simpl.
  - by destruct f1.
  - destruct (p x) eqn:Hx.
    + destruct f1 as [|y f1]; simpl.
      * intros [= -> <-]. exists [], l. by repeat split.
      * intros [= -> (l1 & l2 & -> & <- & <-)%IH].
        exists (y :: l1), l2. simpl. by rewrite Hx.
    + intros (l1 & l2 & -> & <- & <-)%IH.
      exists (x :: l1), l2. simpl. by rewrite Hx.
Qed.

(** The first result of the ranking: it clears the threshold, no result
    has a larger score, and the results before it in the input have a
    smaller one. *)
Lemma head_ranking minScore results r :
  head (sortByScore (filterByScore minScore results)) = Some r →
  ∃ before after,
    results = before ++ r :: after ∧
    (minScore <= SearchResult.score r)%Q ∧
    Forall (λ x, (SearchResult.score x < SearchResult.score r)%Q) before ∧
    Forall (λ x, (SearchResult.score x <= SearchResult.score r)%Q) after.
Proof.
  intros Hhead.
  set (kept := filterByScore minScore results) in *.
  set (ranked := sortByScore kept) in *.
  assert (StronglySorted byScore ranked) as Hsorted by apply sortByScore_sorted.
  assert (ranked ≡ₚ kept) as Hperm by apply sortByScore_perm.
  assert (∀ x, x ∈ kept → (SearchResult.score x <= SearchResult.score r)%Q)
    as Hmax.
  { intros x Hx. rewrite <- Hperm in Hx.
    destruct ranked as [|r0 ranked']; [done |]. injection Hhead as ->.
    apply StronglySorted_inv in Hsorted as [_ Hall].
    apply elem_of_cons in Hx as [-> | Hx]; [lra |].
    by apply (proj1 (Forall_forall _ _) Hall). }
  assert (head (List.filter (scoreIs (SearchResult.score r)) kept) = Some r)
    as Hfirst.
  { rewrite <- (sortByScore_level _ kept). fold ranked.
    destruct ranked as [|r0 ranked']; [done |]. injection Hhead as ->.
    simpl. unfold scoreIs at 1. by rewrite Qeq_bool_refl. }
  apply filter_head_split in Hfirst as (f1 & f2 & Hkept & Hf1 & _).
  assert (r ∈ kept) as Hr by (rewrite Hkept, elem_of_app, elem_of_cons; auto).
  apply elem_of_filterByScore in Hr as [_ Hr].
  assert (∀ x, x ∈ results → (minScore <= SearchResult.score x)%Q →
               x ∈ kept) as Hin.
  { intros x Hx Hs. by apply elem_of_filterByScore. }
  apply filter_split in Hkept as (before & after & -> & Hb & Ha).
  exists before, after. split; [done |]. split; [done |].
  split; apply Forall_forall; intros x Hx.
  - destruct (Qlt_le_dec (SearchResult.score x) minScore) as [Hlow|Hhigh];
      [lra |].
    assert (x ∈ f1) as Hxf.
    { rewrite <- Hb. unfold filterByScore.
      rewrite list_elem_of_In, filter_In, <- list_elem_of_In, Qle_bool_iff.
      done. }
    pose proof (proj1 (Forall_forall _ _) Hf1 x Hxf) as Hne.
    assert (SearchResult.score x <= SearchResult.score r)%Q as Hle.
    { apply Hmax, Hin; [|done]. rewrite elem_of_app; auto. }
    destruct (Qlt_le_dec (SearchResult.score x) (SearchResult.score r))
      as [Hlt|Hge]; [done |].
    exfalso. apply not_true_iff_false in Hne. apply Hne.
    apply Qeq_bool_iff. lra.
  - destruct (Qlt_le_dec (SearchResult.score x) minScore) as [Hlow|Hhigh];
      [lra |].
    apply Hmax, Hin; [|done]. rewrite elem_of_app, elem_of_cons; auto.
Qed.

Lemma head_ranking_none minScore results :
  head (sortByScore (filterByScore minScore results)) = None →
  Forall (λ x, (SearchResult.score x < minScore)%Q) results.
Proof.
  intros Hhead. apply Forall_forall. intros x Hx.
  destruct (Qlt_le_dec (SearchResult.score x) minScore) as [Hlow|Hhigh];
    [done |].
  assert (x ∈ sortByScore (filterByScore minScore results)) as Hin.
  { rewrite sortByScore_perm. by apply elem_of_filterByScore. }
  destruct (sortByScore _); [by apply elem_of_nil in Hin | done].
Qed.

(** ** The result of one candidate, by cases *)

Section Items.
Variable toLowerCase : jsstring → jsstring.
Variables (w : WeightConfig.t) (minScore : Q) (cs ec : bool) (M : Z)
          (f : string) (nst : jsstring) (sw : list jsstring).

Lemma editStage_cases nfv running maxScore editScore d maxLength :
  editStage w minScore M nfv nst running
  = Some (maxScore, editScore, d, maxLength) →
  (maxScore = running ∧ editScore = 0%Q) ∨
  ((running < minScore)%Q ∧ d = distance nfv nst ∧ d ≤ M ∧
   maxLength = Z.of_nat (length nfv `max` length nst) ∧
   editScore
   = ((if decide (maxLength > 0)%Z
       then (inject_Z (maxLength - d) / inject_Z maxLength)%Q else 0%Q)
      * WeightConfig.charSimilarity w * (5 # 10))%Q ∧
   maxScore = Qmax running editScore).
Proof.
  unfold editStage. destruct (Qlt_le_dec running minScore) as [Hlt|Hge].
  - destruct (optimized_spec nfv nst M) as (r & -> & Hcases). simpl.
    destruct (decide (r ≤ M)) as [Hle|Hgt].
    + intros [= <- <- <- <-]. right.
      destruct Hcases as [-> | [-> _]]; [|lia]. done.
    + intros [= <- <- <- <-]. by left.
  - intros [= <- <- <- <-]. by left.
Qed.

Lemma scoreOf_cases item r :
  scoreOf toLowerCase w minScore cs ec M f nst sw item = Some r →
  let nfv := normalize toLowerCase cs (ToString (getField item f)) in
  let lengthDiff :=
    Z.abs (Z.of_nat (length nfv) - Z.of_nat (length nst)) in
  (r = unscored item None ∧
   (toBoolean (getField item f) = false ∨ M * 2 < lengthDiff)) ∨
  (toBoolean (getField item f) = true ∧ lengthDiff ≤ M * 2 ∧ nfv = nst ∧
   r = {| SearchResult.item := item;
          SearchResult.score := WeightConfig.exactMatch w;
          SearchResult.details :=
            {| MatchDetails.exactMatch := true;
               MatchDetails.prefixMatch := true;
               MatchDetails.containsMatch := true;
               MatchDetails.charSimilarity := 1;
               MatchDetails.lengthSimilarity := 1;
               MatchDetails.editSimilarity := 1;
               MatchDetails.wordMatches := None |} |}) ∨
  (toBoolean (getField item f) = true ∧ lengthDiff ≤ M * 2 ∧ nfv ≠ nst ∧
   ∃ maxScore editScore d maxLength,
     editStage w minScore M nfv nst
       (heuristicScore w nfv nst sw (splitWords nfv)
          (calculateCharSimilarityOptimized nfv nst)
          (calculateLengthSimilarity nfv nst))
     = Some (maxScore, editScore, d, maxLength) ∧
     r = {| SearchResult.item := item;
            SearchResult.score := maxScore;
            SearchResult.details :=
              {| MatchDetails.exactMatch := false;
                 MatchDetails.prefixMatch := isPrefixMatch nfv nst;
                 MatchDetails.containsMatch := isContainsMatch nfv nst;
                 MatchDetails.charSimilarity :=
                   calculateCharSimilarityOptimized nfv nst;
                 MatchDetails.lengthSimilarity :=
                   calculateLengthSimilarity nfv nst;
                 MatchDetails.editSimilarity :=
                   if Qlt_le_dec 0 editScore
                   then (inject_Z (maxLength - d) / inject_Z maxLength)%Q
                   else 0%Q;
                 MatchDetails.wordMatches := None |} |}).
Proof.
  intros Hr nfv lengthDiff.
  unfold scoreOf, scoreItem in Hr. cbv zeta in Hr. fold nfv in Hr.
  destruct (toBoolean (getField item f)) eqn:Htruthy; simpl in Hr;
    [|injection Hr as <-; left; auto].
  fold lengthDiff in Hr.
  destruct (decide (lengthDiff > M * 2)) as [Hgap|Hgap]; simpl in Hr;
    [injection Hr as <-; left; split; [done | right; lia] |].
  right. destruct (decide (nfv = nst)) as [Heq|Hne].
  - rewrite bool_decide_true in Hr by done. simpl in Hr.
    injection Hr as <-. left. repeat split; [lia | done].
  - rewrite bool_decide_false in Hr by done.
    destruct (cachedCharSimilarity_ok ec ∅ nfv nst (cache_ok_empty _))
      as (cache0 & Hc & _).
    rewrite Hc in Hr. clear Hc.
    destruct (editStage _ _ _ _ _ _) as [[[[maxScore editScore] d] maxLength]|]
      eqn:Hedit; simpl in Hr; [|done].
    injection Hr as <-. right. split; [done |]. split; [lia |].
    split; [done |]. by exists maxScore, editScore, d, maxLength.
Qed.

Lemma scoreOf_item item r :
  scoreOf toLowerCase w minScore cs ec M f nst sw item = Some r →
  SearchResult.item r = item.
Proof.
  intros Hr. apply scoreOf_cases in Hr. cbv zeta in Hr.
  destruct Hr as [[-> _] | [(_ & _ & _ & ->) | (_ & _ & _ & Hr)]]; [done.. |].
  by destruct Hr as (? & ? & ? & ? & _ & ->).
Qed.

End Items.

(** ** What the two entry points return *)

Lemma filterByScore_sublist minScore results :
  filterByScore minScore results `sublist_of` results.
Proof.
  unfold filterByScore. induction results as [|r results IH]; simpl.
  - constructor.
  - destruct (Qle_bool _ _); by constructor.
Qed.

Section Results.
Variable toLowerCase : jsstring → jsstring.

Lemma candidateResults_items f searchTerm options items scored :
  Forall2 (λ item r,
             candidateResult toLowerCase f searchTerm options item = Some r)
          items scored →
  SearchResult.item <$> scored = items.
Proof.
  induction 1 as [|item r items scored Hr _ IH]; csimpl; [done |].
  rewrite IH. f_equal. by eapply scoreOf_item.
Qed.

Lemma scoreItemAll_items w cs f nst sw items scored :
  Forall2 (λ item r, scoreItemAll toLowerCase w cs f nst sw item = Some r)
          items scored →
  SearchResult.item <$> scored = items.
Proof.
  induction 1 as [|item r items scored Hr _ IH]; csimpl; [done |].
  rewrite IH. f_equal.
  destruct (scoreItemAll_total toLowerCase w cs f nst sw item)
    as (r' & Hr' & Hitem).
  congruence.
Qed.

Lemma smartFuzzySearch_head items f searchTerm options :
  f ≠ EmptyString → searchTerm ≠ [] →
  (2 ≤ length (normalize toLowerCase (caseSensitiveOf options) searchTerm))%nat →
  ∃ scored,
    scoredItems toLowerCase (Some items) (Some f) searchTerm options
    = Some (Some scored) ∧
    Forall2 (λ item r,
               candidateResult toLowerCase f searchTerm options item = Some r)
            items scored ∧
    ((∃ before r after,
        scored = before ++ r :: after ∧
        smartFuzzySearch toLowerCase (Some items) (Some f) searchTerm options
        = Some (Some (SearchResult.item r)) ∧
        items !! length before = Some (SearchResult.item r) ∧
        (minScoreOf options <= SearchResult.score r)%Q ∧
        Forall (λ x, (SearchResult.score x < SearchResult.score r)%Q) before ∧
        Forall (λ x, (SearchResult.score x <= SearchResult.score r)%Q) after) ∨
     (smartFuzzySearch toLowerCase (Some items) (Some f) searchTerm options
      = Some None ∧
      Forall (λ x, (SearchResult.score x < minScoreOf options)%Q) scored)).
Proof.
  intros Hf Hterm Hlen.
  destruct (scoredItems_pass toLowerCase items f searchTerm options Hf Hterm Hlen)
    as (scored & Hscored & Hall).
  pose proof (candidateResults_items _ _ _ _ _ Hall) as Hitems.
  exists scored. split; [done |]. split; [done |].
  unfold smartFuzzySearch. rewrite Hscored. simpl.
  destruct (head (sortByScore (filterByScore (minScoreOf options) scored)))
    as [r|] eqn:Hhead.
  - left. apply head_ranking in Hhead
      as (before & after & -> & Hmin & Hbefore & Hafter).
    exists before, r, after. repeat split; try done.
    rewrite <- Hitems, list_lookup_fmap.
    by rewrite (list_lookup_middle before after r).
  - right. split; [done |]. by apply head_ranking_none.
Qed.

(** X14.  [smartFuzzySearch], past its guards, returns the item of the first
    candidate of the largest score when that score reaches [minScore], and
    [null] when no candidate reaches it. *)
Theorem smartFuzzySearch_first_best items f searchTerm options :
  f ≠ EmptyString → searchTerm ≠ [] →
  (2 ≤ length (normalize toLowerCase (caseSensitiveOf options) searchTerm))%nat →
  ∃ scored,
    scoredItems toLowerCase (Some items) (Some f) searchTerm options
    = Some (Some scored) ∧
    SearchResult.item <$> scored = items ∧
    ((∃ before r after,
        scored = before ++ r :: after ∧
        smartFuzzySearch toLowerCase (Some items) (Some f) searchTerm options
        = Some (Some (SearchResult.item r)) ∧
        items !! length before = Some (SearchResult.item r) ∧
        (minScoreOf options <= SearchResult.score r)%Q ∧
        Forall (λ x, (SearchResult.score x < SearchResult.score r)%Q) before ∧
        Forall (λ x, (SearchResult.score x <= SearchResult.score r)%Q) after) ∨
     (smartFuzzySearch toLowerCase (Some items) (Some f) searchTerm options
      = Some None ∧
      Forall (λ x, (SearchResult.score x < minScoreOf options)%Q) scored)).
Proof.
  intros Hf Hterm Hlen.
  destruct (smartFuzzySearch_head items f searchTerm options Hf Hterm Hlen)
    as (scored & Hscored & Hall & Hcases).
  exists scored. split; [done |]. split; [|done].
  by eapply candidateResults_items.
Qed.

(** X20.  [smartFuzzySearchAll], past its guards, returns the items of the
    candidates that reach [minScore], each once, in the order of
    non-increasing score, candidates of equal score staying in the order of
    the input. *)
Theorem smartFuzzySearchAll_ranking items f searchTerm options :
  f ≠ EmptyString → searchTerm ≠ [] →
  ∃ scored ranked,
    scoredItemsAll toLowerCase (Some items) (Some f) searchTerm options
    = Some (Some scored) ∧
    SearchResult.item <$> scored = items ∧
    smartFuzzySearchAll toLowerCase (Some items) (Some f) searchTerm options
    = Some (SearchResult.item <$> ranked) ∧
    ranked ≡ₚ filterByScore (minScoreOf options) scored ∧
    StronglySorted byScore ranked ∧
    ∀ q, List.filter (scoreIs q) ranked
         = List.filter (scoreIs q) (filterByScore (minScoreOf options) scored).
Proof.
  intros Hf Hterm.
  destruct (scoredItemsAll_pass toLowerCase items f searchTerm options Hf Hterm)
    as (scored & Hscored & Hall).
  apply scoreItemAll_items in Hall.
  exists scored, (sortByScore (filterByScore (minScoreOf options) scored)).
  split; [done |]. split; [done |].
  split; [unfold smartFuzzySearchAll; by rewrite Hscored |].
  split; [apply sortByScore_perm |].
  split; [apply sortByScore_sorted |]. intros q. apply sortByScore_level.
Qed.

(** X21.  [smartFuzzySearchAll] returns a selection of the items it is given:
    no item is made up, none is returned more often than it occurs in the
    input. *)
Theorem smartFuzzySearchAll_selection items field searchTerm options :
  ∃ out,
    smartFuzzySearchAll toLowerCase (Some items) field searchTerm options
    = Some out ∧
    out ⊆+ items ∧ (length out ≤ length items)%nat.
Proof.
  enough (∃ out,
            smartFuzzySearchAll toLowerCase (Some items) field searchTerm options
            = Some out ∧ out ⊆+ items) as (out & Hout & Hsub).
  { exists out. split; [done |]. split; [done |]. by apply submseteq_length. }
  destruct (decide (field = None ∨ field = Some EmptyString ∨ searchTerm = []))
    as [Hfail|Hpass].
  - exists []. split; [|apply submseteq_nil_l].
    unfold smartFuzzySearchAll. rewrite scoredItemsAll_fail by tauto. done.
  - destruct field as [f|]; [|tauto].
    destruct (scoredItemsAll_pass toLowerCase items f searchTerm options)
      as (scored & Hscored & Hall); [naive_solver | tauto |].
    apply scoreItemAll_items in Hall.
    eexists. split; [unfold smartFuzzySearchAll; by rewrite Hscored |].
    rewrite sortByScore_perm, <- Hall.
    apply fmap_submseteq, sublist_submseteq, filterByScore_sublist.
Qed.

(** X22.  [smartFuzzySearchAll] returns the empty list when the collection is
    not an array, the field is not given or empty, or the search term is
    empty. *)
Theorem smartFuzzySearchAll_guards lst field searchTerm options :
  lst = None ∨ field = None ∨ field = Some EmptyString ∨ searchTerm = [] →
  smartFuzzySearchAll toLowerCase lst field searchTerm options = Some [].
Proof.
  intros Hcases. unfold smartFuzzySearchAll.
  by rewrite scoredItemsAll_fail.
Qed.

End Results.

(** ** The booleans of the details *)

Lemma isPrefixMatch_refl str : isPrefixMatch str str = true.
Proof.
  unfold isPrefixMatch. apply orb_true_iff. left.
  apply startsWith_prefix. exists []. by rewrite app_nil_r.
Qed.

Lemma isPrefixMatch_contains a b :
  isPrefixMatch a b = true → isContainsMatch a b = true.
Proof.
  unfold isPrefixMatch, isContainsMatch. rewrite !orb_true_iff.
  intros [H|H]; [left | right];
    apply startsWith_prefix in H as [rest ->];
    apply includes_infix; by exists [], rest.
Qed.

Section Details.
Variable toLowerCase : jsstring → jsstring.

Lemma scoreOf_nested w minScore cs ec M f nst sw item r :
  scoreOf toLowerCase w minScore cs ec M f nst sw item = Some r →
  detailsNested (SearchResult.details r).
Proof.
  intros Hr. apply scoreOf_cases in Hr. cbv zeta in Hr.
  destruct Hr as [[-> _] | [(_ & _ & _ & ->) | (_ & _ & _ & Hr)]].
  - by split.
  - by split.
  - destruct Hr as (? & ? & ? & ? & _ & ->). split; simpl; [done |].
    apply isPrefixMatch_contains.
Qed.

Lemma scoreItemAll_nested w cs f nst sw item r :
  scoreItemAll toLowerCase w cs f nst sw item = Some r →
  detailsNested (SearchResult.details r).
Proof.
  unfold scoreItemAll. destruct (toBoolean _); simpl.
  - rewrite unbounded_spec. simpl. destruct (accumulateAll _ _ _ _ _ _ _ _).
    intros [= <-]. split; simpl.
    + intros ->%bool_decide_eq_true. apply isPrefixMatch_refl.
    + apply isPrefixMatch_contains.
  - intros [= <-]. by split.
Qed.

(** X26.  In every result either entry point builds, the three booleans of the
    details are nested: [exactMatch] implies [prefixMatch], which implies
    [containsMatch]. *)
Theorem match_details_nested lst field searchTerm options :
  (∃ scored,
     scoredItems toLowerCase lst field searchTerm options = Some scored ∧
     ∀ results r, scored = Some results → r ∈ results →
                  detailsNested (SearchResult.details r)) ∧
  (∃ scored,
     scoredItemsAll toLowerCase lst field searchTerm options = Some scored ∧
     ∀ results r, scored = Some results → r ∈ results →
                  detailsNested (SearchResult.details r)).
Proof.
  split.
  - destruct (decide (lst = None ∨ field = None ∨ field = Some EmptyString
                      ∨ searchTerm = []
                      ∨ (length (normalize toLowerCase (caseSensitiveOf options)
                                   searchTerm) < 2)%nat)) as [Hfail|Hpass].
    + rewrite scoredItems_fail by done. eexists. split; [done |]. done.
    + destruct lst as [items|]; [|tauto]. destruct field as [f|]; [|tauto].
      destruct (scoredItems_pass toLowerCase items f searchTerm options)
        as (scored & -> & Hall); [naive_solver | tauto | lia |].
      eexists. split; [done |]. intros results r [= <-] Hr.
      apply list_elem_of_lookup in Hr as [k Hk].
      destruct (Forall2_lookup_r _ _ _ _ _ Hall Hk) as (item & _ & Hitem).
      by eapply scoreOf_nested.
  - destruct (decide (lst = None ∨ field = None ∨ field = Some EmptyString
                      ∨ searchTerm = [])) as [Hfail|Hpass].
    + rewrite scoredItemsAll_fail by done. eexists. split; [done |]. done.
    + destruct lst as [items|]; [|tauto]. destruct field as [f|]; [|tauto].
      destruct (scoredItemsAll_pass toLowerCase items f searchTerm options)
        as (scored & -> & Hall); [naive_solver | tauto |].
      eexists. split; [done |]. intros results r [= <-] Hr.
      apply list_elem_of_lookup in Hr as [k Hk].
      destruct (Forall2_lookup_r _ _ _ _ _ Hall Hk) as (item & _ & Hitem).
      by eapply scoreItemAll_nested.
Qed.

End Details.

(** ** The cache is not observable *)

Section Cache.
Variable toLowerCase : jsstring → jsstring.

Lemma scoreOf_enableCache w minScore cs ec1 ec2 M f nst sw item :
  scoreOf toLowerCase w minScore cs ec1 M f nst sw item
  = scoreOf toLowerCase w minScore cs ec2 M f nst sw item.
Proof.
  unfold scoreOf, scoreItem. cbv zeta.
  destruct (negb _); [done |]. destruct (decide _); [done |].
  destruct (bool_decide _); [done |].
  set (nfv := normalize toLowerCase cs (ToString (getField item f))).
  destruct (cachedCharSimilarity_ok ec1 ∅ nfv nst (cache_ok_empty _))
    as (cache1 & -> & _).
  destruct (cachedCharSimilarity_ok ec2 ∅ nfv nst (cache_ok_empty _))
    as (cache2 & -> & _).
  destruct (editStage _ _ _ _ _ _) as [[[[? ?] ?] ?]|]; done.
Qed.

Lemma Forall2_functional {A B} (g : A → option B) l k1 k2 :
  Forall2 (λ a b, g a = Some b) l k1 →
  Forall2 (λ a b, g a = Some b) l k2 → k1 = k2.
Proof.
  intros H1. revert k2. induction H1 as [|a b l k1 Hab _ IH]; intros k2 H2.
  - by apply Forall2_nil_inv_l in H2.
  - apply Forall2_cons_inv_l in H2 as (b' & k2' & Hab' & H2 & ->).
    f_equal; [congruence | by apply IH].
Qed.

(** X19.  Two calls of [smartFuzzySearch] whose options differ only in
    [enableCache] build the same array of results and return the same item. *)
Theorem enableCache_not_observable lst field searchTerm options1 options2 :
  SearchOptions.minScore options1 = SearchOptions.minScore options2 →
  SearchOptions.caseSensitive options1 = SearchOptions.caseSensitive options2 →
  SearchOptions.weightConfig options1 = SearchOptions.weightConfig options2 →
  SearchOptions.maxEditDistance options1
  = SearchOptions.maxEditDistance options2 →
  scoredItems toLowerCase lst field searchTerm options1
  = scoredItems toLowerCase lst field searchTerm options2 ∧
  smartFuzzySearch toLowerCase lst field searchTerm options1
  = smartFuzzySearch toLowerCase lst field searchTerm options2.
Proof.
  intros Hmin Hcase Hweights Hmax.
  assert (minScoreOf options1 = minScoreOf options2) as Hmin'
    by (unfold minScoreOf; by rewrite Hmin).
  assert (caseSensitiveOf options1 = caseSensitiveOf options2) as Hcase'
    by (unfold caseSensitiveOf; by rewrite Hcase).
  assert (weightConfigOf options1 = weightConfigOf options2) as Hweights'
    by (unfold weightConfigOf; by rewrite Hweights).
  assert (maxEditDistanceOf options1 = maxEditDistanceOf options2) as Hmax'
    by (unfold maxEditDistanceOf; by rewrite Hmax).
  assert (scoredItems toLowerCase lst field searchTerm options1
          = scoredItems toLowerCase lst field searchTerm options2) as Hsame.
  { destruct (decide (lst = None ∨ field = None ∨ field = Some EmptyString
                      ∨ searchTerm = []
                      ∨ (length (normalize toLowerCase (caseSensitiveOf options1)
                                   searchTerm) < 2)%nat)) as [Hfail|Hpass].
    - rewrite (scoredItems_fail toLowerCase lst field searchTerm options1)
        by done.
      rewrite Hcase' in Hfail. by rewrite scoredItems_fail.
    - destruct lst as [items|]; [|tauto]. destruct field as [f|]; [|tauto].
      destruct (scoredItems_pass toLowerCase items f searchTerm options1)
        as (scored1 & -> & Hall1); [naive_solver | tauto | lia |].
      destruct (scoredItems_pass toLowerCase items f searchTerm options2)
        as (scored2 & -> & Hall2);
        [naive_solver | tauto | rewrite <- Hcase'; lia |].
      do 2 f_equal. eapply Forall2_functional; [exact Hall1 |].
      eapply Forall2_impl; [exact Hall2 |]. intros item r <-.
      unfold candidateResult. cbv zeta.
      rewrite Hmin', Hcase', Hweights', Hmax'. apply scoreOf_enableCache. }
  split; [done |]. unfold smartFuzzySearch. by rewrite Hsame, Hmin'.
Qed.

End Cache.

(** X19 on the example collection and the term ["helo"]. *)
Lemma enableCache_not_observable_witness :
  let options1 := SearchOptions.mk None None None (Some true) None in
  let options2 := SearchOptions.mk None None None (Some false) None in
  SearchOptions.minScore options1 = SearchOptions.minScore options2 ∧
  SearchOptions.caseSensitive options1 = SearchOptions.caseSensitive options2 ∧
  SearchOptions.weightConfig options1 = SearchOptions.weightConfig options2 ∧
  SearchOptions.maxEditDistance options1
  = SearchOptions.maxEditDistance options2 ∧
  scoredItems toLowerCaseLatin (Some example_items) (Some "name"%string)
    (of_ascii "helo") options1
  = scoredItems toLowerCaseLatin (Some example_items) (Some "name"%string)
      (of_ascii "helo") options2 ∧
  smartFuzzySearch toLowerCaseLatin (Some example_items) (Some "name"%string)
    (of_ascii "helo") options1
  = smartFuzzySearch toLowerCaseLatin (Some example_items) (Some "name"%string)
      (of_ascii "helo") options2.
Proof.
  intros options1 options2.
  assert (SearchOptions.minScore options1 = SearchOptions.minScore options2)
    as H1 by reflexivity.
  assert (SearchOptions.caseSensitive options1
          = SearchOptions.caseSensitive options2) as H2 by reflexivity.
  assert (SearchOptions.weightConfig options1
          = SearchOptions.weightConfig options2) as H3 by reflexivity.
  assert (SearchOptions.maxEditDistance options1
          = SearchOptions.maxEditDistance options2) as H4 by reflexivity.
  split; [exact H1 |]. split; [exact H2 |]. split; [exact H3 |].
  split; [exact H4 |].
  exact (enableCache_not_observable toLowerCaseLatin (Some example_items)
           (Some "name"%string) (of_ascii "helo") options1 options2
           H1 H2 H3 H4).
Defined.

(** ** Candidates that are not scored *)

Section Skipped.
Variable toLowerCase : jsstring → jsstring.

(** X16.  In a call of [smartFuzzySearch] that passes the guards, a candidate
    whose field value is falsy, or whose normalized field value differs in
    length from the normalized search term by more than twice
    [maxEditDistance], gets the score 0 and all-false details. *)
Theorem candidates_skipped items f searchTerm options k item :
  let nst := normalize toLowerCase (caseSensitiveOf options) searchTerm in
  let nfv := normalize toLowerCase (caseSensitiveOf options)
               (ToString (getField item f)) in
  f ≠ EmptyString → searchTerm ≠ [] → (2 ≤ length nst)%nat →
  items !! k = Some item →
  toBoolean (getField item f) = false ∨
  maxEditDistanceOf options * 2
  < Z.abs (Z.of_nat (length nfv) - Z.of_nat (length nst)) →
  ∃ scored,
    scoredItems toLowerCase (Some items) (Some f) searchTerm options
    = Some (Some scored) ∧
    scored !! k = Some (unscored item None).
Proof.
  intros nst nfv Hf Hterm Hlen Hk Hskip.
  destruct (scoredItems_pass toLowerCase items f searchTerm options Hf Hterm Hlen)
    as (scored & Hscored & Hall).
  destruct (Forall2_lookup_l _ _ _ _ _ Hall Hk) as (r & Hr & Hres).
  exists scored. split; [done |]. rewrite Hr. f_equal.
  apply scoreOf_cases in Hres. cbv zeta in Hres. fold nst nfv in Hres.
  destruct Hres as [[-> _] | [(Ht & Hgap & _) | (Ht & Hgap & _)]]; [done | |];
    destruct Hskip as [Hfalsy | Hfar]; solve [congruence | lia].
Qed.

(** X15.  An item returned by [smartFuzzySearch] is an element of the
    collection whose result has a score of at least [minScore]; when
    [minScore] is positive, its field value is truthy and the length of its
    normalized field value is within twice [maxEditDistance] of the length of
    the normalized search term. *)
Theorem smartFuzzySearch_threshold lst field searchTerm options item :
  smartFuzzySearch toLowerCase lst field searchTerm options = Some (Some item) →
  ∃ items f r,
    lst = Some items ∧ field = Some f ∧ item ∈ items ∧
    candidateResult toLowerCase f searchTerm options item = Some r ∧
    (minScoreOf options <= SearchResult.score r)%Q ∧
    ((0 < minScoreOf options)%Q →
     let nst := normalize toLowerCase (caseSensitiveOf options) searchTerm in
     let nfv := normalize toLowerCase (caseSensitiveOf options)
                  (ToString (getField item f)) in
     toBoolean (getField item f) = true ∧
     Z.abs (Z.of_nat (length nfv) - Z.of_nat (length nst))
     ≤ maxEditDistanceOf options * 2).
Proof.
  intros Hres.
  destruct (decide (lst = None ∨ field = None ∨ field = Some EmptyString
                    ∨ searchTerm = []
                    ∨ (length (normalize toLowerCase (caseSensitiveOf options)
                                 searchTerm) < 2)%nat)) as [Hfail|Hpass].
  { unfold smartFuzzySearch in Hres.
    rewrite scoredItems_fail in Hres by done. done. }
  destruct lst as [items|]; [|tauto]. destruct field as [f|]; [|tauto].
  destruct (smartFuzzySearch_head toLowerCase items f searchTerm options)
    as (scored & Hscored & Hall & Hcases); [naive_solver | tauto | lia |].
  destruct Hcases as [(before & r & after & -> & Hret & Hk & Hmin & _) | [Hnone _]];
    [|congruence].
  rewrite Hret in Hres. injection Hres as <-.
  destruct (Forall2_lookup_l _ _ _ _ _ Hall Hk) as (r' & Hr' & Hcand).
  rewrite (list_lookup_middle before after r) in Hr' by done.
  injection Hr' as <-.
  exists items, f, r. split; [done |]. split; [done |].
  split; [by eapply list_elem_of_lookup_2 |]. split; [done |].
  split; [done |]. intros Hpos. cbv zeta.
  apply scoreOf_cases in Hcand. cbv zeta in Hcand.
  destruct Hcand as [[Hr _] | [(Ht & Hgap & _) | (Ht & Hgap & _)]]; [|done..].
  rewrite Hr in Hmin. change (minScoreOf options <= 0)%Q in Hmin. lra.
Qed.

(** X23.  With a positive [minScore], every item returned by
    [smartFuzzySearchAll] is an element of the collection with a truthy field
    value. *)
Theorem smartFuzzySearchAll_truthy lst field searchTerm options out item :
  (0 < minScoreOf options)%Q →
  smartFuzzySearchAll toLowerCase lst field searchTerm options = Some out →
  item ∈ out →
  ∃ items f,
    lst = Some items ∧ field = Some f ∧ item ∈ items ∧
    toBoolean (getField item f) = true.
Proof.
  intros Hpos Hout Hin.
  destruct (decide (lst = None ∨ field = None ∨ field = Some EmptyString
                    ∨ searchTerm = [])) as [Hfail|Hpass].
  { unfold smartFuzzySearchAll in Hout.
    rewrite scoredItemsAll_fail in Hout by done. injection Hout as <-.
    by apply elem_of_nil in Hin. }
  destruct lst as [items|]; [|tauto]. destruct field as [f|]; [|tauto].
  destruct (scoredItemsAll_pass toLowerCase items f searchTerm options)
    as (scored & Hscored & Hall); [naive_solver | tauto |].
  unfold smartFuzzySearchAll in Hout. rewrite Hscored in Hout.
  injection Hout as <-.
  apply list_elem_of_fmap in Hin as (r & -> & Hr).
  rewrite sortByScore_perm in Hr.
  apply elem_of_filterByScore in Hr as [Hr Hscore].
  apply list_elem_of_lookup in Hr as [k Hk].
  destruct (Forall2_lookup_r _ _ _ _ _ Hall Hk) as (item & Hitem & Hres).
  destruct (scoreItemAll_total toLowerCase (weightConfigOf options)
    (caseSensitiveOf options) f
    (normalize toLowerCase (caseSensitiveOf options) searchTerm)
    (splitWords (normalize toLowerCase (caseSensitiveOf options) searchTerm))
    item) as (r' & Hr' & Hsame).
  rewrite Hres in Hr'. injection Hr' as <-. rewrite Hsame.
  exists items, f. split; [done |]. split; [done |].
  split; [by eapply list_elem_of_lookup_2 |].
  unfold scoreItemAll in Hres.
  destruct (toBoolean (getField item f)); [done |]. simpl in Hres.
  injection Hres as <-. change (minScoreOf options <= 0)%Q in Hscore. lra.
Qed.

End Skipped.

(** X16 on ["Hello World"], the term ["help"] and [maxEditDistance = 1]. *)
Lemma candidates_skipped_witness :
  let options := SearchOptions.mk None None None None (Some 1) in
  let item := named (of_ascii "Hello World") in
  let nst := normalize toLowerCaseLatin (caseSensitiveOf options)
               (of_ascii "help") in
  let nfv := normalize toLowerCaseLatin (caseSensitiveOf options)
               (ToString (getField item "name")) in
  "name"%string ≠ EmptyString ∧ of_ascii "help" ≠ [] ∧ (2 ≤ length nst)%nat ∧
  example_items !! 0%nat = Some item ∧
  (toBoolean (getField item "name") = false ∨
   maxEditDistanceOf options * 2
   < Z.abs (Z.of_nat (length nfv) - Z.of_nat (length nst))) ∧
  ∃ scored,
    scoredItems toLowerCaseLatin (Some example_items) (Some "name"%string)
      (of_ascii "help") options
    = Some (Some scored) ∧
    scored !! 0%nat = Some (unscored item None).
Proof.
  intros options item nst nfv.
  assert ("name"%string ≠ EmptyString) as H1 by discriminate.
  assert (of_ascii "help" ≠ []) as H2 by discriminate.
  assert (2 ≤ length nst)%nat as H3 by (vm_compute; lia).
  assert (example_items !! 0%nat = Some item) as H4 by reflexivity.
  assert (toBoolean (getField item "name") = false ∨
          maxEditDistanceOf options * 2
          < Z.abs (Z.of_nat (length nfv) - Z.of_nat (length nst))) as H5
    by (right; vm_compute; reflexivity).
  split; [exact H1 |]. split; [exact H2 |]. split; [exact H3 |].
  split; [exact H4 |]. split; [exact H5 |].
  exact (candidates_skipped toLowerCaseLatin example_items "name"
           (of_ascii "help") options 0%nat item H1 H2 H3 H4 H5).
Defined.

(** X15 on the example collection and the term ["hello"]. *)
Lemma smartFuzzySearch_threshold_witness :
  let options := SearchOptions.empty in
  let item := named (of_ascii "HELLO") in
  smartFuzzySearch toLowerCaseLatin (Some example_items) (Some "name"%string)
    (of_ascii "hello") options = Some (Some item) ∧
  ∃ items f r,
    Some example_items = Some items ∧ Some "name"%string = Some f ∧
    item ∈ items ∧
    candidateResult toLowerCaseLatin f (of_ascii "hello") options item
    = Some r ∧
    (minScoreOf options <= SearchResult.score r)%Q ∧
    ((0 < minScoreOf options)%Q →
     let nst := normalize toLowerCaseLatin (caseSensitiveOf options)
                  (of_ascii "hello") in
     let nfv := normalize toLowerCaseLatin (caseSensitiveOf options)
                  (ToString (getField item f)) in
     toBoolean (getField item f) = true ∧
     Z.abs (Z.of_nat (length nfv) - Z.of_nat (length nst))
     ≤ maxEditDistanceOf options * 2).
Proof.
  intros options item.
  assert (smartFuzzySearch toLowerCaseLatin (Some example_items)
            (Some "name"%string) (of_ascii "hello") options
          = Some (Some item)) as H1 by (vm_compute; reflexivity).
  split; [exact H1 |].
  exact (smartFuzzySearch_threshold toLowerCaseLatin (Some example_items)
           (Some "name"%string) (of_ascii "hello") options item H1).
Defined.

(** X23 on the example collection and the term ["hello"]. *)
Lemma smartFuzzySearchAll_truthy_witness :
  let options := SearchOptions.empty in
  let item := named (of_ascii "HELLO") in
  let out := [item; named (of_ascii "Hello World")] in
  (0 < minScoreOf options)%Q ∧
  smartFuzzySearchAll toLowerCaseLatin (Some example_items)
    (Some "name"%string) (of_ascii "hello") options = Some out ∧
  item ∈ out ∧
  ∃ items f,
    Some example_items = Some items ∧ Some "name"%string = Some f ∧
    item ∈ items ∧ toBoolean (getField item f) = true.
Proof.
  intros options item out.
  assert (0 < minScoreOf options)%Q as H1 by (vm_compute; reflexivity).
  assert (smartFuzzySearchAll toLowerCaseLatin (Some example_items)
            (Some "name"%string) (of_ascii "hello") options = Some out) as H2
    by (vm_compute; reflexivity).
  assert (item ∈ out) as H3 by left.
  split; [exact H1 |]. split; [exact H2 |]. split; [exact H3 |].
  exact (smartFuzzySearchAll_truthy toLowerCaseLatin (Some example_items)
           (Some "name"%string) (of_ascii "hello") options out item H1 H2 H3).
Defined.

(** ** Bounds of the scores *)

Lemma scaled_le (x w c B : Q) :
  unit_interval x → (0 <= c)%Q → (0 <= B)%Q → (c * w <= B)%Q →
  (x * w * c <= B)%Q.
Proof.
  intros [Hx0 Hx1] Hc HB Hcw.
  destruct (Qlt_le_dec w 0) as [Hneg|Hpos].
  - assert (0 <= x * (- w) * c)%Q.
    { apply Qmult_le_0_compat; [|done]. apply Qmult_le_0_compat; lra. }
    assert (x * w * c == - (x * (- w) * c))%Q as -> by ring. lra.
  - assert (0 <= w * c)%Q by (apply Qmult_le_0_compat; lra).
    assert (x * (w * c) <= 1 * (w * c))%Q by (by apply Qmult_le_compat_r).
    assert (x * w * c == x * (w * c))%Q as -> by ring. lra.
Qed.

Lemma weighted_le (x w B : Q) :
  unit_interval x → (0 <= B)%Q → (w <= B)%Q → (x * w <= B)%Q.
Proof.
  intros Hx HB Hw.
  assert (x * w == x * w * 1)%Q as -> by ring.
  apply scaled_le; [done | lra | done | lra].
Qed.

Lemma scaled_ge (x w c : Q) :
  unit_interval x → (0 <= w)%Q → (0 <= c)%Q → (0 <= x * w * c)%Q.
Proof.
  intros [Hx0 _] Hw Hc. apply Qmult_le_0_compat; [|done].
  by apply Qmult_le_0_compat.
Qed.

Lemma searchWordMatches_le sw fw : (searchWordMatches sw fw ≤ length sw)%nat.
Proof. unfold searchWordMatches. apply List.filter_length_le. Qed.

Lemma editSimilarity_bounds nfv nst :
  let maxLength := Z.of_nat (length nfv `max` length nst) in
  unit_interval (inject_Z (maxLength - distance nfv nst) / inject_Z maxLength).
Proof.
  intros maxLength. apply unit_interval_Z_ratio.
  pose proof (lev_upper nfv nst (length nfv) (length nst)).
  pose proof (lev_lower nfv nst (length nfv) (length nst)).
  unfold distance. subst maxLength. lia.
Qed.

Section UpperBound.
Variables (w : WeightConfig.t) (B : Q).
Hypothesis B_nonneg : (0 <= B)%Q.
Hypothesis B_prefix : (WeightConfig.prefixMatch w <= B)%Q.
Hypothesis B_contains : (WeightConfig.containsMatch w <= B)%Q.
Hypothesis B_substring : (WeightConfig.substringMatch w <= B)%Q.
Hypothesis B_common : (WeightConfig.commonPrefix w <= B)%Q.
Hypothesis B_word : (WeightConfig.wordBoundary w <= B)%Q.
Hypothesis B_char : ((15 # 10) * WeightConfig.charSimilarity w <= B)%Q.
Hypothesis B_length : (WeightConfig.lengthSimilarity w <= B)%Q.

Local Abbreviation within x := ((0 <= x)%Q ∧ (x <= B)%Q).

Lemma within_max m v : within m → (v <= B)%Q → within (Qmax m v).
Proof.
  intros [Hm0 HmB] Hv. split.
  - apply Q.max_le_iff. by left.
  - by apply Q.max_lub.
Qed.

Lemma within_if {P Q' : Prop} (c : {P} + {Q'}) m v :
  within m → (v <= B)%Q → within (if c then Qmax m v else m).
Proof. intros Hm Hv. destruct c; [by apply within_max | done]. Qed.

Lemma within_if_bool (c : bool) m v :
  within m → (v <= B)%Q → within (if c then Qmax m v else m).
Proof. intros Hm Hv. destruct c; [by apply within_max | done]. Qed.

Lemma B_char_scaled c :
  (0 <= c)%Q → (c <= 15 # 10)%Q → (c * WeightConfig.charSimilarity w <= B)%Q.
Proof.
  intros Hc0 Hc1. destruct (Qlt_le_dec (WeightConfig.charSimilarity w) 0).
  - assert (0 <= c * - WeightConfig.charSimilarity w)%Q
      by (apply Qmult_le_0_compat; lra).
    lra.
  - assert (c * WeightConfig.charSimilarity w
            <= (15 # 10) * WeightConfig.charSimilarity w)%Q
      by (apply Qmult_le_compat_r; lra).
    lra.
Qed.

Lemma heuristicScore_within nfv nst sw fw cs ls :
  unit_interval cs → unit_interval ls →
  within (heuristicScore w nfv nst sw fw cs ls).
Proof.
  intros Hcs Hls. unfold heuristicScore. cbv zeta.
  apply within_max.
  2: { by apply weighted_le. }
  apply within_if.
  2: { apply scaled_le; [apply calculateChineseWordMatch_bounds | lra | done
                        | done]. }
  apply within_if.
  2: { apply scaled_le; [apply calculateContinuousMatch_bounds | lra | done |].
       apply B_char_scaled; lra. }
  apply within_max.
  2: { apply weighted_le; [done.. |]. 
       assert (WeightConfig.charSimilarity w == 1 * WeightConfig.charSimilarity w)%Q
         as -> by ring.
       apply B_char_scaled; lra. }
  assert (within
    (if isContainsMatch nfv nst
     then Qmax (if isPrefixMatch nfv nst
                then Qmax 0 (WeightConfig.prefixMatch w) else 0)
               (WeightConfig.containsMatch w)
     else if isPrefixMatch nfv nst
          then Qmax 0 (WeightConfig.prefixMatch w) else 0)) as Hbase.
  { apply within_if_bool; [|done]. apply within_if_bool; [|done]. split; lra. }
  assert (∀ m, within m →
    within (if decide (0 < length sw)%nat
            then if decide (0 < searchWordMatches sw fw)%nat
                 then Qmax m (Qnat (searchWordMatches sw fw) / Qnat (length sw)
                              * WeightConfig.wordBoundary w)
                 else m
            else m)) as Hword.
  { intros m Hm. destruct (decide _); [|done]. apply within_if; [done |].
    apply weighted_le; [|done..]. apply unit_interval_ratio.
    apply searchWordMatches_le. }
  apply Hword. apply within_if.
  2: { apply weighted_le; [apply calculateCommonPrefix_bounds | done..]. }
  apply within_if.
  2: { apply weighted_le; [apply calculateSubstringMatch_bounds | done..]. }
  exact Hbase.
Qed.

Lemma editStage_within minScore M nfv nst running maxScore editScore d maxLength :
  editStage w minScore M nfv nst running
  = Some (maxScore, editScore, d, maxLength) →
  within running →
  within maxScore ∧
  unit_interval (if Qlt_le_dec 0 editScore
                 then (inject_Z (maxLength - d) / inject_Z maxLength)%Q
                 else 0%Q).
Proof.
  intros Hedit Hrun. apply editStage_cases in Hedit
    as [[-> ->] | (_ & -> & _ & -> & -> & ->)].
  - split; [done |]. destruct (Qlt_le_dec 0 0); [lra | apply unit_interval_0].
  - pose proof (editSimilarity_bounds nfv nst) as Hes. cbv zeta in Hes.
    split.
    + apply within_max; [done |]. destruct (decide _).
      * apply scaled_le; [done | lra | done |]. apply B_char_scaled; lra.
      * assert (0 * WeightConfig.charSimilarity w * (5 # 10) == 0)%Q as ->
          by ring. done.
    + destruct (Qlt_le_dec 0 _); [done | apply unit_interval_0].
Qed.

Lemma scoreOf_within toLowerCase minScore cs ec M f nst sw item r :
  scoreOf toLowerCase w minScore cs ec M f nst sw item = Some r →
  let nfv := normalize toLowerCase cs (ToString (getField item f)) in
  (toBoolean (getField item f) = true ∧ nfv = nst ∧
   SearchResult.score r = WeightConfig.exactMatch w ∨
   (toBoolean (getField item f) = false ∨ nfv ≠ nst
    ∨ M * 2 < Z.abs (Z.of_nat (length nfv) - Z.of_nat (length nst))) ∧
   within (SearchResult.score r)) ∧
  unit_interval (MatchDetails.charSimilarity (SearchResult.details r)) ∧
  unit_interval (MatchDetails.lengthSimilarity (SearchResult.details r)) ∧
  unit_interval (MatchDetails.editSimilarity (SearchResult.details r)).
Proof.
  intros Hr nfv. apply scoreOf_cases in Hr. cbv zeta in Hr. fold nfv in Hr.
  destruct Hr as [[-> Hskip] | [(Ht & _ & Heq & ->) | (Ht & _ & Hne & Hr)]].
  - simpl. split; [|repeat split; lra]. right. split; [tauto | split; lra].
  - simpl. split; [by left |]. repeat split; lra.
  - destruct Hr as (maxScore & editScore & d & maxLength & Hedit & ->). simpl.
    apply editStage_within in Hedit as [Hmax Hes].
    + split; [right; split; [tauto | done] |].
      split; [apply calculateCharSimilarityOptimized_bounds |].
      split; [apply calculateLengthSimilarity_bounds | done].
    + apply heuristicScore_within;
        [apply calculateCharSimilarityOptimized_bounds
        | apply calculateLengthSimilarity_bounds].
Qed.

End UpperBound.

Lemma unit_interval_mul x y :
  unit_interval x → unit_interval y → unit_interval (x * y).
Proof.
  intros Hx [Hy0 Hy1]. split.
  - apply Qmult_le_0_compat; [apply Hx | done].
  - apply weighted_le; [done | lra | done].
Qed.

Lemma unit_interval_max x y :
  unit_interval x → unit_interval y → unit_interval (Qmax x y).
Proof.
  intros [Hx0 Hx1] [Hy0 Hy1]. split.
  - apply Q.max_le_iff. by left.
  - by apply Q.max_lub.
Qed.

Lemma unit_interval_indicator b : unit_interval (indicator b).
Proof. destruct b; [apply unit_interval_1 | apply unit_interval_0]. Qed.

Lemma unit_interval_half : unit_interval (5 # 10).
Proof. split; lra. Qed.

Lemma unit_interval_Qeq x y : (x == y)%Q → unit_interval y → unit_interval x.
Proof. intros Hxy [H0 H1]. split; lra. Qed.

Lemma Qmaximum_unit_interval xs :
  Forall unit_interval xs → unit_interval (Qmaximum xs).
Proof.
  intros Hxs. destruct Hxs as [|x xs Hx Hxs]; [apply unit_interval_0 |].
  simpl. revert x Hx. induction Hxs as [|y xs Hy _ IH]; intros x Hx; [done |].
  simpl. apply IH. by apply unit_interval_max.
Qed.

Lemma accumulateAll_within w nfv nst sw fw cs ls es :
  weightsInUnitInterval w →
  unit_interval cs → unit_interval ls → unit_interval es →
  unit_interval (snd (accumulateAll w nfv nst sw fw cs ls es)).
Proof.
  intros (He & Hp & Hc & Hch & Hl & Hw & _ & _) Hcs Hls Hes.
  destruct (accumulateAll_spec w nfv nst sw fw cs ls es) as [Hmax _].
  { apply Qmult_le_0_compat; [apply Hcs | apply Hch]. }
  eapply unit_interval_Qeq; [exact Hmax |].
  apply Qmaximum_unit_interval. unfold subScoresAll. cbv zeta.
  repeat apply Forall_cons_2; try apply Forall_nil_2.
  - apply unit_interval_mul; [apply unit_interval_indicator | done].
  - apply unit_interval_mul; [apply unit_interval_indicator | done].
  - apply unit_interval_mul; [apply unit_interval_indicator | done].
  - apply unit_interval_mul; [|done]. destruct (decide _).
    + apply unit_interval_ratio, searchWordMatches_le.
    + apply unit_interval_0.
  - by apply unit_interval_mul.
  - by apply unit_interval_mul.
  - apply unit_interval_mul; [by apply unit_interval_mul |].
    apply unit_interval_half.
Qed.

Section Bounds.
Variable toLowerCase : jsstring → jsstring.

Lemma scoreItemAll_within w cs f nst sw item r :
  weightsInUnitInterval w →
  scoreItemAll toLowerCase w cs f nst sw item = Some r →
  unit_interval (SearchResult.score r) ∧
  unit_interval (MatchDetails.charSimilarity (SearchResult.details r)) ∧
  unit_interval (MatchDetails.lengthSimilarity (SearchResult.details r)) ∧
  unit_interval (MatchDetails.editSimilarity (SearchResult.details r)).
Proof.
  intros Hweights. unfold scoreItemAll.
  destruct (toBoolean _); cbn [negb].
  2: { intros [= <-]. repeat split; apply unit_interval_0. }
  rewrite unbounded_spec. cbn [mbind option_bind]. cbv zeta.
  set (nfv := normalize toLowerCase cs (ToString (getField item f))).
  set (es := if decide (Z.of_nat (length nfv `max` length nst) > 0)
             then _ else _).
  assert (unit_interval es) as Hes.
  { subst es. destruct (decide _); [|apply unit_interval_0].
    apply editSimilarity_bounds. }
  pose proof (calculateCharSimilarity_bounds nfv nst) as Hcs.
  pose proof (calculateLengthSimilarity_bounds nfv nst) as Hls.
  pose proof (accumulateAll_within w nfv nst sw (splitWords nfv) _ _ _
                Hweights Hcs Hls Hes) as Hmax.
  destruct (accumulateAll _ _ _ _ _ _ _ _) as [totalScore maxScore].
  intros [= <-]. cbn [SearchResult.score SearchResult.details
    MatchDetails.charSimilarity MatchDetails.lengthSimilarity
    MatchDetails.editSimilarity]. done.
Qed.

(** X24.  With every weight between 0 and 1, the score of every result of
    [smartFuzzySearchAll] lies between 0 and 1, and so do the three
    similarities of its details. *)
Theorem smartFuzzySearchAll_scores_in_unit_interval
    lst field searchTerm options :
  weightsInUnitInterval (weightConfigOf options) →
  ∃ scored,
    scoredItemsAll toLowerCase lst field searchTerm options = Some scored ∧
    ∀ results r, scored = Some results → r ∈ results →
      unit_interval (SearchResult.score r) ∧
      unit_interval (MatchDetails.charSimilarity (SearchResult.details r)) ∧
      unit_interval (MatchDetails.lengthSimilarity (SearchResult.details r)) ∧
      unit_interval (MatchDetails.editSimilarity (SearchResult.details r)).
Proof.
  intros Hweights.
  destruct (decide (lst = None ∨ field = None ∨ field = Some EmptyString
                    ∨ searchTerm = [])) as [Hfail|Hpass].
  - rewrite scoredItemsAll_fail by done. eexists. split; [done |]. done.
  - destruct lst as [items|]; [|tauto]. destruct field as [f|]; [|tauto].
    destruct (scoredItemsAll_pass toLowerCase items f searchTerm options)
      as (scored & -> & Hall); [naive_solver | tauto |].
    eexists. split; [done |]. intros results r [= <-] Hr.
    apply list_elem_of_lookup in Hr as [k Hk].
    destruct (Forall2_lookup_r _ _ _ _ _ Hall Hk) as (item & _ & Hitem).
    by eapply scoreItemAll_within.
Qed.

(** X18.  With every weight between 0 and 1, the score of every result of
    [smartFuzzySearch] lies between 0 and the larger of 1 and one and a half
    times the character-similarity weight, and the three similarities of its
    details lie between 0 and 1. *)
Theorem smartFuzzySearch_scores_bounded lst field searchTerm options :
  weightsInUnitInterval (weightConfigOf options) →
  ∃ scored,
    scoredItems toLowerCase lst field searchTerm options = Some scored ∧
    ∀ results r, scored = Some results → r ∈ results →
      (0 <= SearchResult.score r)%Q ∧
      (SearchResult.score r
       <= Qmax 1 ((15 # 10)
                  * WeightConfig.charSimilarity (weightConfigOf options)))%Q ∧
      unit_interval (MatchDetails.charSimilarity (SearchResult.details r)) ∧
      unit_interval (MatchDetails.lengthSimilarity (SearchResult.details r)) ∧
      unit_interval (MatchDetails.editSimilarity (SearchResult.details r)).
Proof.
  intros (He & Hp & Hc & Hch & Hl & Hw & Hs & Hcp).
  destruct (decide (lst = None ∨ field = None ∨ field = Some EmptyString
                    ∨ searchTerm = []
                    ∨ (length (normalize toLowerCase (caseSensitiveOf options)
                                 searchTerm) < 2)%nat)) as [Hfail|Hpass].
  - rewrite scoredItems_fail by done. eexists. split; [done |]. done.
  - destruct lst as [items|]; [|tauto]. destruct field as [f|]; [|tauto].
    destruct (scoredItems_pass toLowerCase items f searchTerm options)
      as (scored & -> & Hall); [naive_solver | tauto | lia |].
    eexists. split; [done |]. intros results r [= <-] Hr.
    apply list_elem_of_lookup in Hr as [k Hk].
    destruct (Forall2_lookup_r _ _ _ _ _ Hall Hk) as (item & _ & Hitem).
    set (B := Qmax 1 ((15 # 10)
                      * WeightConfig.charSimilarity (weightConfigOf options))).
    assert (1 <= B)%Q as HB1 by apply Q.le_max_l.
    assert ((15 # 10) * WeightConfig.charSimilarity (weightConfigOf options)
            <= B)%Q as HB2 by apply Q.le_max_r.
    destruct He, Hp, Hc, Hl, Hw, Hs, Hcp.
    eapply (scoreOf_within (weightConfigOf options) B) in Hitem;
      [|lra..]. cbv zeta in Hitem.
    destruct Hitem as [[(_ & _ & ->) | [_ [Hlow Hhigh]]] Hdetails].
    + split; [lra |]. split; [lra | done].
    + split; [done |]. split; [done | done].
Qed.

End Bounds.

(** X24 on the example collection and the default weights. *)
Lemma smartFuzzySearchAll_scores_in_unit_interval_witness :
  weightsInUnitInterval (weightConfigOf SearchOptions.empty) ∧
  ∃ scored,
    scoredItemsAll toLowerCaseLatin (Some example_items) (Some "name"%string)
      (of_ascii "hello") SearchOptions.empty = Some scored ∧
    ∀ results r, scored = Some results → r ∈ results →
      unit_interval (SearchResult.score r) ∧
      unit_interval (MatchDetails.charSimilarity (SearchResult.details r)) ∧
      unit_interval (MatchDetails.lengthSimilarity (SearchResult.details r)) ∧
      unit_interval (MatchDetails.editSimilarity (SearchResult.details r)).
Proof.
  assert (weightsInUnitInterval (weightConfigOf SearchOptions.empty)) as H
    by (repeat split; vm_compute; discriminate).
  split; [exact H |].
  exact (smartFuzzySearchAll_scores_in_unit_interval toLowerCaseLatin
           (Some example_items) (Some "name"%string) (of_ascii "hello")
           SearchOptions.empty H).
Defined.

(** X18 on the example collection and the default weights. *)
Lemma smartFuzzySearch_scores_bounded_witness :
  let options := SearchOptions.empty in
  weightsInUnitInterval (weightConfigOf options) ∧
  ∃ scored,
    scoredItems toLowerCaseLatin (Some example_items) (Some "name"%string)
      (of_ascii "hello") options = Some scored ∧
    ∀ results r, scored = Some results → r ∈ results →
      (0 <= SearchResult.score r)%Q ∧
      (SearchResult.score r
       <= Qmax 1 ((15 # 10)
                  * WeightConfig.charSimilarity (weightConfigOf options)))%Q ∧
      unit_interval (MatchDetails.charSimilarity (SearchResult.details r)) ∧
      unit_interval (MatchDetails.lengthSimilarity (SearchResult.details r)) ∧
      unit_interval (MatchDetails.editSimilarity (SearchResult.details r)).
Proof.
  intros options.
  assert (weightsInUnitInterval (weightConfigOf options)) as H
    by (repeat split; vm_compute; discriminate).
  split; [exact H |].
  exact (smartFuzzySearch_scores_bounded toLowerCaseLatin
           (Some example_items) (Some "name"%string) (of_ascii "hello")
           options H).
Defined.

(** ** The first exact match wins *)

Section ExactFirst.
Variable toLowerCase : jsstring → jsstring.

(** A candidate is an exact match for the normalized search term [nst]. *)
Local Abbreviation isExact cs f nst item :=
  (toBoolean (getField item f) = true ∧
   normalize toLowerCase cs (ToString (getField item f)) = nst).




End ExactFirst.


(** ** Case-sensitive calls *)

Lemma scoreItems_caseSensitive toLowerCase1 toLowerCase2
    w minScore ec M f nst sw items : ∀ cache,
  scoreItems toLowerCase1 w minScore true ec M f nst sw cache items
  = scoreItems toLowerCase2 w minScore true ec M f nst sw cache items.
Proof.
  induction items as [|item items IH]; intros cache; [done |]. simpl.
  change (scoreItem toLowerCase1 w minScore true ec M f nst sw cache item)
    with (scoreItem toLowerCase2 w minScore true ec M f nst sw cache item).
  destruct (scoreItem _ _ _ _ _ _ _ _ _ _ _) as [[r cache']|]; [|done].
  simpl. by rewrite IH.
Qed.

(** X27.  With [caseSensitive: true] neither entry point lowercases anything:
    the result is the same whatever [toLowerCase] does. *)
Theorem caseSensitive_skips_toLowerCase toLowerCase1 toLowerCase2
    lst field searchTerm options :
  caseSensitiveOf options = true →
  smartFuzzySearch toLowerCase1 lst field searchTerm options
  = smartFuzzySearch toLowerCase2 lst field searchTerm options ∧
  smartFuzzySearchAll toLowerCase1 lst field searchTerm options
  = smartFuzzySearchAll toLowerCase2 lst field searchTerm options.
Proof.
  intros Hcs. split.
  - unfold smartFuzzySearch, scoredItems. rewrite Hcs.
    destruct lst as [items|]; [|done]. destruct field as [f|]; [|done].
    cbv zeta. unfold normalize.
    by rewrite (scoreItems_caseSensitive toLowerCase1 toLowerCase2).
  - unfold smartFuzzySearchAll, scoredItemsAll. rewrite Hcs.
    destruct lst as [items|]; [|done]. destruct field as [f|]; [|done].
    done.
Qed.

(** X27 on the example collection, with the identity in place of
    [toLowerCase]. *)
Lemma caseSensitive_skips_toLowerCase_witness :
  let options := SearchOptions.mk None (Some true) None None None in
  caseSensitiveOf options = true ∧
  smartFuzzySearch toLowerCaseLatin (Some example_items) (Some "name"%string)
    (of_ascii "Hello") options
  = smartFuzzySearch (λ str, str) (Some example_items) (Some "name"%string)
      (of_ascii "Hello") options ∧
  smartFuzzySearchAll toLowerCaseLatin (Some example_items)
    (Some "name"%string) (of_ascii "Hello") options
  = smartFuzzySearchAll (λ str, str) (Some example_items)
      (Some "name"%string) (of_ascii "Hello") options.
Proof.
  intros options.
  assert (caseSensitiveOf options = true) as H by reflexivity.
  split; [exact H |].
  exact (caseSensitive_skips_toLowerCase toLowerCaseLatin (λ str, str)
           (Some example_items) (Some "name"%string) (of_ascii "Hello")
           options H).
Defined.

(** ** Raising the threshold *)

Lemma insertByScore_first r sorted :
  Forall (λ x, (SearchResult.score x < SearchResult.score r)%Q) sorted →
  insertByScore r sorted = r :: sorted.
Proof.
  intros Hall. destruct Hall as [|x sorted Hx _]; [done |]. simpl.
  destruct (Qlt_le_dec _ _); [done | lra].
Qed.

Lemma insertByScore_filter m r sorted :
  StronglySorted byScore sorted →
  filterByScore m (insertByScore r sorted)
  = if Qle_bool m (SearchResult.score r)
    then insertByScore r (filterByScore m sorted)
    else filterByScore m sorted.
Proof.
  unfold filterByScore.
  induction 1 as [|r' sorted' Hsorted IH Hall]; simpl.
  - by destruct (Qle_bool _ _).
  - destruct (Qlt_le_dec _ _) as [Hlt|Hge]; simpl.
    + destruct (Qle_bool m (SearchResult.score r)) eqn:Hr; [|done].
      rewrite insertByScore_first; [done |].
      apply Forall_forall. intros x Hx. apply list_elem_of_In in Hx.
      destruct (Qle_bool m (SearchResult.score r')).
      * destruct Hx as [<- | Hx]; [done |].
        apply filter_In in Hx as [Hx _]. apply list_elem_of_In in Hx.
        pose proof (proj1 (Forall_forall _ _) Hall x Hx) as Hle.
        unfold byScore in Hle. lra.
      * apply filter_In in Hx as [Hx _]. apply list_elem_of_In in Hx.
        pose proof (proj1 (Forall_forall _ _) Hall x Hx) as Hle.
        unfold byScore in Hle. lra.
    + rewrite IH. destruct (Qle_bool m (SearchResult.score r)) eqn:Hr.
      * apply Qle_bool_iff in Hr.
        assert (Qle_bool m (SearchResult.score r') = true) as ->
          by (apply Qle_bool_iff; lra).
        simpl. destruct (Qlt_le_dec _ _); [lra | done].
      * done.
Qed.

Lemma sortByScore_filter m results :
  filterByScore m (sortByScore results) = sortByScore (filterByScore m results).
Proof.
  unfold sortByScore.
  enough (∀ acc, StronglySorted byScore acc →
            filterByScore m
              (foldl (λ sorted r, insertByScore r sorted) acc results)
            = foldl (λ sorted r, insertByScore r sorted)
                (filterByScore m acc) (filterByScore m results))
    as H by (apply (H []); constructor).
  induction results as [|r results IH]; intros acc Hacc; [done |]. simpl.
  rewrite IH by (by apply insertByScore_sorted).
  rewrite insertByScore_filter by done.
  by destruct (Qle_bool m (SearchResult.score r)).
Qed.

Lemma filterByScore_raise m1 m2 results :
  (m1 <= m2)%Q →
  filterByScore m2 (filterByScore m1 results) = filterByScore m2 results.
Proof.
  intros Hm. unfold filterByScore.
  induction results as [|r results IH]; simpl; [done |].
  destruct (Qle_bool m1 (SearchResult.score r)) eqn:H1; simpl.
  - by rewrite IH.
  - rewrite IH.
    assert (Qle_bool m2 (SearchResult.score r) = false) as ->; [|done].
    apply not_true_is_false. intros H2. apply Qle_bool_iff in H2.
    apply not_true_iff_false in H1. apply H1, Qle_bool_iff. lra.
Qed.

Section Threshold.
Variable toLowerCase : jsstring → jsstring.

(** X25.  [smartFuzzySearchAll] reads only [minScore], [caseSensitive] and
    [weightConfig]; between two calls that agree on the last two, raising
    [minScore] removes results and keeps the others in their order. *)
Theorem raising_minScore_removes_results
    lst field searchTerm options1 options2 :
  SearchOptions.caseSensitive options1 = SearchOptions.caseSensitive options2 →
  SearchOptions.weightConfig options1 = SearchOptions.weightConfig options2 →
  (minScoreOf options1 <= minScoreOf options2)%Q →
  ∃ out1 out2,
    smartFuzzySearchAll toLowerCase lst field searchTerm options1 = Some out1 ∧
    smartFuzzySearchAll toLowerCase lst field searchTerm options2 = Some out2 ∧
    out2 `sublist_of` out1.
Proof.
  intros Hcase Hweights Hmin.
  assert (scoredItemsAll toLowerCase lst field searchTerm options2
          = scoredItemsAll toLowerCase lst field searchTerm options1) as Hsame.
  { unfold scoredItemsAll, caseSensitiveOf, weightConfigOf.
    by rewrite Hcase, Hweights. }
  unfold smartFuzzySearchAll. rewrite Hsame.
  destruct (decide (lst = None ∨ field = None ∨ field = Some EmptyString
                    ∨ searchTerm = [])) as [Hfail|Hpass].
  - rewrite scoredItemsAll_fail by done. simpl. by exists [], [].
  - destruct lst as [items|]; [|tauto]. destruct field as [f|]; [|tauto].
    destruct (scoredItemsAll_pass toLowerCase items f searchTerm options1)
      as (scored & -> & _); [naive_solver | tauto |].
    simpl. eexists _, _. split; [done |]. split; [done |].
    rewrite <- (filterByScore_raise (minScoreOf options1) (minScoreOf options2))
      by done.
    rewrite <- sortByScore_filter.
    apply fmap_sublist, filterByScore_sublist.
Qed.

End Threshold.

(** X25 on the example collection, with [minScore] raised from 0.3 to 0.9. *)
Lemma raising_minScore_removes_results_witness :
  let options1 := SearchOptions.empty in
  let options2 := SearchOptions.mk (Some (9 # 10)%Q) None None None None in
  SearchOptions.caseSensitive options1 = SearchOptions.caseSensitive options2 ∧
  SearchOptions.weightConfig options1 = SearchOptions.weightConfig options2 ∧
  (minScoreOf options1 <= minScoreOf options2)%Q ∧
  ∃ out1 out2,
    smartFuzzySearchAll toLowerCaseLatin (Some example_items)
      (Some "name"%string) (of_ascii "hello") options1 = Some out1 ∧
    smartFuzzySearchAll toLowerCaseLatin (Some example_items)
      (Some "name"%string) (of_ascii "hello") options2 = Some out2 ∧
    out2 `sublist_of` out1.
Proof.
  intros options1 options2.
  assert (SearchOptions.caseSensitive options1
          = SearchOptions.caseSensitive options2) as H1 by reflexivity.
  assert (SearchOptions.weightConfig options1
          = SearchOptions.weightConfig options2) as H2 by reflexivity.
  assert (minScoreOf options1 <= minScoreOf options2)%Q as H3
    by (vm_compute; discriminate).
  split; [exact H1 |]. split; [exact H2 |]. split; [exact H3 |].
  exact (raising_minScore_removes_results toLowerCaseLatin
           (Some example_items) (Some "name"%string) (of_ascii "hello")
           options1 options2 H1 H2 H3).
Defined.

(** X14 on the example collection and the term ["hel"]. *)
Lemma smartFuzzySearch_first_best_witness :
  let options := SearchOptions.empty in
  let items := example_items in
  let f := "name"%string in
  let searchTerm := of_ascii "hel" in
  f ≠ EmptyString ∧ searchTerm ≠ [] ∧
  (2 ≤ length (normalize toLowerCaseLatin (caseSensitiveOf options)
                 searchTerm))%nat ∧
  ∃ scored,
    scoredItems toLowerCaseLatin (Some items) (Some f) searchTerm options
    = Some (Some scored) ∧
    SearchResult.item <$> scored = items ∧
    ((∃ before r after,
        scored = before ++ r :: after ∧
        smartFuzzySearch toLowerCaseLatin (Some items) (Some f) searchTerm
          options
        = Some (Some (SearchResult.item r)) ∧
        items !! length before = Some (SearchResult.item r) ∧
        (minScoreOf options <= SearchResult.score r)%Q ∧
        Forall (λ x, (SearchResult.score x < SearchResult.score r)%Q) before ∧
        Forall (λ x, (SearchResult.score x <= SearchResult.score r)%Q) after) ∨
     (smartFuzzySearch toLowerCaseLatin (Some items) (Some f) searchTerm
        options
      = Some None ∧
      Forall (λ x, (SearchResult.score x < minScoreOf options)%Q) scored)).
Proof.
  intros options items f searchTerm.
  assert (f ≠ EmptyString) as H1 by discriminate.
  assert (searchTerm ≠ []) as H2 by discriminate.
  assert (2 ≤ length (normalize toLowerCaseLatin (caseSensitiveOf options)
                        searchTerm))%nat as H3 by (vm_compute; lia).
  split; [exact H1 |]. split; [exact H2 |]. split; [exact H3 |].
  exact (smartFuzzySearch_first_best toLowerCaseLatin items f searchTerm
           options H1 H2 H3).
Defined.

(** X20 on the example collection and the term ["hel"]. *)
Lemma smartFuzzySearchAll_ranking_witness :
  let options := SearchOptions.empty in
  let items := example_items in
  let f := "name"%string in
  let searchTerm := of_ascii "hel" in
  f ≠ EmptyString ∧ searchTerm ≠ [] ∧
  ∃ scored ranked,
    scoredItemsAll toLowerCaseLatin (Some items) (Some f) searchTerm options
    = Some (Some scored) ∧
    SearchResult.item <$> scored = items ∧
    smartFuzzySearchAll toLowerCaseLatin (Some items) (Some f) searchTerm
      options
    = Some (SearchResult.item <$> ranked) ∧
    ranked ≡ₚ filterByScore (minScoreOf options) scored ∧
    StronglySorted byScore ranked ∧
    ∀ q, List.filter (scoreIs q) ranked
         = List.filter (scoreIs q) (filterByScore (minScoreOf options) scored).
Proof.
  intros options items f searchTerm.
  assert (f ≠ EmptyString) as H1 by discriminate.
  assert (searchTerm ≠ []) as H2 by discriminate.
  split; [exact H1 |]. split; [exact H2 |].
  exact (smartFuzzySearchAll_ranking toLowerCaseLatin items f searchTerm
           options H1 H2).
Defined.

(** X22 on the empty search term. *)
Lemma smartFuzzySearchAll_guards_witness :
  (Some example_items = None ∨ Some "name"%string = None ∨
   Some "name"%string = Some EmptyString ∨ @nil N = []) ∧
  smartFuzzySearchAll toLowerCaseLatin (Some example_items)
    (Some "name"%string) [] SearchOptions.empty = Some [].
Proof.
  assert (Some example_items = None ∨ Some "name"%string = None ∨
          Some "name"%string = Some EmptyString ∨ @nil N = []) as H
    by (right; right; right; reflexivity).
  split; [exact H |].
  exact (smartFuzzySearchAll_guards toLowerCaseLatin (Some example_items)
           (Some "name"%string) [] SearchOptions.empty H).
Defined.

(** X7 on ["search"]. *)
Lemma scorers_on_identical_strings_witness :
  let str := of_ascii "search" in
  str ≠ [] ∧
  (calculateSubstringMatch str str == 1)%Q ∧
  (calculateCommonPrefix str str == 1)%Q ∧
  (calculateContinuousMatch str str == 1)%Q ∧
  calculateCharSimilarityOptimized str str = 1%Q ∧
  (calculateCharSimilarity str str == 1)%Q ∧
  (calculateLengthSimilarity str str == 1)%Q ∧
  (8 # 10 <= calculateChineseWordMatch str str)%Q ∧
  (NoDup str → (calculateChineseWordMatch str str == 1)%Q).
Proof.
  intros str.
  assert (str ≠ []) as H by discriminate.
  split; [exact H |]. exact (scorers_on_identical_strings str H).
Defined.

(** X10 on ["hello"] and ["help"]. *)
Lemma charSimilarity_agree_without_surrogate_pairs_witness :
  let str1 := of_ascii "hello" in
  let str2 := of_ascii "help" in
  has_surrogate_pair str1 = false ∧ has_surrogate_pair str2 = false ∧
  (calculateCharSimilarityOptimized str1 str2
   == calculateCharSimilarity str1 str2)%Q.
Proof.
  intros str1 str2.
  assert (has_surrogate_pair str1 = false) as H1 by (vm_compute; reflexivity).
  assert (has_surrogate_pair str2 = false) as H2 by (vm_compute; reflexivity).
  split; [exact H1 |]. split; [exact H2 |].
  exact (charSimilarity_agree_without_surrogate_pairs str1 str2 H1 H2).
Defined.
